(** * DeepCode file processor: section scanner, hierarchy builder, renderer,
      encoding resolver and directory relocation

    A shallow embedding of [utils/file_processor.py] (class [FileProcessor])
    and the properties its design document states about it. *)

From Stdlib Require Import ZArith List Ascii String Bool Lia Floats.
From Stdlib Require Import Strings.Byte DecimalString.
From stdpp Require Import base option list gmap strings.

Local Open Scope Z_scope.

(** ** Data model *)

(** A Python [str] is a sequence of code points; the model keeps the 8-bit
    ones. *)
Abbreviation str := (list ascii) (only parsing).

Definition lit (s : string) : str := list_ascii_of_string s.

(** Section dictionaries are mutable objects: [_organize_sections] appends to
    the [subsections] list of a dictionary that is at the same time an element
    of the result list and of the stack.  The store keeps one record per
    dictionary, in creation order; a reference is a position in the store. *)
Abbreviation ref := nat (only parsing).

Record section_dict := mkSection {
  level : Z;
  title : str;
  content : str;
  subsections : list ref
}.

Abbreviation heap := (list section_dict) (only parsing).

(** The nested dictionaries as a caller reads them once the tree is built. *)
#[local] Unset Elimination Schemes.
Inductive Tree := Node (lvl : Z) (ttl : str) (cnt : str) (subs : list Tree).
#[local] Set Elimination Schemes.

Definition tree_level (t : Tree) : Z := match t with Node l _ _ _ => l end.
Definition tree_title (t : Tree) : str := match t with Node _ x _ _ => x end.
Definition tree_content (t : Tree) : str := match t with Node _ _ c _ => c end.
Definition tree_subsections (t : Tree) : list Tree :=
  match t with Node _ _ _ k => k end.

(** ** Hierarchy builder: [_organize_sections] *)

(** [section_stack[-1]["subsections"].append(section)] *)
Definition add_subsection (c : ref) (s : section_dict) : section_dict :=
  mkSection (level s) (title s) (content s) (subsections s ++ [c]).

(** [while section_stack and section_stack[-1]["level"] >= section["level"]:
      section_stack.pop()].  The Python list is used as a stack through [-1],
    [pop()] and [append]; the model keeps its top at the head. *)
Fixpoint pop_stack (h : heap) (lvl : Z) (section_stack : list ref)
  : option (list ref) :=
  match section_stack with
  | [] => Some []
  | top :: below =>
      s ← h !! top;
      if lvl <=? level s then pop_stack h lvl below else Some section_stack
  end.

(** One iteration of [for section in sections]. *)
Definition organize_step (st : heap * list ref * list ref) (section : ref)
  : option (heap * list ref * list ref) :=
  let '(h, result, section_stack) := st in
  sec ← h !! section;
  stack' ← pop_stack h (level sec) section_stack;
  match stack' with
  | top :: _ =>
      _ ← h !! top;
      Some (alter (add_subsection section) top h, result, section :: stack')
  | [] => Some (h, result ++ [section], [section])
  end.

Fixpoint organize_loop (st : heap * list ref * list ref) (sections : list ref)
  : option (heap * list ref * list ref) :=
  match sections with
  | [] => Some st
  | section :: rest => st' ← organize_step st section; organize_loop st' rest
  end.

(** [_organize_sections(sections)]: the store after the loop and the list
    [result] of root references.  [None] stands for a lookup through a
    dangling reference, which Python cannot produce. *)
Definition _organize_sections (h : heap) (sections : list ref)
  : option (heap * list ref) :=
  '(h', result, _) ← organize_loop (h, [], []) sections;
  Some (h', result).

(** Reading the nested dictionaries out of the store.  The fuel bounds the
    depth of the walk; on an acyclic store of [n] objects [n] is enough. *)
Fixpoint view (fuel : nat) (h : heap) (r : ref) : option Tree :=
  match fuel with
  | O => None
  | S fuel' =>
      s ← h !! r;
      kids ← mapM (view fuel' h) (subsections s);
      Some (Node (level s) (title s) (content s) kids)
  end.

Definition forest (h : heap) (roots : list ref) : option (list Tree) :=
  mapM (view (length h) h) roots.

(** The hierarchy builder applied to a flat sequence of freshly created
    dictionaries: dictionary [i] of the sequence is object [i] of the store. *)
Definition build_tree (flat : list section_dict) : option (list Tree) :=
  '(h, roots) ← _organize_sections flat (seq 0 (length flat));
  forest h roots.

Definition is_flat (flat : list section_dict) : Prop :=
  Forall (λ s, subsections s = []) flat.

(** Pre-order traversal: a section before its subsections, siblings in list
    order. *)
Fixpoint preorder (t : Tree) : list (Z * str * str) :=
  match t with
  | Node l ti co kids => (l, ti, co) :: flat_map preorder kids
  end.

Definition payload (s : section_dict) : Z * str * str :=
  (level s, title s, content s).

(** Every subsection is strictly deeper than its parent, at every depth. *)
Fixpoint levels_nested (t : Tree) : bool :=
  match t with
  | Node l _ _ kids =>
      forallb (λ k, (l <? tree_level k) && levels_nested k) kids
  end.

(** ** Strings: [split], [join], [strip] *)

Definition nl : ascii := "010"%char.
Definition is_nl (c : ascii) : bool := Ascii.eqb c nl.
Definition is_hash (c : ascii) : bool := Ascii.eqb c "#"%char.

(** [str.isspace] on one character, which is also the class [\s] of a [str]
    pattern: TAB..CR, FS..US, space, NEL and NBSP below 256. *)
Definition is_space (c : ascii) : bool :=
  let n := N_of_ascii c in
  ((9 <=? n) && (n <=? 13) || (28 <=? n) && (n <=? 32)
   || (n =? 133) || (n =? 160))%N.

(** [content.split("\n")]: never empty, the empty text has one empty line. *)
Fixpoint split_nl (s : str) : list str :=
  match s with
  | [] => [[]]
  | c :: r =>
      if is_nl c then [] :: split_nl r
      else match split_nl r with
           | l :: ls => (c :: l) :: ls
           | [] => [[c]]
           end
  end.

(** ["\n".join(lines)] *)
Fixpoint join_nl (lines : list str) : str :=
  match lines with
  | [] => []
  | [l] => l
  | l :: rest => l ++ nl :: join_nl rest
  end.

Fixpoint drop_while (p : ascii → bool) (s : str) : str :=
  match s with
  | [] => []
  | c :: r => if p c then drop_while p r else s
  end.

(** The longest prefix whose characters satisfy [p], and the rest. *)
Fixpoint span (p : ascii → bool) (s : str) : str * str :=
  match s with
  | [] => ([], [])
  | c :: r => if p c then let '(a, b) := span p r in (c :: a, b) else ([], s)
  end.

Definition lstrip (s : str) : str := drop_while is_space s.
Definition rstrip (s : str) : str := rev (drop_while is_space (rev s)).
(** [s.strip()] *)
Definition strip (s : str) : str := rstrip (lstrip s).

(** ** Heading grammar: [re.match(r"^(#{1,6})\s+(.+)$", line)] *)

(** [(.+)$]: the greedy [.+] takes the longest run without a newline; [$]
    holds at the end of the string and before a newline that ends it.  No
    shorter run can be followed by [$]. *)
Definition dot_plus_eol (r : str) : option str :=
  let '(t, rest) := span (λ c, negb (is_nl c)) r in
  match t, rest with
  | [], _ => None
  | _, [] => Some t
  | _, [_] => Some t
  | _, _ => None
  end.

(** [\s+(.+)$] with backtracking: [taken] is the whitespace [\s+] has
    consumed, last character first; when the rest does not match, [\s+] gives
    its last character back.  [\s+] keeps at least one character. *)
Fixpoint ws_backtrack (taken : str) (r : str) : option str :=
  match taken with
  | [] => None
  | c :: taken' =>
      match dot_plus_eol r with
      | Some g => Some g
      | None => ws_backtrack taken' (c :: r)
      end
  end.

(** The match object reduced to [(len(group(1)), group(2))].  [#{1,6}] is
    greedy and a [#] is no whitespace, so group 1 is the whole run of leading
    [#], which must have 1 to 6 characters. *)
Definition header_match (line : str) : option (nat * str) :=
  let '(hashes, rest) := span is_hash line in
  let k := length hashes in
  if (1 <=? k)%nat && (k <=? 6)%nat then
    let '(ws, r) := span is_space rest in
    g ← ws_backtrack (rev ws) r;
    Some (k, g)
  else None.

Definition is_heading (line : str) : bool :=
  match header_match line with Some _ => true | None => false end.

(** ** Section scanner: the loop of [parse_markdown_sections] *)

Record scan_state := mkScan {
  sections : list section_dict;
  current_section : option (Z * str);
  current_content : list str
}.

(** [current_section["content"] = "\n".join(current_content).strip()] *)
Definition close_section (cur : Z * str) (lines : list str) : section_dict :=
  mkSection (fst cur) (snd cur) (strip (join_nl lines)) [].

Definition scan_line (st : scan_state) (line : str) : scan_state :=
  match header_match line with
  | Some (k, g) =>
      let sections' :=
        match current_section st with
        | Some cur => sections st ++ [close_section cur (current_content st)]
        | None => sections st
        end in
      mkScan sections' (Some (Z.of_nat k, strip g)) []
  | None =>
      match current_section st with
      | Some _ =>
          mkScan (sections st) (current_section st) (current_content st ++ [line])
      | None => st
      end
  end.

Definition scan_finish (st : scan_state) : list section_dict :=
  match current_section st with
  | Some cur => sections st ++ [close_section cur (current_content st)]
  | None => sections st
  end.

(** The flat list handed to [_organize_sections]. *)
Definition scan (content : str) : list section_dict :=
  scan_finish (fold_left scan_line (split_nl content) (mkScan [] None [])).

Definition parse_markdown_sections (content : str) : option (list Tree) :=
  build_tree (scan content).

(** ** Renderer: [format_section_content] and [standardize_output] *)

Definition rule_line : str := lit "---".
Definition separator_line : str := repeat "="%char 80.

Fixpoint format_section_content (section : Tree) : str :=
  match section with
  | Node l ti co subs =>
      let formatted := nl :: repeat "#"%char (Z.to_nat l) ++ " "%char :: ti ++ [nl] in
      let formatted :=
        match co with
        | [] => formatted
        | _ => formatted ++ nl :: strip co ++ [nl]
        end in
      let formatted :=
        match subs with
        | [] => formatted
        | _ =>
            (match co with
             | [] => formatted
             | _ => formatted ++ nl :: rule_line ++ [nl]
             end) ++ flat_map format_section_content subs
        end in
      formatted ++ nl :: separator_line ++ [nl]
  end.

Definition standardize_output (sections : list Tree) : str :=
  join_nl (map format_section_content sections).

(** The pre-order sequence of (level, title) pairs of a forest. *)
Definition headings (trees : list Tree) : list (Z * str) :=
  map (λ p, (p.1.1, p.1.2)) (flat_map preorder trees).

(** ** Encoding resolver: [read_file_content] *)

Abbreviation bytes := (list byte) (only parsing).

#[global] Instance byte_eq_decision : EqDecision byte := Byte.byte_eq_dec.

(** What [file_path] names on disk.  Failures of the operating system other
    than a missing file or a directory in place of a file are outside the
    model. *)
Inductive entry := File (data : bytes) | Directory.

(** What [chardet] answers for the first 10000 bytes. *)
Inductive detection :=
  | Unavailable                 (* [import chardet] raises ImportError *)
  | DetectRaises                (* any other exception while detecting *)
  | Detected (encoding : option str) (confidence : float).

Inductive message :=
  | PdfDetected (file_path : str)
  | ReadWith (file_path encoding detected : str)
  | InvalidUtf8 (file_path : str).

(** The observable steps of one call, oldest first. *)
Inductive event :=
  | OpenBinary (file_path : str)
  | Detect (raw_data : bytes)
  | OpenText (file_path encoding : str) (replace : bool)
  | Printed (m : message).

Inductive outcome :=
  | Return (text : str)
  | RaiseFileNotFoundError
  | RaiseIOError.

Definition is_text_open (e : event) : bool :=
  match e with OpenText _ _ _ => true | _ => false end.
Definition is_detect (e : event) : bool :=
  match e with Detect _ => true | _ => false end.

(** [b'%PDF'] *)
Definition pdf_magic : bytes := [x25; x50; x44; x46]%byte.

Fixpoint starts_with {A} `{EqDecision A} (prefix s : list A) : bool :=
  match prefix, s with
  | [], _ => true
  | p :: prefix', c :: s' => bool_decide (p = c) && starts_with prefix' s'
  | _ :: _, [] => false
  end.

Definition ends_with (suffix s : str) : bool :=
  starts_with (rev suffix) (rev s).

(** The truth value of a string: non-empty. *)
Definition truthy (s : str) : bool :=
  match s with [] => false | _ => true end.

Definition is_slash (c : ascii) : bool := Ascii.eqb c "/"%char.

(** [os.path.basename] (POSIX): what follows the last slash. *)
Definition basename (p : str) : str :=
  rev (span (λ c, negb (is_slash c)) (rev p)).1.

(** [f"{n:,}"] for a size: decimal digits, a comma before each group of three
    counted from the right. *)
Fixpoint group3 (digits_rev : str) : str :=
  match digits_rev with
  | a :: b :: c :: (_ :: _) as more => a :: b :: c :: ","%char :: group3 more
  | _ => digits_rev
  end.

Definition format_commas (n : Z) : str :=
  rev (group3 (rev (lit (NilEmpty.string_of_uint (N.to_uint (Z.to_N n)))))).

(** The confidence threshold [0.7]: the binary64 value of that literal. *)
Definition threshold : float := 0x1.6666666666666p-1%float.

(** [detected_encoding] after
    [if confidence < 0.7: detected_encoding = None] and the handlers of the
    detection block. *)
Definition accepted_encoding (d : detection) : option str :=
  match d with
  | Unavailable => None
  | DetectRaises => None
  | Detected encoding confidence =>
      if (confidence <? threshold)%float then None else encoding
  end.

Definition fallback_encodings : list str :=
  [lit "utf-8"; lit "utf-8-sig"; lit "latin1"; lit "cp1252"; lit "ascii";
   lit "utf-16"; lit "utf-32"].

(** [encodings_to_try] *)
Definition encodings_to_try (detected_encoding : option str) : list str :=
  match detected_encoding with
  | Some enc => if truthy enc then [enc] else []
  | None => []
  end ++ fallback_encodings.

(** [str.lower] on one character of the 8-bit range. *)
Definition lower_char (c : ascii) : ascii :=
  let n := N_of_ascii c in
  if ((65 <=? n) && (n <=? 90)
      || (192 <=? n) && (n <=? 222) && negb (n =? 215))%N
  then ascii_of_N (n + 32) else c.

Definition lower (s : str) : str := map lower_char s.

(** The loop that removes duplicates, [seen] being the set of lower-cased
    names met so far. *)
Fixpoint unique_encodings (seen : gset str) (encodings : list str) : list str :=
  match encodings with
  | [] => []
  | enc :: rest =>
      if truthy enc && negb (bool_decide (lower enc ∈ seen))
      then enc :: unique_encodings ({[lower enc]} ∪ seen) rest
      else unique_encodings seen rest
  end.

Definition candidates (d : detection) : list str :=
  unique_encodings ∅ (encodings_to_try (accepted_encoding d)).

(** The note of a read under another encoding than the detected one:
    [if detected_encoding and encoding != detected_encoding: print(...)]. *)
Definition note_of (file_path : str) (detected_encoding : option str)
    (encoding : str) : option message :=
  match detected_encoding with
  | Some d =>
      if truthy d && negb (bool_decide (encoding = d))
      then Some (ReadWith file_path encoding d) else None
  | None => None
  end.

Section EncodingResolver.

(** The collaborators: the detector, Python's codecs and the formatting of
    a float.  [decode enc data] is [open(path, "r", encoding=enc).read()],
    [None] when it raises; [decode_replace] is the same read with
    [encoding="utf-8", errors="replace"], which substitutes U+FFFD for what
    it cannot decode and has no failure of its own; [format_mb n] is
    [f"{n/1024/1024:.2f}"]; [printable m] tells whether [print] writes the
    message [m]: it is [false] when [print] raises, as it does with
    [UnicodeEncodeError] on an output that cannot encode a character of the
    message, or on a closed one. *)
Variable detect : bytes → detection.
Variable decode : str → bytes → option str.
Variable decode_replace : bytes → str.
Variable format_mb : Z → str.
Variable printable : message → bool.

(** The document returned for a PDF under another suffix. *)
Definition pdf_document (file_path : str) (file_size : Z) : str :=
  join_nl
    [lit "# PDF Document Detected";
     [];
     lit "**File**: " ++ basename file_path;
     lit "**Size**: " ++ format_commas file_size ++ lit " bytes ("
       ++ format_mb file_size ++ lit " MB)";
     lit "**Type**: PDF Document";
     [];
     lit "## Issue";
     lit "This file is a PDF document that was incorrectly saved with a .md extension.";
     [];
     lit "## Solutions";
     lit "1. **Rename the file**: Change the extension from .md to .pdf";
     lit "2. **Use a PDF reader**: Open the file with a PDF viewer";
     lit "3. **Convert to text**: Use a PDF-to-text converter";
     [];
     lit "## For DeepCode Processing";
     lit "To process this PDF with DeepCode:";
     lit "1. Rename the file to have a .pdf extension";
     lit "2. Upload it again - DeepCode will automatically extract and convert the content";
     [];
     lit "---";
     lit "*Auto-detected by DeepCode Encoding System*";
     lit "*Respecting your local development privacy preferences*";
     []].

(** [for encoding in unique_encodings: try: ... return content
    except ...: continue]; [None] when the loop falls through.  The note is
    printed inside the [try]: when [print] raises, [except Exception:
    continue] takes the loop to the next encoding and the text just read is
    dropped. *)
Fixpoint try_encodings (file_path : str) (data : bytes)
    (detected_encoding : option str) (encodings : list str)
  : option str * list event :=
  match encodings with
  | [] => (None, [])
  | encoding :: rest =>
      match decode encoding data with
      | Some text =>
          match note_of file_path detected_encoding encoding with
          | Some note =>
              if printable note
              then (Some text, [OpenText file_path encoding false; Printed note])
              else
                let '(r, tr) :=
                  try_encodings file_path data detected_encoding rest in
                (r, OpenText file_path encoding false :: tr)
          | None => (Some text, [OpenText file_path encoding false])
          end
      | None =>
          let '(r, tr) := try_encodings file_path data detected_encoding rest in
          (r, OpenText file_path encoding false :: tr)
      end
  end.

(** A candidate ends the loop when it decodes the file and the note that
    goes with it, if any, is printed. *)
Definition note_printed (file_path : str) (detected_encoding : option str)
    (encoding : str) : bool :=
  match note_of file_path detected_encoding encoding with
  | Some note => printable note
  | None => true
  end.

Definition wins (file_path : str) (data : bytes)
    (detected_encoding : option str) (encoding : str) : bool :=
  bool_decide (is_Some (decode encoding data))
  && note_printed file_path detected_encoding encoding.

(** What the loop leaves in the trace for the candidate that ended it. *)
Definition note_events (file_path : str) (detected_encoding : option str)
    (encoding : str) : list event :=
  match note_of file_path detected_encoding encoding with
  | Some note => [Printed note]
  | None => []
  end.

Definition detection_events (file_path : str) (raw_data : bytes) : list event :=
  match detect raw_data with
  | Unavailable => []
  | _ => [OpenBinary file_path; Detect raw_data]
  end.

(** The outer [try] turns what a [print] raises into [IOError]: at once for
    the notice of a PDF, through [except Exception as e: raise IOError(...)]
    of the last read for the warning. *)
Definition read_file_content (fs : str → option entry) (file_path : str)
  : outcome * list event :=
  match fs file_path with
  | None => (RaiseFileNotFoundError, [])
  | Some Directory => (RaiseIOError, [OpenBinary file_path])
  | Some (File data) =>
      let header := take 10 data in
      if starts_with pdf_magic header then
        if printable (PdfDetected file_path) then
          (Return (pdf_document file_path (Z.of_nat (length data))),
           [OpenBinary file_path; Printed (PdfDetected file_path)])
        else (RaiseIOError, [OpenBinary file_path])
      else
        let raw_data := take (Z.to_nat 10000) data in
        let d := detect raw_data in
        let detected_encoding := accepted_encoding d in
        let '(r, tr) :=
          try_encodings file_path data detected_encoding (candidates d) in
        let before := OpenBinary file_path :: detection_events file_path raw_data in
        match r with
        | Some text => (Return text, before ++ tr)
        | None =>
            if printable (InvalidUtf8 file_path) then
              (Return (decode_replace data),
               before ++ tr ++ [OpenText file_path (lit "utf-8") true;
                                Printed (InvalidUtf8 file_path)])
            else
              (RaiseIOError,
               before ++ tr ++ [OpenText file_path (lit "utf-8") true])
        end
  end.

End EncodingResolver.

(** ** Relocation under [base_dir] in [process_file_input] *)

(** [os.path.join] of two components (POSIX). *)
Definition path_join (a b : str) : str :=
  if starts_with [ "/"%char ] b then b
  else if negb (truthy a) || ends_with [ "/"%char ] a then a ++ b
  else a ++ "/"%char :: b.

(** The proper prefixes of a path that stop before a slash, shortest first:
    the ancestors [os.makedirs] creates on the way. *)
Fixpoint ancestors (seen_rev : str) (rest : str) : list str :=
  match rest with
  | [] => []
  | c :: r =>
      (if is_slash c && truthy seen_rev then [rev seen_rev] else [])
      ++ ancestors (c :: seen_rev) r
  end.

(** [os.makedirs(path, exist_ok=True)] on the set of existing directories. *)
Definition makedirs (path : str) (dirs : gset str) : gset str :=
  dirs ∪ list_to_set (ancestors [] path) ∪ {[path]}.

Definition sentinel_names : list str := [lit "deepcode_lab"; lit "agent_folders"].

(** The block [if base_dir and paper_dir: ...]: the new [paper_dir] and the
    directories that exist afterwards. *)
Definition relocate_paper_dir (base_dir paper_dir : option str) (dirs : gset str)
  : option str * gset str :=
  match base_dir, paper_dir with
  | Some b, Some p =>
      if truthy b && truthy p then
        let p' :=
          if existsb (λ suffix, ends_with suffix p) sentinel_names
          then b
          else
            let paper_name := basename p in
            path_join (path_join b (lit "papers")) paper_name in
        (Some p', makedirs p' dirs)
      else (paper_dir, dirs)
  | _, _ => (paper_dir, dirs)
  end.

(** ** The shape of the store while [_organize_sections] runs

    These definitions describe the store, they do not run: the shape of a
    tree of references, what it means for the store to hold it, and the open
    path from the last root down to the top of the stack. *)

#[local] Unset Elimination Schemes.
Inductive atree := ANode (r : ref) (kids : list atree).
#[local] Set Elimination Schemes.

Definition aroot (t : atree) : ref := match t with ANode r _ => r end.

Fixpoint arefs (t : atree) : list ref :=
  match t with ANode r kids => r :: flat_map arefs kids end.

(** The store holds the tree [t]: each node's [subsections] list is the list
    of its children's references. *)
Fixpoint repr (h : heap) (t : atree) : Prop :=
  match t with
  | ANode r kids =>
      (∃ s, h !! r = Some s ∧ subsections s = map aroot kids)
      ∧ foldr (λ k P, repr h k ∧ P) True kids
  end.

Definition payload_at (h : heap) (r : ref) : Z * str * str :=
  match h !! r with
  | Some s => payload s
  | None => (0, [], [])
  end.

Fixpoint to_tree (h : heap) (t : atree) : Tree :=
  match t with
  | ANode r kids =>
      let '(l, ti, co) := payload_at h r in
      Node l ti co (map (to_tree h) kids)
  end.

(** The stack of open sections, top first, each with the children it has
    already closed. *)
Abbreviation spine := (list (nat * list atree)) (only parsing).

Fixpoint spine_refs (sp : spine) : list ref :=
  match sp with
  | [] => []
  | (r, kids) :: below => spine_refs below ++ r :: flat_map arefs kids
  end.

(** [above] is the open child of the first entry, if there is one. *)
Fixpoint spine_ok (h : heap) (above : list ref) (sp : spine) : Prop :=
  match sp with
  | [] => True
  | (r, kids) :: below =>
      (∃ s, h !! r = Some s ∧ subsections s = map aroot kids ++ above)
      ∧ Forall (repr h) kids
      ∧ spine_ok h [r] below
  end.

Definition bottom (sp : spine) : list ref :=
  match last sp with
  | Some (r, _) => [r]
  | None => []
  end.

(** The state [(h, result, map fst sp)] of the loop holds the closed roots
    [closed] and the open path [sp], and [refs] lists their references in
    pre-order. *)
Record abs (h : heap) (result : list ref) (closed : list atree) (sp : spine)
    (refs : list ref) : Prop := mkAbs {
  abs_spine : spine_ok h [] sp;
  abs_closed : Forall (repr h) closed;
  abs_result : result = map aroot closed ++ bottom sp;
  abs_refs : flat_map arefs closed ++ spine_refs sp = refs
}.

(** Every edge of the store goes to a strictly deeper section. *)
Definition edges_deeper (h : heap) : Prop :=
  ∀ p s c, h !! p = Some s → c ∈ subsections s →
    ∃ sc, h !! c = Some sc ∧ level s < level sc.

(** ** Heading lines of a text *)

(** What a line contributes to the flat sequence: the level and title of the
    section it opens. *)
Definition line_heading (line : str) : option (Z * str) :=
  '(k, g) ← header_match line; Some (Z.of_nat k, strip g).

Definition heading_lines (lines : list str) : list (Z * str) :=
  omap line_heading lines.

(** The (level, title) pairs the scan has produced so far, the open section
    last. *)
Definition scan_headings (st : scan_state) : list (Z * str) :=
  map (λ s, (level s, title s)) (sections st)
  ++ match current_section st with Some cur => [cur] | None => [] end.

Definition no_newline (s : str) : Prop := Forall (λ c, is_nl c = false) s.

(** A section the renderer writes so that the scanner reads it back: the
    title is not empty and no line of the content is a heading line. *)
Definition plain_section (p : Z * str * str) : bool :=
  truthy p.1.2 && forallb (λ line, negb (is_heading line)) (split_nl p.2).

(** What the scanner guarantees of the sections it creates. *)
Definition scanned (l : Z) (ti : str) : Prop :=
  1 <= l <= 6 ∧ no_newline ti ∧ strip ti = ti.

Definition scanned_section (s : section_dict) : Prop :=
  scanned (level s) (title s) ∧ strip (content s) = content s
  ∧ subsections s = [].

Definition scanned_payload (p : Z * str * str) : Prop :=
  scanned p.1.1 p.1.2 ∧ strip p.2 = p.2.

(** ** Invariants and auxiliary notions of the proofs *)

(** The loop of [_organize_sections] after [i] sections of the flat sequence
    [flat]: the store holds the closed roots and the open path, their
    references are [0 .. i-1] in pre-order, the sections not yet met have no
    subsections, every edge goes deeper, and levels, titles and contents are
    those of [flat]. *)
Definition organize_inv (flat : list section_dict) (i : nat) (h : heap)
    (result : list ref) (sp : spine) : Prop :=
  (∃ closed, abs h result closed sp (seq 0 i))
  ∧ length h = length flat
  ∧ (∀ j, (i ≤ j < length flat)%nat → ∃ s, h !! j = Some s ∧ subsections s = [])
  ∧ edges_deeper h
  ∧ (∀ x, payload_at h x = payload_at flat x).

Definition scan_state_ok (st : scan_state) : Prop :=
  Forall scanned_section (sections st)
  ∧ match current_section st with
    | Some cur => scanned cur.1 cur.2
    | None => True
    end.

(** The (level, title) pairs of the heading lines of a text. *)
Definition HL (s : str) : list (Z * str) := heading_lines (split_nl s).

(** The two optional pieces of [format_section_content]. *)
Definition content_part (co : str) : str :=
  match co with [] => [] | _ => nl :: strip co ++ [nl] end.

Definition rule_part (co : str) (subs : list Tree) : str :=
  match subs, co with
  | _ :: _, _ :: _ => nl :: rule_line ++ [nl]
  | _, _ => []
  end.

Definition renders_back (p : Z * str * str) : Prop :=
  scanned_payload p ∧ plain_section p = true.

(** A heading line followed by an indented line that looks like one. *)
Definition indented_heading : str := lit "# A" ++ nl :: lit " # B".

(** The binary64 value of the literal [0.69]. *)
Definition conf_069 : float := 0x1.6147ae147ae14p-1%float.

(** A line of the input that the strip of a section content cannot turn
    into a heading line. *)
Definition stays_plain (l : list ascii) : Prop :=
  is_heading l = false ∧ is_heading (lstrip l) = false.

(** A line of the input after which the round trip is safe: a heading line
    has a title that is not blank, another line is no heading line once its
    leading whitespace is gone. *)
Definition plain_input_line (l : str) : bool :=
  match header_match l with
  | Some (_, g) => truthy (strip g)
  | None => negb (is_heading (lstrip l))
  end.

Definition scan_plain_ok (st : scan_state) : Prop :=
  Forall (λ s, plain_section (payload s) = true) (sections st)
  ∧ match current_section st with
    | Some cur => truthy cur.2 = true
    | None => True
    end
  ∧ Forall no_newline (current_content st)
  ∧ Forall stays_plain (current_content st).

(** * Further definitions *)

(** ** Directory scan: [find_markdown_file] *)

Definition md_suffix : str := lit ".md".

(** [for file in os.listdir(directory): if file.endswith(".md"): return
    os.path.join(directory, file)] and the [return None] after the loop. *)
Fixpoint first_markdown (directory : str) (files : list str) : option str :=
  match files with
  | [] => None
  | file :: rest =>
      if ends_with md_suffix file then Some (path_join directory file)
      else first_markdown directory rest
  end.

(** [listdir d] is [os.listdir(d)] for a directory and [None] when
    [os.path.isdir(d)] is false. *)
Definition find_markdown_file (listdir : str → option (list str))
    (directory : str) : option str :=
  match listdir directory with
  | None => None
  | Some files => first_markdown directory files
  end.

Definition no_slash (s : str) : Prop := Forall (λ c, is_slash c = false) s.

Definition ends_with_sentinel (p : str) : bool :=
  existsb (λ suffix, ends_with suffix p) sentinel_names.

(** ** The parent rule *)

(** The last position before [j] whose level is strictly below [lvl]. *)
Fixpoint nearest_shallower (levels : list Z) (lvl : Z) (j : nat) : option nat :=
  match j with
  | O => None
  | S i =>
      match levels !! i with
      | Some l => if l <? lvl then Some i else nearest_shallower levels lvl i
      | None => nearest_shallower levels lvl i
      end
  end.

(** The parent a section should have by its position in the flat sequence:
    the nearest section before it that is strictly shallower. *)
Definition parent_of (levels : list Z) (j : nat) : option nat :=
  match levels !! j with
  | Some lvl => nearest_shallower levels lvl j
  | None => None
  end.

Definition children_of (levels : list Z) (p : option nat) (n : nat) : list nat :=
  List.filter (λ j, bool_decide (parent_of levels j = p)) (seq 0 n).

(** The loop of [_organize_sections] after [i] sections, against the parent
    rule. *)
Definition parent_inv (flat : list section_dict) (i : nat) (h : heap)
    (result : list ref) (section_stack : list ref) : Prop :=
  let levels := map level flat in
  length h = length flat
  ∧ (∀ x, level <$> h !! x = levels !! x)
  ∧ result = children_of levels None i
  ∧ (∀ p s, h !! p = Some s → subsections s = children_of levels (Some p) i)
  ∧ (∀ lvl, ∃ st, pop_stack h lvl section_stack = Some st
                  ∧ head st = nearest_shallower levels lvl i).

(** ** Rewriting titles and contents *)

(** A section with its title and content rewritten by [g], its level and its
    subsections kept. *)
Definition relabel_section (g : Z * str * str → str * str) (s : section_dict)
  : section_dict :=
  mkSection (level s) (g (payload s)).1 (g (payload s)).2 (subsections s).

Fixpoint relabel_tree (g : Z * str * str → str * str) (t : Tree) : Tree :=
  match t with
  | Node l ti co kids =>
      Node l (g (l, ti, co)).1 (g (l, ti, co)).2 (map (relabel_tree g) kids)
  end.

(** The state of the builder's loop over the rewritten store. *)
Definition relabel_state (g : Z * str * str → str * str)
    (st : heap * list ref * list ref) : heap * list ref * list ref :=
  (map (relabel_section g) st.1.1, st.1.2, st.2).

(** A tree without its contents: levels, titles and nesting. *)
Definition skeleton (t : Tree) : Tree := relabel_tree (λ p, (p.1.2, [])) t.

(** What the content of a section without subsections becomes when its
    rendering is parsed: the separator line is read as content. *)
Definition content_with_separator (co : str) : str :=
  match co with
  | [] => separator_line
  | _ => co ++ nl :: nl :: separator_line
  end.

(** ** Patterns of [re]: the fragment the file uses

    Literal characters, negated classes, [.] under [re.DOTALL], [\s],
    concatenation, the greedy and the lazy star, and capture groups. *)
Inductive regex :=
  | Eps
  | Chr (c : ascii)
  | NotOf (cs : list ascii)
  | AnyChar
  | Whitespace
  | Cat (r1 r2 : regex)
  | Star (r : regex)
  | StarLazy (r : regex)
  | Capture (r : regex).

(** A literal text. *)
Fixpoint chars (s : str) : regex :=
  match s with
  | [] => Eps
  | c :: r => Cat (Chr c) (chars r)
  end.

(** [r+] *)
Definition plus (r : regex) : regex := Cat r (Star r).

Definition one_char (p : ascii → bool) (s : str) : option str :=
  match s with
  | c :: r => if p c then Some r else None
  | [] => None
  end.

Definition not_of (cs : list ascii) (c : ascii) : bool :=
  negb (existsb (Ascii.eqb c) cs).

(** One more iteration of a starred pattern, then the star again; an
    iteration has to consume a character, which every starred pattern of the
    file does. *)
Definition shorter {R} (s : str) (next : str → list str → option R)
    (s' : str) (groups' : list str) : option R :=
  if (length s' <? length s)%nat then next s' groups' else None.

(** [r*]: one more iteration is tried before what follows the star. *)
Fixpoint iterate_greedy {R}
    (step : str → list str → (str → list str → option R) → option R)
    (k : str → list str → option R) (fuel : nat) (s : str)
    (groups : list str) : option R :=
  match fuel with
  | O => k s groups
  | S fuel' =>
      match step s groups (shorter s (iterate_greedy step k fuel')) with
      | Some x => Some x
      | None => k s groups
      end
  end.

(** [r*?]: what follows the star is tried before one more iteration. *)
Fixpoint iterate_lazy {R}
    (step : str → list str → (str → list str → option R) → option R)
    (k : str → list str → option R) (fuel : nat) (s : str)
    (groups : list str) : option R :=
  match k s groups with
  | Some x => Some x
  | None =>
      match fuel with
      | O => None
      | S fuel' => step s groups (shorter s (iterate_lazy step k fuel'))
      end
  end.

(** The backtracking matcher, in the order [re] tries the alternatives: [k]
    is what remains to be matched after [r], it receives the rest of the
    text and the groups closed so far. *)
Fixpoint run {R} (r : regex) (s : str) (groups : list str)
    (k : str → list str → option R) {struct r} : option R :=
  match r with
  | Eps => k s groups
  | Chr c => s' ← one_char (Ascii.eqb c) s; k s' groups
  | NotOf cs => s' ← one_char (not_of cs) s; k s' groups
  | AnyChar => s' ← one_char (λ _, true) s; k s' groups
  | Whitespace => s' ← one_char is_space s; k s' groups
  | Cat r1 r2 => run r1 s groups (λ s' groups', run r2 s' groups' k)
  | Star r1 => iterate_greedy (run r1) k (length s) s groups
  | StarLazy r1 => iterate_lazy (run r1) k (length s) s groups
  | Capture r1 =>
      run r1 s groups
        (λ s' groups', k s' (groups' ++ [take (length s - length s') s]))
  end.

(** [pattern.match(text)]: the text left after the match and the groups. *)
Definition match_at (r : regex) (s : str) : option (str * list str) :=
  run r s [] (λ s' groups, Some (s', groups)).

(** [re.search(pattern, text)]: the first position where the pattern
    matches; the groups of the match there. *)
Fixpoint search (r : regex) (s : str) : option (list str) :=
  match match_at r s with
  | Some (_, groups) => Some groups
  | None =>
      match s with
      | [] => None
      | _ :: s' => search r s'
      end
  end.

(** [re.findall(pattern, text)] for a pattern with one group that matches
    no empty text: the group of each match, the search going on where the
    match before ended. *)
Fixpoint findall_from (fuel : nat) (r : regex) (s : str) : list str :=
  match fuel with
  | O => []
  | S fuel' =>
      match match_at r s with
      | Some (s', groups) =>
          if (length s' <? length s)%nat
          then hd [] groups :: findall_from fuel' r s'
          else match s with [] => [] | _ :: t => findall_from fuel' r t end
      | None =>
          match s with
          | [] => []
          | _ :: t => findall_from fuel' r t
          end
      end
  end.

Definition findall (r : regex) (s : str) : list str :=
  findall_from (S (length s)) r s.

Definition backtick : ascii := "`"%char.
Definition lbrace : ascii := "{"%char.
Definition rbrace : ascii := "}"%char.

(** The pattern of [process_file_input]: a backtick, the group
    [[^`]+\.md], a backtick. *)
Definition md_path_pattern : regex :=
  Cat (Chr backtick)
    (Cat (Capture (Cat (plus (NotOf [backtick])) (chars (lit ".md"))))
       (Chr backtick)).

(** The first pattern of [extract_json_from_text], with [re.DOTALL]: three
    backticks and [json], [\s*], the group [\{.*?\}], [\s*], three
    backticks. *)
Definition fenced_json_pattern : regex :=
  Cat (chars (lit "```json"))
    (Cat (Star Whitespace)
       (Cat (Capture (Cat (Chr lbrace) (Cat (StarLazy AnyChar) (Chr rbrace))))
          (Cat (Star Whitespace) (chars (lit "```"))))).

(** The second pattern of [extract_json_from_text]: one group, an opening
    brace, [N], any number of [\{ N \} N], a closing brace, where [N] is
    [[^{}]*]. *)
Definition standalone_json_pattern : regex :=
  Capture
    (Cat (Chr lbrace)
       (Cat (Star (NotOf [lbrace; rbrace]))
          (Cat (Star (Cat (Chr lbrace)
                        (Cat (Star (NotOf [lbrace; rbrace]))
                           (Cat (Chr rbrace) (Star (NotOf [lbrace; rbrace]))))))
             (Chr rbrace)))).

(** What a pattern matches: [denotes r u groups] when [r] matches the text
    [u] and closes the groups [groups] on the way. *)
Inductive denotes : regex → str → list str → Prop :=
  | denotes_eps : denotes Eps [] []
  | denotes_chr c : denotes (Chr c) [c] []
  | denotes_not_of cs c : not_of cs c = true → denotes (NotOf cs) [c] []
  | denotes_any c : denotes AnyChar [c] []
  | denotes_space c : is_space c = true → denotes Whitespace [c] []
  | denotes_cat r1 r2 u v gu gv :
      denotes r1 u gu → denotes r2 v gv →
      denotes (Cat r1 r2) (u ++ v) (gu ++ gv)
  | denotes_star_nil r : denotes (Star r) [] []
  | denotes_star_cons r u v gu gv :
      u ≠ [] → denotes r u gu → denotes (Star r) v gv →
      denotes (Star r) (u ++ v) (gu ++ gv)
  | denotes_lazy_nil r : denotes (StarLazy r) [] []
  | denotes_lazy_cons r u v gu gv :
      u ≠ [] → denotes r u gu → denotes (StarLazy r) v gv →
      denotes (StarLazy r) (u ++ v) (gu ++ gv)
  | denotes_capture r u gu :
      denotes r u gu → denotes (Capture r) u (gu ++ [u]).

(** A successful step has matched a prefix that the pattern denotes and
    handed the rest to what follows. *)
Definition sound_step {R}
    (step : str → list str → (str → list str → option R) → option R)
    (r : regex) : Prop :=
  ∀ s groups k x, step s groups k = Some x →
    ∃ u s' gu, s = u ++ s' ∧ denotes r u gu ∧ k s' (groups ++ gu) = Some x.

(** A path between two backticks of [text]: no backtick inside, [.md] at
    its end and at least one character before that. *)
Definition quoted_md_path (text before path after : str) : Prop :=
  text = before ++ backtick :: path ++ backtick :: after
  ∧ (backtick ∉ path)
  ∧ ends_with md_suffix path = true
  ∧ (length md_suffix < length path)%nat.

(** ** Values: what [json.loads] returns *)

#[local] Unset Elimination Schemes.
Inductive pyvalue :=
  | PNone
  | PBool (b : bool)
  | PInt (n : Z)
  | PFloat (x : float)
  | PStr (s : str)
  | PList (items : list pyvalue)
  | PDict (items : list (str * pyvalue)).
#[local] Set Elimination Schemes.

(** [d.get(key)] on the items of a dict, whose keys are distinct. *)
Fixpoint dict_get (items : list (str * pyvalue)) (key : str) : option pyvalue :=
  match items with
  | [] => None
  | (k, v) :: rest => if bool_decide (k = key) then Some v else dict_get rest key
  end.

(** [key in d] *)
Definition has_key (items : list (str * pyvalue)) (key : str) : bool :=
  bool_decide (is_Some (dict_get items key)).

Definition paper_path_key : str := lit "paper_path".

(** ** Exceptions *)

(** The messages of the [ValueError]s of the file, by the place that raises
    them. *)
Inductive reason :=
  | NeitherPathNorJson (file_info : str)
  | NoPaperPath
  | InvalidInputFormat
  | CouldNotDetermineDir
  | NoMarkdownFile (directory : str)
  | MissingPaperPath
  | InvalidInput (file_input : str)
  | NoValidFilePath.

Inductive exn :=
  | ValueError (why : reason)
  | AttributeError
  | TypeError
  | RecursionError
  | FileNotFoundError
  | IOError
  | OtherError.      (* any other exception of the operating system interface *)

(** A call that returns or raises. *)
Inductive result (A : Type) :=
  | Ok (a : A)
  | Raise (e : exn).
Arguments Ok {A} a.
Arguments Raise {A} e.

#[global] Instance result_ret : MRet result := λ A a, Ok a.
#[global] Instance result_bind : MBind result :=
  λ A B f r, match r with Ok a => f a | Raise e => Raise e end.

(** What [json.loads] does with a text: it returns a value, it raises
    [JSONDecodeError], or it raises something that is no [JSONDecodeError],
    as it does with [RecursionError] on a text that is nested deeper than
    the interpreter allows. *)
Inductive loaded :=
  | Parsed (v : pyvalue)
  | NotJson
  | TooDeep.

(** ** [extract_json_from_text] *)

Section JsonFromText.

Variable json_loads : str → loaded.

(** The loop over the standalone matches: the first that parses to a dict
    with the key [paper_path]; [except json.JSONDecodeError: continue] lets
    any other exception through. *)
Fixpoint first_paper_json (matches : list str) : result (option pyvalue) :=
  match matches with
  | [] => Ok None
  | m :: rest =>
      match json_loads m with
      | Parsed (PDict items) =>
          if has_key items paper_path_key then Ok (Some (PDict items))
          else first_paper_json rest
      | Parsed _ | NotJson => first_paper_json rest
      | TooDeep => Raise RecursionError
      end
  end.

Definition extract_json_from_text (text : str) : result (option pyvalue) :=
  match search fenced_json_pattern text with
  | Some groups =>
      match json_loads (hd [] groups) with
      | Parsed v => Ok (Some v)
      | NotJson => first_paper_json (findall standalone_json_pattern text)
      | TooDeep => Raise RecursionError
      end
  | None => first_paper_json (findall standalone_json_pattern text)
  end.

End JsonFromText.

Definition is_brace (c : ascii) : bool :=
  Ascii.eqb c lbrace || Ascii.eqb c rbrace.

(** Braces that open and close without nesting: [inside] tells whether one
    is open. *)
Fixpoint flat_braces (inside : bool) (s : str) : bool :=
  match s with
  | [] => negb inside
  | c :: r =>
      if Ascii.eqb c lbrace then negb inside && flat_braces true r
      else if Ascii.eqb c rbrace then inside && flat_braces false r
      else flat_braces inside r
  end.

(** A text in braces whose inner braces do not nest: objects at most two
    deep. *)
Definition shallow_object (g : str) : Prop :=
  ∃ body, g = lbrace :: body ++ [rbrace] ∧ flat_braces false body = true.

(** A text in braces inside a fence: after three backticks, [json] and
    whitespace, and before whitespace and three backticks. *)
Definition fenced_object (before g after : str) : Prop :=
  (∃ inner, g = lbrace :: inner ++ [rbrace])
  ∧ (∃ t ws, before = t ++ lit "```json" ++ ws
             ∧ Forall (λ c, is_space c = true) ws)
  ∧ (∃ ws t, after = ws ++ lit "```" ++ t
             ∧ Forall (λ c, is_space c = true) ws).

(** ** Paths: [os.path] (POSIX) *)

Definition slash : ascii := "/"%char.

(** [os.path.isabs] *)
Definition isabs (p : str) : bool := starts_with [slash] p.

(** [os.path.dirname]: [head = p[:p.rfind("/") + 1]], without its trailing
    slashes unless it is made of slashes. *)
Definition dirname (p : str) : str :=
  let head := rev (drop_while (λ c, negb (is_slash c)) (rev p)) in
  if truthy head && negb (forallb is_slash head)
  then rev (drop_while is_slash (rev head))
  else head.

(** [path.split("/")] *)
Fixpoint split_slash (s : str) : list str :=
  match s with
  | [] => [[]]
  | c :: r =>
      if is_slash c then [] :: split_slash r
      else match split_slash r with
           | l :: ls => (c :: l) :: ls
           | [] => [[c]]
           end
  end.

(** ["/".join(comps)] *)
Fixpoint join_slash (comps : list str) : str :=
  match comps with
  | [] => []
  | [l] => l
  | l :: rest => l ++ slash :: join_slash rest
  end.

Definition dot : str := lit ".".
Definition dotdot : str := lit "..".

(** One turn of the loop of [os.path.normpath] over the components. *)
Definition normpath_step (initial_slashes : nat) (new_comps : list str)
    (comp : str) : list str :=
  if bool_decide (comp = []) || bool_decide (comp = dot) then new_comps
  else if negb (bool_decide (comp = dotdot))
          || (bool_decide (initial_slashes = 0%nat)
              && bool_decide (new_comps = []))
          || (negb (bool_decide (new_comps = []))
              && bool_decide (last new_comps = Some dotdot))
  then new_comps ++ [comp]
  else removelast new_comps.

(** [os.path.normpath] *)
Definition normpath (path : str) : str :=
  if negb (truthy path) then dot
  else
    let initial_slashes :=
      if starts_with [slash] path then
        if starts_with [slash; slash] path
           && negb (starts_with [slash; slash; slash] path)
        then 2%nat else 1%nat
      else 0%nat in
    let comps := fold_left (normpath_step initial_slashes) (split_slash path) [] in
    let path := replicate initial_slashes slash ++ join_slash comps in
    if truthy path then path else dot.

(** The suffixes of a document: [file_info.endswith((".md", ...))]. *)
Definition document_suffixes : list str :=
  [lit ".md"; lit ".pdf"; lit ".txt"; lit ".docx"; lit ".doc"; lit ".html";
   lit ".htm"].

Definition has_document_suffix (s : str) : bool :=
  existsb (λ suffix, ends_with suffix s) document_suffixes.

(** ** Values as Python reads them *)

(** [bool(v)] *)
Definition truth (v : pyvalue) : bool :=
  match v with
  | PNone => false
  | PBool b => b
  | PInt n => negb (n =? 0)
  | PFloat x => negb (x =? 0)%float
  | PStr s => truthy s
  | PList items => match items with [] => false | _ => true end
  | PDict items => match items with [] => false | _ => true end
  end.

(** [needle in s] for two strings. *)
Fixpoint contains_text (needle s : str) : bool :=
  starts_with needle s
  || match s with
     | [] => false
     | _ :: r => contains_text needle r
     end.

(** [try: ... except (AttributeError, TypeError) as e: raise
    ValueError(f"Invalid input format: {str(e)}")] *)
Definition invalid_format {A} (r : result A) : result A :=
  match r with
  | Raise AttributeError | Raise TypeError => Raise (ValueError InvalidInputFormat)
  | _ => r
  end.

(** ["paper_path" in v], after [v] has been found true. *)
Definition contains_key (v : pyvalue) (key : str) : result bool :=
  match v with
  | PDict items => Ok (has_key items key)
  | PStr s => Ok (contains_text key s)
  | PList items =>
      Ok (existsb (λ x, match x with
                        | PStr s => bool_decide (s = key)
                        | _ => false
                        end) items)
  | _ => Raise TypeError
  end.

(** [v.get(key)] *)
Definition get (v : pyvalue) (key : str) : result pyvalue :=
  match v with
  | PDict items => Ok (default PNone (dict_get items key))
  | _ => Raise AttributeError
  end.

(** [os.path.dirname(v)] *)
Definition dirname_of (v : pyvalue) : result str :=
  match v with
  | PStr s => Ok (dirname s)
  | _ => Raise TypeError
  end.

(** What [process_file_input] returns: the dict with the keys [paper_dir],
    [file_path], [sections] and [standardized_text]. *)
Record processed := mkProcessed {
  res_paper_dir : str;
  res_file_path : pyvalue;
  res_sections : list Tree;
  res_standardized_text : str
}.

(** ** [extract_file_path] and [process_file_input] *)

Section FileInput.

(** The collaborators.  [cwd] is [os.getcwd()]; [json_loads] is
    [json.loads]; [fs dirs p] is what the path [p] names once the
    directories [dirs] have been created, and [listdir dirs p] the entries
    of the directory [p] then; an integer in place of a path is taken by the
    operating system for a file descriptor: [exists_fd n] is
    [os.path.exists(n)] and [read_fd n] what [read_file_content(n)] returns,
    [None] when they raise; the last five are those of the encoding
    resolver.  Failures of the collaborators other than these are outside
    the model. *)
Variable cwd : str.
Variable json_loads : str → loaded.
Variable fs : gset str → str → option entry.
Variable listdir : gset str → str → list str.
Variable exists_fd : Z → option bool.
Variable read_fd : Z → option str.
Variable detect : bytes → detection.
Variable decode : str → bytes → option str.
Variable decode_replace : bytes → str.
Variable format_mb : Z → str.
Variable printable : message → bool.

(** [os.path.abspath] *)
Definition abspath (path : str) : str :=
  normpath (if isabs path then path else path_join cwd path).

(** The end of [extract_file_path], from [info_dict.get("paper_path")]
    on. *)
Definition paper_dir_of (info_dict : pyvalue) : result str :=
  paper_path ← get info_dict paper_path_key;
  if negb (truth paper_path) then Raise (ValueError NoPaperPath)
  else
    paper_dir ← dirname_of paper_path;
    Ok (if isabs paper_dir then paper_dir else abspath paper_dir).

(** [try: info_dict = json.loads(file_info) except json.JSONDecodeError:
    info_dict = FileProcessor.extract_json_from_text(file_info); if not
    info_dict: raise ValueError(...)]: what is no [JSONDecodeError] goes
    on. *)
Definition info_dict_of (file_info : str) : result pyvalue :=
  match json_loads file_info with
  | Parsed v => Ok v
  | NotJson =>
      info_dict ← extract_json_from_text json_loads file_info;
      match info_dict with
      | Some v =>
          if truth v then Ok v
          else Raise (ValueError (NeitherPathNorJson file_info))
      | None => Raise (ValueError (NeitherPathNorJson file_info))
      end
  | TooDeep => Raise RecursionError
  end.

Definition extract_file_path (dirs : gset str) (file_info : pyvalue)
  : result str :=
  invalid_format
    match file_info with
    | PStr s =>
        if has_document_suffix s then Ok (dirname (abspath s))
        else
          match fs dirs s with
          | Some (File _) => Ok (dirname (abspath s))
          | Some Directory => Ok (abspath s)
          | None =>
              info_dict ← info_dict_of s;
              paper_dir_of info_dict
          end
    | _ => paper_dir_of file_info
    end.

(** [os.path.exists(v)] *)
Definition path_exists (dirs : gset str) (v : pyvalue) : result bool :=
  match v with
  | PStr s => Ok (bool_decide (is_Some (fs dirs s)))
  | PInt n => from_option Ok (Raise OtherError) (exists_fd n)
  | PBool b =>
      from_option Ok (Raise OtherError) (exists_fd (if b then 1 else 0))
  | _ => Raise TypeError
  end.

(** [find_markdown_file] on the file system after [dirs] have been
    created. *)
Definition find_markdown (dirs : gset str) (directory : str) : option str :=
  find_markdown_file
    (λ d, match fs dirs d with
          | Some Directory => Some (listdir dirs d)
          | _ => None
          end)
    directory.

(** [file_path = find_markdown_file(directory); if not file_path: raise
    ValueError(f"No markdown file found in directory: {directory}")] *)
Definition markdown_or_raise (dirs : gset str) (directory : str)
  : result pyvalue :=
  match find_markdown dirs directory with
  | Some p => Ok (PStr p)
  | None => Raise (ValueError (NoMarkdownFile directory))
  end.

(** The block the three cases share: [if file_path and not
    os.path.exists(file_path): paper_dir = os.path.dirname(file_path); if
    os.path.isdir(paper_dir): ...].  The new [paper_dir] and [file_path]. *)
Definition resolve_missing (dirs : gset str) (paper_dir : str)
    (file_path : pyvalue) : result (str * pyvalue) :=
  if truth file_path then
    found ← path_exists dirs file_path;
    if found : bool then Ok (paper_dir, file_path)
    else
      paper_dir' ← dirname_of file_path;
      match fs dirs paper_dir' with
      | Some Directory =>
          file_path' ← markdown_or_raise dirs paper_dir';
          Ok (paper_dir', file_path')
      | _ => Ok (paper_dir', file_path)
      end
  else Ok (paper_dir, file_path).

(** The case [isinstance(file_input, str)] of "Get the actual file path". *)
Definition file_path_of_text (dirs : gset str) (paper_dir : str)
    (file_input : str) : result (str * pyvalue) :=
  match json_loads file_input with
  | Parsed parsed_json =>
      match parsed_json with
      | PDict items =>
          if has_key items paper_path_key then
            file_path ← get parsed_json paper_path_key;
            resolve_missing dirs paper_dir file_path
          else Raise (ValueError MissingPaperPath)
      | _ => Raise (ValueError MissingPaperPath)
      end
  | TooDeep => Raise RecursionError
  | NotJson =>
      extracted_json ← extract_json_from_text json_loads file_input;
      has_paper_path ←
        match extracted_json with
        | Some v => if truth v then contains_key v paper_path_key else Ok false
        | None => Ok false
        end;
      if has_paper_path : bool then
        file_path ← get (default PNone extracted_json) paper_path_key;
        resolve_missing dirs paper_dir file_path
      else if has_document_suffix file_input then
        match fs dirs file_input with
        | Some _ => Ok (paper_dir, PStr file_input)
        | None =>
            file_path ← markdown_or_raise dirs paper_dir;
            Ok (paper_dir, file_path)
        end
      else
        match fs dirs file_input with
        | Some (File _) => Ok (paper_dir, PStr file_input)
        | Some Directory =>
            file_path ← markdown_or_raise dirs file_input;
            Ok (paper_dir, file_path)
        | None => Raise (ValueError (InvalidInput file_input))
        end
  end.

(** The [paper_path] that "Get the actual file path" takes from the input,
    when it takes one: that of the dict, of the JSON the text is, or of the
    JSON found in the text. *)
Definition named_paper_path (file_input : pyvalue) : option pyvalue :=
  match file_input with
  | PDict items => dict_get items paper_path_key
  | PStr s =>
      match json_loads s with
      | Parsed (PDict items) => dict_get items paper_path_key
      | NotJson =>
          match extract_json_from_text json_loads s with
          | Ok (Some (PDict items)) => dict_get items paper_path_key
          | _ => None
          end
      | _ => None
      end
  | _ => None
  end.

(** [await cls.read_file_content(file_path)] *)
Definition read_content (dirs : gset str) (file_path : pyvalue) : result str :=
  match file_path with
  | PStr p =>
      match (read_file_content detect decode decode_replace format_mb
               printable (fs dirs) p).1 with
      | Return text => Ok text
      | RaiseFileNotFoundError => Raise FileNotFoundError
      | RaiseIOError => Raise IOError
      end
  | PInt n => from_option Ok (Raise OtherError) (read_fd n)
  | PBool b =>
      from_option Ok (Raise OtherError) (read_fd (if b then 1 else 0))
  | _ => Raise TypeError
  end.

(** [file_input] after the search for a path between backticks. *)
Definition quoted_path_first (file_input : pyvalue) : pyvalue :=
  match file_input with
  | PStr s =>
      match search md_path_pattern s with
      | Some groups => PDict [(paper_path_key, PStr (hd [] groups))]
      | None => file_input
      end
  | _ => file_input
  end.

(** The body of [process_file_input] from "Get the actual file path" on,
    with the directories [dirs] in place.  The parser returns on every
    text, so the default is never taken. *)
Definition locate_and_read (dirs : gset str) (paper_dir : str)
    (file_input : pyvalue) : result processed :=
  '(paper_dir, file_path) ←
    match file_input with
    | PStr s => file_path_of_text dirs paper_dir s
    | _ =>
        file_path ← get file_input paper_path_key;
        resolve_missing dirs paper_dir file_path
    end;
  if negb (truth file_path) then Raise (ValueError NoValidFilePath)
  else
    content ← read_content dirs file_path;
    let structured_content := default [] (parse_markdown_sections content) in
    Ok (mkProcessed paper_dir file_path structured_content
          (standardize_output structured_content)).

(** [process_file_input]: what it returns, or the exception its message
    quotes after "Error processing file input: ", and the directories that
    exist afterwards.  As in the relocation block, [os.makedirs] is taken to
    succeed. *)
Definition process_file_input (file_input : pyvalue) (base_dir : option str)
    (dirs : gset str) : result processed * gset str :=
  let file_input := quoted_path_first file_input in
  match extract_file_path dirs file_input with
  | Raise e => (Raise e, dirs)
  | Ok paper_dir =>
      let '(paper_dir, dirs) :=
        relocate_paper_dir base_dir (Some paper_dir) dirs in
      match paper_dir with
      | Some paper_dir =>
          if truthy paper_dir
          then (locate_and_read dirs paper_dir file_input, dirs)
          else (Raise (ValueError CouldNotDetermineDir), dirs)
      | None => (Raise (ValueError CouldNotDetermineDir), dirs)
      end
  end.

End FileInput.

(** A call that does not raise "Could not determine paper directory
    path". *)
Definition finds_directory {A} (r : result A) : Prop :=
  r ≠ Raise (ValueError CouldNotDetermineDir).

(** ** Siblings *)

(** No level is above the one before it. *)
Fixpoint never_increases (levels : list Z) : bool :=
  match levels with
  | a :: (b :: _) as rest => (b <=? a) && never_increases rest
  | _ => true
  end.

(** At every depth, the levels of the subsections of one section never
    increase from one subsection to the next. *)
Fixpoint siblings_ordered (t : Tree) : bool :=
  match t with
  | Node _ _ _ kids =>
      never_increases (map tree_level kids) && forallb siblings_ordered kids
  end.

(** The level at a position of the flat sequence. *)
Definition level_at (levels : list Z) (j : nat) : Z := default 0 (levels !! j).

(** ** The megabyte figure [f"{file_size/1024/1024:.2f}"] *)

(** [n / d] rounded to the nearest integer, ties to the even one: the
    rounding of binary64 arithmetic and of the [.2f] format. *)
Definition round_half_even (n d : Z) : Z :=
  let q := n / d in
  let r := n mod d in
  if 2 * r <? d then q
  else if d <? 2 * r then q + 1
  else if Z.even q then q else q + 1.

(** The binary64 number nearest to a size: the size itself up to 53 bits,
    beyond them the multiple of [2 ^ e] the hardware rounds to. *)
Definition to_binary64 (n : Z) : Z :=
  let e := Z.log2 n - 52 in
  if e <=? 0 then n else round_half_even n (2 ^ e) * 2 ^ e.

Definition decimal (k : Z) : str :=
  lit (NilEmpty.string_of_uint (N.to_uint (Z.to_N k))).

(** The hundredths of a megabyte the format prints.  [file_size / 1024] is
    the correctly rounded quotient of two integers, a division of a binary64
    number by 1024 is exact, and [.2f] rounds the exact value of its
    argument. *)
Definition mb_hundredths (n : Z) : Z :=
  round_half_even (to_binary64 n * 100) (2 ^ 20).

Definition mb_figure (n : Z) : str :=
  let hundredths := mb_hundredths n in
  decimal (hundredths / 100) ++ "."%char
    :: decimal (hundredths mod 100 / 10) ++ decimal (hundredths mod 10).

(** The character of a decimal digit. *)
Definition digit (k : Z) : ascii := ascii_of_N (48 + Z.to_N k).

(** The sections of the document returned for a PDF, as
    [parse_markdown_sections] reads them. *)
Definition pdf_sections (file_path : str) (file_size : Z) : list Tree :=
  [Node 1 (lit "PDF Document Detected")
     (join_nl
        [lit "**File**: " ++ basename file_path;
         lit "**Size**: " ++ format_commas file_size ++ lit " bytes ("
           ++ mb_figure file_size ++ lit " MB)";
         lit "**Type**: PDF Document"])
     [Node 2 (lit "Issue")
        (lit "This file is a PDF document that was incorrectly saved with a .md extension.")
        [];
      Node 2 (lit "Solutions")
        (join_nl
           [lit "1. **Rename the file**: Change the extension from .md to .pdf";
            lit "2. **Use a PDF reader**: Open the file with a PDF viewer";
            lit "3. **Convert to text**: Use a PDF-to-text converter"])
        [];
      Node 2 (lit "For DeepCode Processing")
        (join_nl
           [lit "To process this PDF with DeepCode:";
            lit "1. Rename the file to have a .pdf extension";
            lit "2. Upload it again - DeepCode will automatically extract and convert the content";
            [];
            lit "---";
            lit "*Auto-detected by DeepCode Encoding System*";
            lit "*Respecting your local development privacy preferences*"])
        []]].

(** * Properties *)

(** ** Hierarchy builder *)

(** *** Induction on trees *)

Lemma atree_ind (P : atree → Prop) :
  (∀ r kids, Forall P kids → P (ANode r kids)) → ∀ t, P t.
Proof.
  intros IH. fix rec 1. intros [r kids]. apply IH.
  induction kids as [|k kids IHk]; constructor; [apply rec | exact IHk].
Qed.

Lemma Tree_ind (P : Tree → Prop) :
  (∀ l ti co kids, Forall P kids → P (Node l ti co kids)) → ∀ t, P t.
Proof.
  intros IH. fix rec 1. intros [l ti co kids]. apply IH.
  induction kids as [|k kids IHk]; constructor; [apply rec | exact IHk].
Qed.

(** *** The store under a write *)

Lemma repr_unfold h r kids :
  repr h (ANode r kids) ↔
  (∃ s, h !! r = Some s ∧ subsections s = map aroot kids) ∧ Forall (repr h) kids.
Proof.
  simpl. assert (E : foldr (λ k P, repr h k ∧ P) True kids ↔ Forall (repr h) kids).
  { induction kids as [|k kids IH]; simpl.
    - split; auto.
    - rewrite Forall_cons, IH. tauto. }
  rewrite E. tauto.
Qed.

Lemma level_alter (h : heap) c p x :
  level <$> (alter (add_subsection c) p h !! x) = level <$> (h !! x).
Proof.
  destruct (decide (p = x)) as [->|Hne].
  - rewrite list_lookup_alter_eq. by destruct (h !! x).
  - by rewrite list_lookup_alter_ne.
Qed.

Lemma payload_alter (h : heap) c p x :
  payload_at (alter (add_subsection c) p h) x = payload_at h x.
Proof.
  unfold payload_at. destruct (decide (p = x)) as [->|Hne].
  - rewrite list_lookup_alter_eq. by destruct (h !! x).
  - by rewrite list_lookup_alter_ne.
Qed.

(** Frame: a tree that does not mention [p] is untouched by a write at [p]. *)
Lemma repr_frame h f p t :
  p ∉ arefs t → repr h t → repr (alter f p h) t.
Proof.
  induction t as [r kids IH] using atree_ind. intros Hp.
  rewrite !repr_unfold. intros [(s & Hs & Hsub) Hk]. simpl in Hp.
  apply not_elem_of_cons in Hp as [Hr Hp]. split.
  - exists s. by rewrite list_lookup_alter_ne.
  - clear Hs Hsub. induction Hk as [|k kids Hk Hks IHk]; [constructor|].
    apply Forall_cons in IH as [IH1 IH2]. simpl in Hp.
    apply not_elem_of_app in Hp as [Hp1 Hp2].
    constructor; auto.
Qed.

Lemma Forall_repr_frame h f p ts :
  p ∉ flat_map arefs ts → Forall (repr h) ts → Forall (repr (alter f p h)) ts.
Proof.
  induction 2 as [|t ts Ht Hts IH]; [constructor|]. simpl in H.
  apply not_elem_of_app in H as [H1 H2].
  constructor; [by apply repr_frame | auto].
Qed.

Lemma spine_ok_frame h f p above sp :
  p ∉ spine_refs sp → spine_ok h above sp → spine_ok (alter f p h) above sp.
Proof.
  revert above. induction sp as [|[r kids] below IH]; intros above; [done|].
  simpl. intros Hp ((s & Hs & Hsub) & Hk & Hb).
  apply not_elem_of_app in Hp as [Hp1 Hp2].
  apply not_elem_of_cons in Hp2 as [Hp2 Hp3].
  split; [|split].
  - exists s. by rewrite list_lookup_alter_ne.
  - by apply Forall_repr_frame.
  - by apply IH.
Qed.

(** *** Closing open sections *)

Lemma bottom_cons2 (e e' : ref * list atree) sp : bottom (e :: e' :: sp) = bottom (e' :: sp).
Proof. unfold bottom. by rewrite !last_cons_cons. Qed.

Lemma bottom_same_refs sp sp' : map fst sp = map fst sp' → bottom sp = bottom sp'.
Proof.
  revert sp'. induction sp as [|[r K] sp IH]; intros [|[r' K'] sp'] E; try done.
  simpl in E. injection E as -> E.
  destruct sp as [|e sp], sp' as [|e' sp']; try done.
  rewrite !bottom_cons2. by apply IH.
Qed.

(** Closing the top of the stack: the store is unchanged, the popped section
    becomes a closed child of the new top, or a closed root. *)
Lemma abs_close h result closed r kids below refs :
  abs h result closed ((r, kids) :: below) refs →
  ∃ closed' sp', map fst sp' = map fst below ∧ abs h result closed' sp' refs.
Proof.
  intros [Hsp Hcl Hres Hrefs]. simpl in Hsp. destruct Hsp as (Hr & Hk & Hb).
  assert (Hnode : repr h (ANode r kids)).
  { apply repr_unfold. split; [|done]. destruct Hr as (s & ? & Hs).
    exists s. by rewrite app_nil_r in Hs. }
  destruct below as [|[r' kids'] below'].
  - exists (closed ++ [ANode r kids]), []. split; [done|]. split.
    + done.
    + apply Forall_app. split; [done | by constructor].
    + rewrite Hres, map_app. simpl. by rewrite app_nil_r.
    + rewrite <- Hrefs, flat_map_app. simpl. by rewrite !app_nil_r.
  - exists closed, ((r', kids' ++ [ANode r kids]) :: below'). split; [done|]. split.
    + simpl in Hb |- *. destruct Hb as ((s & Hs & Hsub) & Hk' & Hb').
      split; [|split; [|done]].
      * exists s. split; [done|]. by rewrite map_app, app_nil_r.
      * apply Forall_app. split; [done | by constructor].
    + done.
    + rewrite Hres. f_equal. destruct below'; done.
    + rewrite <- Hrefs. f_equal. simpl. rewrite flat_map_app. simpl.
      rewrite app_nil_r. rewrite <- !app_assoc. simpl. done.
Qed.

Lemma abs_close_all h result closed sp refs :
  abs h result closed sp refs → ∃ closed', abs h result closed' [] refs.
Proof.
  remember (length sp) as n eqn:Hn. revert closed sp Hn.
  induction n as [|n IH]; intros closed sp Hn Habs.
  - destruct sp; [|done]. by exists closed.
  - destruct sp as [|[r kids] below]; [done|].
    apply abs_close in Habs as (closed' & sp' & E & Habs).
    apply (IH closed' sp'); [|done].
    simpl in Hn. apply (f_equal length) in E. rewrite !length_map in E. lia.
Qed.

(** The [while] loop: it closes sections and stops below a strictly
    shallower one. *)
Lemma pop_stack_abs h lvl result closed sp refs :
  abs h result closed sp refs →
  ∃ closed' sp',
    pop_stack h lvl (map fst sp) = Some (map fst sp')
    ∧ abs h result closed' sp' refs
    ∧ match sp' with
      | [] => True
      | (r, _) :: _ => ∃ s, h !! r = Some s ∧ level s < lvl
      end.
Proof.
  remember (length sp) as n eqn:Hn. revert closed sp Hn.
  induction n as [|n IH]; intros closed sp Hn Habs.
  - destruct sp; [|done]. by exists closed, [].
  - destruct sp as [|[r kids] below]; [done|].
    pose proof Habs as [Hsp _ _ _]. simpl in Hsp.
    destruct Hsp as ((s & Hs & _) & _ & _).
    simpl. rewrite Hs. simpl. destruct (lvl <=? level s) eqn:Hle.
    + apply abs_close in Habs as (closed' & sp' & E & Habs).
      rewrite <- E. apply (IH closed' sp'); [|done].
      simpl in Hn. apply (f_equal length) in E. rewrite !length_map in E. lia.
    + exists closed, ((r, kids) :: below). split; [done|]. split; [done|].
      exists s. split; [done|]. lia.
Qed.

(** *** The loop *)

Lemma lookup_alter_level (h : heap) c p x sc :
  h !! x = Some sc →
  ∃ sc', alter (add_subsection c) p h !! x = Some sc' ∧ level sc' = level sc.
Proof.
  intros Hx. pose proof (level_alter h c p x) as E. rewrite Hx in E.
  destruct (alter _ p h !! x) as [sc'|]; [|done]. exists sc'. split; [done|].
  simpl in E. congruence.
Qed.

Lemma organize_inv_init flat : is_flat flat → organize_inv flat 0 flat [] [].
Proof.
  intros Hflat. split; [|split; [|split; [|split]]]; try done.
  - exists []. by split.
  - intros j [_ Hj]. apply lookup_lt_is_Some_2 in Hj as [s Hs]. exists s.
    split; [done|]. unfold is_flat in Hflat. rewrite Forall_lookup in Hflat. eauto.
  - intros p s c Hs Hc. unfold is_flat in Hflat. rewrite Forall_lookup in Hflat.
    rewrite (Hflat _ _ Hs) in Hc. by apply elem_of_nil in Hc.
Qed.

Lemma organize_step_inv flat i h result sp :
  organize_inv flat i h result sp → (i < length flat)%nat →
  ∃ h' result' sp',
    organize_step (h, result, map fst sp) i = Some (h', result', map fst sp')
    ∧ organize_inv flat (S i) h' result' sp'.
Proof.
  intros ((closed & Habs) & Hlen & Hfresh & Hedges & Hpay) Hi.
  destruct (Hfresh i) as (sec & Hsec & Hnosub); [lia|].
  destruct (pop_stack_abs h (level sec) _ _ _ _ Habs)
    as (closed' & sp' & Hpop & [Hsp Hcl Hres Hrefs] & Htop).
  unfold organize_step. rewrite Hsec. simpl. rewrite Hpop. simpl.
  destruct sp' as [|[top kids] below]; simpl.
  - exists h, (result ++ [i]), [(i, [])]. split; [done|].
    split; [|split; [|split; [|split]]]; try done.
    + exists closed'. split.
      * simpl. split; [|done]. exists sec. by rewrite Hnosub.
      * done.
      * rewrite Hres. simpl. by rewrite app_nil_r.
      * rewrite seq_S, <- Hrefs. simpl. by rewrite app_nil_r.
    + intros j Hj. apply Hfresh. lia.
  - destruct Htop as (st & Hst & Hlt). rewrite Hst. simpl.
    exists (alter (add_subsection i) top h), result,
      ((i, []) :: (top, kids) :: below).
    split; [done|].
    assert (Hnd : NoDup (flat_map arefs closed' ++ spine_refs below
                          ++ top :: flat_map arefs kids)).
    { simpl in Hrefs. rewrite Hrefs. apply NoDup_seq. }
    assert (Htopi : (top < i)%nat).
    { assert (Hin : top ∈ seq 0 i).
      { rewrite <- Hrefs. simpl. rewrite !elem_of_app. right. right. apply elem_of_cons. by left. }
      apply elem_of_seq in Hin. lia. }
    apply NoDup_app in Hnd as (_ & Hd1 & Hnd).
    apply NoDup_app in Hnd as (_ & Hd2 & Hnd).
    apply NoDup_cons in Hnd as (Hd3 & _).
    assert (Hn1 : top ∉ flat_map arefs closed').
    { intros Hin. apply (Hd1 _ Hin). rewrite elem_of_app. right. apply elem_of_cons. by left. }
    assert (Hn2 : top ∉ spine_refs below).
    { intros Hin. apply (Hd2 _ Hin). apply elem_of_cons. by left. }
    simpl in Hsp. destruct Hsp as ((st' & Hst' & Hsub) & Hk & Hb).
    rewrite Hst in Hst'. injection Hst' as <-. rewrite app_nil_r in Hsub.
    split; [|split; [|split; [|split]]].
    + exists closed'. split.
      * simpl. split; [|split; [done|split; [|split]]].
        -- exists sec. rewrite list_lookup_alter_ne by lia. by rewrite Hnosub.
        -- exists (add_subsection i st). rewrite list_lookup_alter_eq, Hst.
           split; [done|]. simpl. by rewrite Hsub.
        -- by apply Forall_repr_frame.
        -- by apply spine_ok_frame.
      * by apply Forall_repr_frame.
      * rewrite Hres. by rewrite bottom_cons2.
      * change (spine_refs ((i, []) :: (top, kids) :: below))
          with (spine_refs ((top, kids) :: below) ++ [i]).
        by rewrite app_assoc, Hrefs, seq_S.
    + by rewrite length_alter.
    + intros j Hj. rewrite list_lookup_alter_ne by lia. apply Hfresh. lia.
    + intros p s c Hs Hc.
      destruct (decide (top = p)) as [<-|Hne].
      * rewrite list_lookup_alter_eq, Hst in Hs. injection Hs as <-.
        simpl in Hc |- *. apply elem_of_app in Hc as [Hc|Hc].
        -- destruct (Hedges _ _ _ Hst Hc) as (sc & Hsc & Hl).
           destruct (lookup_alter_level h i top c sc Hsc) as (sc' & ? & El).
           exists sc'. split; [done|]. lia.
        -- apply list_elem_of_singleton in Hc as ->. exists sec.
           rewrite list_lookup_alter_ne by lia. done.
      * rewrite list_lookup_alter_ne in Hs by done.
        destruct (Hedges _ _ _ Hs Hc) as (sc & Hsc & Hl).
        destruct (lookup_alter_level h i top c sc Hsc) as (sc' & ? & El).
        exists sc'. split; [done|]. lia.
    + intros x. by rewrite payload_alter.
Qed.

Lemma organize_loop_inv flat k : ∀ i h result sp,
  organize_inv flat i h result sp → (i + k = length flat)%nat →
  ∃ h' result' sp',
    organize_loop (h, result, map fst sp) (seq i k) = Some (h', result', map fst sp')
    ∧ organize_inv flat (length flat) h' result' sp'.
Proof.
  induction k as [|k IH]; intros i h result sp Hinv Hk.
  - exists h, result, sp. split; [done|]. by replace (length flat) with i by lia.
  - destruct (organize_step_inv _ _ _ _ _ Hinv) as (h1 & r1 & sp1 & Hstep & Hinv1); [lia|].
    destruct (IH (S i) h1 r1 sp1 Hinv1) as (h2 & r2 & sp2 & Hloop & Hinv2); [lia|].
    exists h2, r2, sp2. split; [|done].
    change (seq i (S k)) with (i :: seq (S i) k). cbn [organize_loop].
    by rewrite Hstep.
Qed.

(** What [_organize_sections] leaves in the store for a flat sequence. *)
Lemma organize_flat flat :
  is_flat flat →
  ∃ h closed,
    _organize_sections flat (seq 0 (length flat)) = Some (h, map aroot closed)
    ∧ Forall (repr h) closed
    ∧ flat_map arefs closed = seq 0 (length flat)
    ∧ length h = length flat
    ∧ edges_deeper h
    ∧ (∀ x, payload_at h x = payload_at flat x).
Proof.
  intros Hflat.
  destruct (organize_loop_inv flat (length flat) 0 flat [] [] (organize_inv_init _ Hflat))
    as (h & result & sp & Hloop & (closed & Habs) & Hlen & _ & Hedges & Hpay); [lia|].
  apply abs_close_all in Habs as (closed' & [_ Hcl Hres Hrefs]).
  exists h, closed'. unfold _organize_sections. simpl in Hloop. rewrite Hloop. simpl.
  simpl in Hres, Hrefs. rewrite app_nil_r in Hres, Hrefs. by subst result.
Qed.

(** *** Reading the tree out of the store *)

Lemma length_arefs_pos t : (1 ≤ length (arefs t))%nat.
Proof. destruct t. simpl. lia. Qed.

Lemma to_tree_unfold h r kids s :
  h !! r = Some s →
  to_tree h (ANode r kids)
  = Node (level s) (title s) (content s) (map (to_tree h) kids).
Proof. intros Hs. simpl. unfold payload_at. by rewrite Hs. Qed.

(** With fuel for every node of the tree, the walk returns the tree. *)
Lemma view_repr h t :
  repr h t → ∀ fuel, (length (arefs t) ≤ fuel)%nat →
  view fuel h (aroot t) = Some (to_tree h t).
Proof.
  induction t as [r kids IH] using atree_ind. rewrite repr_unfold.
  intros [(s & Hs & Hsub) Hk] fuel Hfuel.
  destruct fuel as [|fuel]; [simpl in Hfuel; lia|].
  rewrite (to_tree_unfold _ _ _ _ Hs). cbn [view aroot]. rewrite Hs. cbn.
  rewrite Hsub.
  assert (E : mapM (view fuel h) (map aroot kids) = Some (map (to_tree h) kids)).
  { apply mapM_Some_2. simpl in Hfuel. apply le_S_n in Hfuel.
    clear Hs Hsub. induction kids as [|k kids IHk]; [constructor|].
    apply Forall_cons in IH as [IH1 IH2]. apply Forall_cons in Hk as [Hk1 Hk2].
    simpl in Hfuel. rewrite length_app in Hfuel.
    constructor; [apply IH1; [done|lia] | apply IHk; [done|done|lia]]. }
  by rewrite E.
Qed.

Lemma forest_repr h ts :
  Forall (repr h) ts → (length (flat_map arefs ts) ≤ length h)%nat →
  forest h (map aroot ts) = Some (map (to_tree h) ts).
Proof.
  intros Hts Hlen. unfold forest. apply mapM_Some_2.
  induction Hts as [|t ts Ht Hts IH]; [constructor|].
  simpl in Hlen. rewrite length_app in Hlen.
  constructor; [apply view_repr; [done|lia] | apply IH; lia].
Qed.

Lemma preorder_to_tree h t :
  preorder (to_tree h t) = map (payload_at h) (arefs t).
Proof.
  induction t as [r kids IH] using atree_ind. simpl.
  destruct (payload_at h r) as [[l ti] co]. simpl. f_equal.
  induction kids as [|k kids IHk]; [done|].
  apply Forall_cons in IH as [IH1 IH2]. simpl. rewrite map_app, IH1.
  f_equal. by apply IHk.
Qed.

Lemma preorder_forest h ts :
  flat_map preorder (map (to_tree h) ts) = map (payload_at h) (flat_map arefs ts).
Proof.
  induction ts as [|t ts IH]; [done|]. simpl.
  by rewrite map_app, preorder_to_tree, IH.
Qed.

Lemma payload_at_seq (flat : list section_dict) :
  map (payload_at flat) (seq 0 (length flat)) = map payload flat.
Proof.
  induction flat as [|s flat IH] using rev_ind; [done|].
  rewrite length_app. simpl. rewrite Nat.add_1_r, seq_S, !map_app. simpl.
  f_equal.
  - rewrite <- IH. apply map_ext_in. intros j Hj. apply in_seq in Hj.
    unfold payload_at. rewrite lookup_app_l by lia. done.
  - unfold payload_at. rewrite lookup_app_r by lia.
    by rewrite Nat.sub_diag.
Qed.

Lemma tree_level_to_tree h t s :
  h !! aroot t = Some s → tree_level (to_tree h t) = level s.
Proof. destruct t as [r kids]. simpl. unfold payload_at. by intros ->. Qed.

Lemma levels_nested_to_tree h t :
  edges_deeper h → repr h t → levels_nested (to_tree h t) = true.
Proof.
  intros Hedges. induction t as [r kids IH] using atree_ind.
  rewrite repr_unfold. intros [(s & Hs & Hsub) Hk].
  rewrite (to_tree_unfold _ _ _ _ Hs). cbn [levels_nested].
  assert (Hedge : ∀ k, k ∈ kids → ∃ sc, h !! aroot k = Some sc ∧ level s < level sc).
  { intros k Hin. apply (Hedges r s); [done|]. rewrite Hsub.
    apply list_elem_of_In, in_map, list_elem_of_In, Hin. }
  clear Hs Hsub. induction kids as [|k kids IHk]; [done|].
  apply Forall_cons in IH as [IH1 IH2]. apply Forall_cons in Hk as [Hk1 Hk2].
  simpl. destruct (Hedge k) as (sc & Hsc & Hlt); [apply elem_of_cons; by left|].
  rewrite (tree_level_to_tree _ _ _ Hsc), IH1 by done.
  rewrite (proj2 (Z.ltb_lt _ _) Hlt). simpl. apply IHk; [done|done|].
  intros k' Hk'. apply Hedge. apply elem_of_cons. by right.
Qed.

(** The builder returns on every flat sequence, and its tree is the store's. *)
Lemma build_tree_flat flat :
  is_flat flat →
  ∃ h closed,
    build_tree flat = Some (map (to_tree h) closed)
    ∧ Forall (repr h) closed
    ∧ flat_map arefs closed = seq 0 (length flat)
    ∧ edges_deeper h
    ∧ (∀ x, payload_at h x = payload_at flat x).
Proof.
  intros Hflat.
  destruct (organize_flat flat Hflat) as (h & closed & Horg & Hcl & Hrefs & Hlen & Hed & Hpay).
  exists h, closed. split; [|done]. unfold build_tree. rewrite Horg. cbn.
  apply forest_repr; [done|]. rewrite Hrefs, length_seq. lia.
Qed.

(** C1.  On every flat sequence of sections the hierarchy builder returns a
    tree, and in that tree every section's subsections have a level strictly
    greater than the section's own level, at every depth. *)
Theorem subsections_strictly_deeper (flat : list section_dict) :
  is_flat flat →
  ∃ trees, build_tree flat = Some trees
    ∧ Forall (λ t, levels_nested t = true) trees.
Proof.
  intros Hflat.
  destruct (build_tree_flat flat Hflat) as (h & closed & Hb & Hcl & _ & Hed & _).
  eexists. split; [exact Hb|]. apply Forall_forall. intros t Hin.
  apply list_elem_of_In, in_map_iff in Hin as (a & <- & Ha).
  apply levels_nested_to_tree; [done|]. rewrite Forall_forall in Hcl.
  by apply Hcl, list_elem_of_In.
Qed.

(** Reading the references [0 .. n-1] in a store that has the levels, titles
    and contents of [flat] gives the sections of [flat]. *)
Lemma payload_at_store (h flat : list section_dict) :
  (∀ x, payload_at h x = payload_at flat x) →
  map (payload_at h) (seq 0 (length flat)) = map payload flat.
Proof.
  intros Hpay. rewrite <- payload_at_seq. apply map_ext. intros x. apply Hpay.
Qed.

Lemma subsections_strictly_deeper_witness :
  ∃ trees,
    build_tree [mkSection 2 (lit "a") [] []; mkSection 4 (lit "b") [] [];
                mkSection 1 (lit "c") [] []] = Some trees
    ∧ Forall (λ t, levels_nested t = true) trees.
Proof.
  apply (subsections_strictly_deeper
           [mkSection 2 (lit "a") [] []; mkSection 4 (lit "b") [] [];
            mkSection 1 (lit "c") [] []]).
  repeat constructor.
Defined.

(** C10.  On every flat sequence of sections the pre-order traversal of the
    tree the hierarchy builder returns is the input sequence: nothing is
    dropped, duplicated or reordered. *)
Theorem preorder_is_input (flat : list section_dict) :
  is_flat flat →
  ∃ trees, build_tree flat = Some trees
    ∧ flat_map preorder trees = map payload flat.
Proof.
  intros Hflat.
  destruct (build_tree_flat flat Hflat) as (h & closed & Hb & _ & Hrefs & _ & Hpay).
  exists (map (to_tree h) closed). split; [exact Hb|].
  rewrite preorder_forest, Hrefs. by apply payload_at_store.
Qed.

Lemma preorder_is_input_witness :
  ∃ trees,
    build_tree [mkSection 2 (lit "a") [] []; mkSection 4 (lit "b") [] [];
                mkSection 1 (lit "c") [] []] = Some trees
    ∧ flat_map preorder trees
      = [(2, lit "a", []); (4, lit "b", []); (1, lit "c", [])].
Proof.
  apply (preorder_is_input
           [mkSection 2 (lit "a") [] []; mkSection 4 (lit "b") [] [];
            mkSection 1 (lit "c") [] []]).
  repeat constructor.
Defined.

(** C8.  Three sections at levels 1, 3, 2: one root at level 1 whose
    subsections are the level-3 section and then the level-2 section.  The
    store still has its three objects and no other; the stack ends with the
    level-2 section above the root, the level-3 section popped. *)
Theorem levels_1_3_2 (t1 c1 t2 c2 t3 c3 : str) :
  let flat :=
    [mkSection 1 t1 c1 []; mkSection 3 t2 c2 []; mkSection 2 t3 c3 []] in
  build_tree flat = Some [Node 1 t1 c1 [Node 3 t2 c2 []; Node 2 t3 c3 []]]
  ∧ organize_loop (flat, [], []) [0; 1; 2]%nat
    = Some ([mkSection 1 t1 c1 [1; 2]%nat; mkSection 3 t2 c2 [];
             mkSection 2 t3 c3 []],
            [0%nat], [2; 0]%nat).
Proof. split; reflexivity. Qed.

(** ** Scanner and renderer *)

(** *** Lines *)

Lemma split_nl_nonempty s : ∃ l ls, split_nl s = l :: ls.
Proof.
  induction s as [|c s (l & ls & E)]; simpl; [eauto|].
  destruct (is_nl c); [eauto|]. rewrite E. eauto.
Qed.

Lemma split_nl_app a b : split_nl (a ++ nl :: b) = split_nl a ++ split_nl b.
Proof.
  induction a as [|c a IH]; [done|]. simpl.
  destruct (is_nl c); [by rewrite IH|]. rewrite IH.
  by destruct (split_nl_nonempty a) as (l & ls & ->).
Qed.

Lemma split_nl_no_newline s : no_newline s → split_nl s = [s].
Proof.
  induction 1 as [|c s Hc Hs IH]; [done|]. simpl. by rewrite Hc, IH.
Qed.

Lemma split_nl_lines_no_newline s : Forall no_newline (split_nl s).
Proof.
  induction s as [|c s IH]; simpl; [by repeat constructor|].
  destruct (is_nl c) eqn:Hc; [constructor; [constructor|done]|].
  destruct (split_nl s) as [|l ls]; [by repeat constructor|].
  apply Forall_cons in IH as [Hl Hls]. constructor; [by constructor|done].
Qed.

(** *** The scan loop *)

Lemma fold_scan_skip lines st :
  current_section st = None →
  Forall (λ l, is_heading l = false) lines →
  fold_left scan_line lines st = st.
Proof.
  intros Hcur Hlines. induction Hlines as [|l lines Hl _ IH]; [done|]. simpl.
  unfold scan_line at 2. unfold is_heading in Hl.
  destruct (header_match l); [done|]. by rewrite Hcur.
Qed.

Lemma build_tree_nil : build_tree [] = Some [].
Proof. reflexivity. Qed.

(** C9.  A text without heading lines parses to the empty sequence, and the
    lines before the first heading line leave no trace: the scan and the
    parse of the text that follows them are unchanged. *)
Theorem leading_lines_discarded (pre : str) :
  Forall (λ l, is_heading l = false) (split_nl pre) →
  parse_markdown_sections pre = Some []
  ∧ ∀ rest, scan (pre ++ nl :: rest) = scan rest
            ∧ parse_markdown_sections (pre ++ nl :: rest)
              = parse_markdown_sections rest.
Proof.
  intros Hpre. split.
  - unfold parse_markdown_sections, scan. by rewrite fold_scan_skip by done.
  - intros rest. assert (E : scan (pre ++ nl :: rest) = scan rest).
    { unfold scan. rewrite split_nl_app, fold_left_app.
      by rewrite (fold_scan_skip (split_nl pre)) by done. }
    split; [done|]. unfold parse_markdown_sections. by rewrite E.
Qed.

Lemma leading_lines_discarded_witness :
  parse_markdown_sections (lit "intro") = Some []
  ∧ parse_markdown_sections (lit "intro" ++ nl :: lit "# A")
    = parse_markdown_sections (lit "# A").
Proof.
  assert (H : Forall (λ l, is_heading l = false) (split_nl (lit "intro"))).
  { repeat constructor. }
  destruct (leading_lines_discarded (lit "intro") H) as [H1 H2].
  split; [exact H1 | exact (proj2 (H2 (lit "# A")))].
Defined.

(** C7.  The line made of a [#] and two spaces matches the heading pattern
    with a blank second group: the scanner opens a section whose title is
    empty, against the claim that titles are never empty. *)
Theorem blank_title_parses :
  header_match (lit "#  ") = Some (1%nat, lit " ")
  ∧ parse_markdown_sections (lit "#  ") = Some [Node 1 [] [] []].
Proof. split; reflexivity. Qed.

(** *** [strip] *)

Lemma drop_while_split p s :
  ∃ w, s = w ++ drop_while p s ∧ Forall (λ c, p c = true) w.
Proof.
  induction s as [|c s (w & E & Hw)]; simpl; [by exists []|].
  destruct (p c) eqn:Hc; [|by exists []].
  exists (c :: w). split; [by rewrite <- app_comm_cons, <- E | by constructor].
Qed.

Lemma drop_while_head p s c r : drop_while p s = c :: r → p c = false.
Proof.
  induction s as [|d s IH]; simpl; [done|].
  destruct (p d) eqn:Hd; [done|]. by intros [= -> ->].
Qed.

Lemma drop_while_fixed p s :
  match s with [] => True | c :: _ => p c = false end → drop_while p s = s.
Proof. destruct s as [|c s]; simpl; [done|]. by intros ->. Qed.

Lemma drop_while_idem p s : drop_while p (drop_while p s) = drop_while p s.
Proof.
  apply drop_while_fixed. destruct (drop_while p s) eqn:E; [done|].
  by apply drop_while_head in E.
Qed.

Lemma rstrip_prefix s : ∃ w, s = rstrip s ++ w ∧ Forall (λ c, is_space c = true) w.
Proof.
  destruct (drop_while_split is_space (rev s)) as (w & E & Hw).
  exists (rev w). split.
  - unfold rstrip. rewrite <- rev_app_distr, <- E. by rewrite rev_involutive.
  - by apply Forall_rev.
Qed.

Lemma lstrip_head s c r : lstrip s = c :: r → is_space c = false.
Proof. apply drop_while_head. Qed.

Lemma strip_head s c r : strip s = c :: r → is_space c = false.
Proof.
  unfold strip. intros E. destruct (rstrip_prefix (lstrip s)) as (w & Ew & _).
  rewrite E in Ew. simpl in Ew. by apply lstrip_head in Ew.
Qed.

Lemma strip_idem s : strip (strip s) = strip s.
Proof.
  assert (El : lstrip (strip s) = strip s).
  { apply drop_while_fixed. destruct (strip s) eqn:E; [done|].
    by apply strip_head in E. }
  unfold strip at 1. rewrite El. unfold strip, rstrip.
  by rewrite rev_involutive, drop_while_idem.
Qed.

Lemma Forall_drop_while (P : ascii → Prop) p s :
  Forall P s → Forall P (drop_while p s).
Proof.
  induction 1 as [|c s Hc Hs IH]; simpl; [constructor|].
  destruct (p c); [done | by constructor].
Qed.

Lemma Forall_strip (P : ascii → Prop) s : Forall P s → Forall P (strip s).
Proof.
  intros H. unfold strip, rstrip, lstrip.
  by apply Forall_rev, Forall_drop_while, Forall_rev, Forall_drop_while.
Qed.

(** *** The heading pattern *)

Lemma span_fst_Forall p s : Forall (λ c, p c = true) (span p s).1.
Proof.
  induction s as [|c s IH]; simpl; [constructor|].
  destruct (p c) eqn:Hc; [|constructor].
  destruct (span p s) as [a b]. simpl in *. by constructor.
Qed.

Lemma span_app p a b :
  Forall (λ c, p c = true) a →
  match b with [] => True | c :: _ => p c = false end →
  span p (a ++ b) = (a, b).
Proof.
  intros Ha Hb. induction Ha as [|c a Hc Ha IH]; simpl.
  - destruct b as [|c b]; simpl; [done|]. by rewrite Hb.
  - by rewrite Hc, IH.
Qed.

Lemma dot_plus_eol_no_newline r g : dot_plus_eol r = Some g → no_newline g.
Proof.
  unfold dot_plus_eol. pose proof (span_fst_Forall (λ c, negb (is_nl c)) r) as H.
  destruct (span _ r) as [t rest]. simpl in H.
  assert (Ht : no_newline t).
  { eapply Forall_impl; [exact H|]. simpl. intros c Hc. by destruct (is_nl c). }
  destruct t as [|c t]; [done|]. destruct rest as [|d [|e rest]]; try done.
  all: by intros [= <-].
Qed.

Lemma dot_plus_eol_line r :
  no_newline r → r ≠ [] → dot_plus_eol r = Some r.
Proof.
  intros Hr Hne. unfold dot_plus_eol.
  rewrite <- (app_nil_r r) at 1. rewrite span_app; [|..|done].
  - destruct r; done.
  - eapply Forall_impl; [exact Hr|]. simpl. by intros c ->.
Qed.

Lemma ws_backtrack_no_newline taken r g :
  ws_backtrack taken r = Some g → no_newline g.
Proof.
  revert r. induction taken as [|c taken IH]; intros r; simpl; [done|].
  destruct (dot_plus_eol r) eqn:E.
  - intros [= <-]. by apply dot_plus_eol_no_newline in E.
  - apply IH.
Qed.

Lemma header_match_inv line k g :
  header_match line = Some (k, g) → (1 ≤ k ≤ 6)%nat ∧ no_newline g.
Proof.
  unfold header_match. destruct (span is_hash line) as [hashes rest].
  destruct (_ && _) eqn:Hk; [|done].
  destruct (span is_space rest) as [ws r].
  destruct (ws_backtrack (rev ws) r) as [g'|] eqn:E; [|done].
  simpl. intros [= <- <-]. apply andb_true_iff in Hk as [H1 H2].
  apply Nat.leb_le in H1, H2. split; [lia|].
  by apply ws_backtrack_no_newline in E.
Qed.

(** The line the renderer writes for a section is read back as it is. *)
Lemma header_match_rendered (k : nat) ti :
  (1 ≤ k ≤ 6)%nat → no_newline ti → ti ≠ [] → strip ti = ti →
  header_match (repeat "#"%char k ++ " "%char :: ti) = Some (k, ti).
Proof.
  intros Hk Hnl Hne Hstrip. unfold header_match.
  rewrite span_app; [| |done].
  2:{ apply Forall_forall. intros c Hc%list_elem_of_In%repeat_spec. by subst. }
  rewrite repeat_length.
  replace ((1 <=? k)%nat && (k <=? 6)%nat) with true.
  2:{ symmetry. apply andb_true_iff. split; apply Nat.leb_le; lia. }
  destruct ti as [|c ti']; [done|].
  assert (Hc : is_space c = false) by (by eapply strip_head).
  cbn [span]. change (is_space " ") with true. cbn [span]. rewrite Hc.
  cbn [rev app ws_backtrack]. by rewrite dot_plus_eol_line.
Qed.

Lemma line_heading_rendered l ti :
  scanned l ti → ti ≠ [] →
  line_heading (repeat "#"%char (Z.to_nat l) ++ " "%char :: ti) = Some (l, ti).
Proof.
  intros (Hl & Hnl & Hstrip) Hne. unfold line_heading.
  rewrite header_match_rendered; [|lia|done..]. cbn.
  rewrite Hstrip. do 2 f_equal. lia.
Qed.

Lemma line_heading_scanned line l ti :
  line_heading line = Some (l, ti) → scanned l ti.
Proof.
  unfold line_heading. destruct (header_match line) as [[k g]|] eqn:E; [|done].
  cbn. intros [= <- <-]. apply header_match_inv in E as [Hk Hg].
  split; [lia|]. split; [by apply Forall_strip | apply strip_idem].
Qed.

(** *** What the scanner produces *)

Lemma close_section_scanned cur lines :
  scanned cur.1 cur.2 → scanned_section (close_section cur lines).
Proof. intros H. split; [done|]. split; [apply strip_idem | done]. Qed.

Lemma scan_line_spec st line :
  scan_state_ok st →
  scan_state_ok (scan_line st line)
  ∧ scan_headings (scan_line st line)
    = scan_headings st ++ option_list (line_heading line).
Proof.
  intros [Hsec Hcur]. unfold scan_line, line_heading.
  destruct (header_match line) as [[k g]|] eqn:E; cbn.
  - assert (Hs : scanned (Z.of_nat k) (strip g)).
    { apply (line_heading_scanned line). unfold line_heading. by rewrite E. }
    unfold scan_headings. destruct (current_section st) as [cur|]; cbn.
    + split.
      * split; [|done]. apply Forall_app. split; [done|].
        constructor; [|constructor]. by apply close_section_scanned.
      * rewrite map_app. cbn. by destruct cur.
    + split; [done|]. by rewrite app_nil_r.
  - unfold scan_headings. destruct (current_section st) as [cur|] eqn:Ec; cbn.
    + split; [done|]. by rewrite app_nil_r.
    + split; [split; [done | by rewrite Ec] |]. by rewrite Ec, !app_nil_r.
Qed.

Lemma fold_scan_spec lines : ∀ st,
  scan_state_ok st →
  scan_state_ok (fold_left scan_line lines st)
  ∧ scan_headings (fold_left scan_line lines st)
    = scan_headings st ++ heading_lines lines.
Proof.
  induction lines as [|line lines IH]; intros st Hst; cbn.
  - by rewrite app_nil_r.
  - destruct (scan_line_spec st line Hst) as [Hok E].
    destruct (IH _ Hok) as [Hok' E']. split; [done|].
    rewrite E', E, <- app_assoc. f_equal. unfold heading_lines. cbn.
    by destruct (line_heading line).
Qed.

Lemma scan_finish_spec st :
  scan_state_ok st →
  Forall scanned_section (scan_finish st)
  ∧ map (λ s, (level s, title s)) (scan_finish st) = scan_headings st.
Proof.
  intros [Hsec Hcur]. unfold scan_finish, scan_headings.
  destruct (current_section st) as [cur|].
  - split.
    + apply Forall_app. split; [done|].
      constructor; [|constructor]. by apply close_section_scanned.
    + rewrite map_app. cbn. by destruct cur.
  - split; [done|]. by rewrite app_nil_r.
Qed.

Lemma scan_spec text :
  Forall scanned_section (scan text)
  ∧ map (λ s, (level s, title s)) (scan text) = heading_lines (split_nl text).
Proof.
  unfold scan.
  destruct (fold_scan_spec (split_nl text) (mkScan [] None [])) as [Hok E].
  { split; [constructor | done]. }
  destruct (scan_finish_spec _ Hok) as [Hs Em]. split; [done|].
  by rewrite Em, E.
Qed.

(** The parser returns on every text; its tree lists, in pre-order, the
    sections of the scan. *)
Lemma parse_spec text :
  ∃ trees, parse_markdown_sections text = Some trees
    ∧ flat_map preorder trees = map payload (scan text).
Proof.
  destruct (scan_spec text) as [Hs _].
  destruct (build_tree_flat (scan text)) as (h & closed & Hb & _ & Hrefs & _ & Hpay).
  { eapply Forall_impl; [exact Hs|]. by intros s (_ & _ & ?). }
  exists (map (to_tree h) closed). split; [exact Hb|].
  rewrite preorder_forest, Hrefs. by apply payload_at_store.
Qed.

Lemma headings_parse text trees :
  parse_markdown_sections text = Some trees →
  headings trees = heading_lines (split_nl text)
  ∧ Forall scanned_payload (flat_map preorder trees).
Proof.
  intros Hp. destruct (parse_spec text) as (trees' & Hp' & Epre).
  rewrite Hp in Hp'. injection Hp' as <-.
  destruct (scan_spec text) as [Hs Eh]. split.
  - unfold headings. rewrite Epre, <- Eh, map_map. done.
  - rewrite Epre. apply Forall_forall. intros p Hin.
    apply list_elem_of_In, in_map_iff in Hin as (s & <- & Hin).
    rewrite Forall_forall in Hs. destruct (Hs s) as (H1 & H2 & _).
    { by apply list_elem_of_In. }
    by split.
Qed.

(** *** Heading lines of the rendered text *)

Lemma HL_app a b : HL (a ++ nl :: b) = HL a ++ HL b.
Proof. unfold HL, heading_lines. by rewrite split_nl_app, omap_app. Qed.

Lemma HL_newline b : HL (nl :: b) = HL b.
Proof. exact (HL_app [] b). Qed.

Lemma HL_block b rest : HL (nl :: b ++ nl :: rest) = HL b ++ HL rest.
Proof. rewrite <- HL_app. apply (HL_app [] (b ++ nl :: rest)). Qed.

Lemma HL_plain co :
  forallb (λ line, negb (is_heading line)) (split_nl co) = true → HL co = [].
Proof.
  unfold HL, heading_lines. induction (split_nl co) as [|l ls IH]; [done|].
  cbn. intros [Hl Hls]%andb_true_iff. unfold line_heading at 1.
  unfold is_heading in Hl. destruct (header_match l); [done|]. cbn. auto.
Qed.

Lemma heading_lines_cons line lines :
  heading_lines (line :: lines)
  = option_list (line_heading line) ++ heading_lines lines.
Proof. unfold heading_lines. cbn. by destruct (line_heading line). Qed.

Lemma format_unfold l ti co subs :
  format_section_content (Node l ti co subs)
  = nl :: (repeat "#"%char (Z.to_nat l) ++ " "%char :: ti) ++ nl ::
    content_part co ++ rule_part co subs
    ++ flat_map format_section_content subs ++ nl :: separator_line ++ [nl].
Proof.
  cbn [format_section_content].
  destruct co as [|c co], subs as [|k subs]; cbn [content_part rule_part].
  all: repeat (rewrite <- ?app_assoc, <- ?app_comm_cons); cbn [app flat_map].
  all: repeat (rewrite <- ?app_assoc, <- ?app_comm_cons); done.
Qed.

Lemma HL_content_part co rest :
  strip co = co → forallb (λ line, negb (is_heading line)) (split_nl co) = true →
  HL (content_part co ++ rest) = HL rest.
Proof.
  intros Hs Hp.
  assert (E : content_part co = [] ∨ content_part co = nl :: strip co ++ [nl]).
  { destruct co; [by left | by right]. }
  destruct E as [-> | ->]; [done|].
  rewrite Hs, <- app_comm_cons, <- app_assoc.
  change ([nl] ++ rest) with (nl :: rest). rewrite HL_block, HL_plain by done. done.
Qed.

Lemma HL_rule_part co subs rest : HL (rule_part co subs ++ rest) = HL rest.
Proof.
  destruct subs as [|k subs], co as [|c co]; done.
Qed.

Lemma HL_separator rest : HL (nl :: separator_line ++ nl :: rest) = HL rest.
Proof. by rewrite HL_block. Qed.

Lemma format_headings t :
  Forall renders_back (preorder t) →
  ∀ rest, HL (format_section_content t ++ rest) = headings [t] ++ HL rest.
Proof.
  induction t as [l ti co subs IH] using Tree_ind. intros Hgood rest.
  cbn [preorder] in Hgood. apply Forall_cons in Hgood as [[[Hsc Hco] Hplain] Hsubs].
  unfold plain_section in Hplain. cbn [fst snd] in Hsc, Hco, Hplain.
  apply andb_true_iff in Hplain as [Hti Hplain].
  rewrite format_unfold. rewrite <- app_comm_cons, <- app_assoc.
  rewrite <- app_comm_cons, HL_block.
  unfold HL at 1. rewrite split_nl_no_newline.
  2:{ apply Forall_app. split.
      - apply Forall_forall. intros c Hc%list_elem_of_In%repeat_spec. by subst.
      - constructor; [done|]. by destruct Hsc as (_ & ? & _). }
  rewrite heading_lines_cons, line_heading_rendered; [|done|by destruct ti].
  cbn [option_list app]. change (heading_lines []) with (@nil (Z * list ascii)).
  rewrite <- !app_assoc, HL_content_part, HL_rule_part by done.
  replace ((nl :: separator_line ++ [nl]) ++ rest)
    with (nl :: separator_line ++ nl :: rest)
    by (by rewrite <- app_comm_cons, <- app_assoc).
  unfold headings. cbn [flat_map preorder]. rewrite app_nil_r.
  cbn [map app option_list fst snd]. f_equal.
  clear Hsc Hco Hti Hplain. revert Hsubs.
  induction IH as [|k subs Hk _ IHsubs]; intros Hsubs.
  - cbn [flat_map map app]. apply HL_separator.
  - cbn [flat_map] in Hsubs |- *. apply Forall_app in Hsubs as [H1 H2].
    rewrite <- app_assoc, Hk by done. unfold headings. cbn [flat_map].
    rewrite app_nil_r, map_app, <- app_assoc. f_equal. by apply IHsubs.
Qed.

Lemma standardize_headings trees :
  Forall renders_back (flat_map preorder trees) →
  HL (standardize_output trees) = headings trees.
Proof.
  unfold standardize_output. induction trees as [|t trees IH]; [done|].
  cbn [flat_map]. intros [H1 H2]%Forall_app.
  destruct trees as [|t' trees].
  - cbn [map join_nl].
    rewrite <- (app_nil_r (format_section_content t)), format_headings by done.
    by rewrite app_nil_r.
  - change (join_nl (map format_section_content (t :: t' :: trees)))
      with (format_section_content t ++ nl ::
            join_nl (map format_section_content (t' :: trees))).
    rewrite format_headings by done.
    rewrite HL_newline, IH by done.
    unfold headings. cbn [flat_map]. by rewrite app_nil_r, !map_app.
Qed.

(** *** Heading lines and trailing text *)

Lemma span_split p s :
  s = (span p s).1 ++ (span p s).2
  ∧ match (span p s).2 with [] => True | c :: _ => p c = false end.
Proof.
  induction s as [|c s [IH1 IH2]]; cbn; [done|].
  destruct (p c) eqn:Hc; [|done].
  destruct (span p s) as [a b]. cbn in *. by rewrite IH1 at 1.
Qed.

Lemma ws_backtrack_Some_inv taken r g :
  ws_backtrack taken r = Some g → r ≠ [] ∨ (2 ≤ length taken)%nat.
Proof.
  destruct taken as [|c [|d taken]]; cbn; [done| |right; lia].
  destruct r as [|e r]; [|by left]. done.
Qed.

Lemma ws_backtrack_line taken r :
  taken ≠ [] → no_newline taken → no_newline r →
  r ≠ [] ∨ (2 ≤ length taken)%nat →
  is_Some (ws_backtrack taken r).
Proof.
  intros Hne Ht Hr Hlen. destruct taken as [|c taken]; [done|]. cbn.
  destruct r as [|e r].
  - destruct Hlen as [?|Hlen]; [done|]. destruct taken as [|d taken]; [cbn in Hlen; lia|].
    cbn. apply Forall_cons in Ht as [Hc _].
    rewrite (dot_plus_eol_line [c]); [done| by constructor | done].
  - rewrite dot_plus_eol_line; done.
Qed.

Lemma rev_ne_nil {A} (l : list A) : l ≠ [] → rev l ≠ [].
Proof.
  intros Hne E. apply Hne. apply (f_equal (@rev A)) in E.
  by rewrite rev_involutive in E.
Qed.

(** A heading line stays one when text without a newline is added at its
    end. *)
Lemma is_heading_extend line post :
  no_newline (line ++ post) → is_heading line = true →
  is_heading (line ++ post) = true.
Proof.
  intros Hnl. apply Forall_app in Hnl as [Hline Hpost].
  unfold is_heading, header_match.
  destruct (span_split is_hash line) as [E1 _].
  pose proof (span_fst_Forall is_hash line) as Hh.
  destruct (span is_hash line) as [hashes rest]. cbn [fst snd] in *.
  destruct (_ && _) eqn:Hk; [|done].
  destruct (span_split is_space rest) as [E2 Hr].
  pose proof (span_fst_Forall is_space rest) as Hw.
  destruct (span is_space rest) as [ws r]. cbn [fst snd] in *.
  destruct (ws_backtrack (rev ws) r) as [g|] eqn:Eg; [|done]. intros _.
  assert (Hws : ws ≠ []) by (intros ->; done).
  apply ws_backtrack_Some_inv in Eg. rewrite length_rev in Eg.
  subst line rest. apply Forall_app in Hline as [_ Hline].
  apply Forall_app in Hline as [Hwsnl Hrnl].
  rewrite <- !app_assoc. rewrite span_app; [|done|].
  2:{ destruct ws as [|c ws]; [done|]. cbn. apply Forall_cons in Hw as [Hc _].
      unfold is_hash. destruct (Ascii.eqb_spec c "#"); [|done].
      subst c. discriminate Hc. }
  rewrite Hk.
  destruct r as [|c r].
  - (* the added text goes on after the whitespace *)
    destruct (span_split is_space post) as [E3 Hp].
    pose proof (span_fst_Forall is_space post) as Hpw.
    destruct (span is_space post) as [pw pr]. cbn [fst snd app] in *.
    rewrite E3, app_assoc, span_app; [|by apply Forall_app|done].
    destruct (ws_backtrack_line (rev (ws ++ pw)) pr) as [g' ->]; [| | | |done].
    + apply rev_ne_nil. by destruct ws.
    + apply Forall_rev, Forall_app. split; [done|].
      rewrite E3 in Hpost. by apply Forall_app in Hpost as [? _].
    + rewrite E3 in Hpost. by apply Forall_app in Hpost as [_ ?].
    + rewrite length_rev, length_app. destruct Eg as [?|?]; [done|]. right. lia.
  - rewrite span_app; [|done|done].
    destruct (ws_backtrack_line (rev ws) ((c :: r) ++ post)) as [g' ->]; [| | | |done].
    + by apply rev_ne_nil.
    + by apply Forall_rev.
    + by apply Forall_app.
    + by left.
Qed.

(** *** Lines of a stripped text *)

Lemma split_nl_head t c f rest :
  split_nl t = (c :: f) :: rest → ∃ t', t = c :: t'.
Proof.
  destruct t as [|d t]; cbn; [done|]. destruct (is_nl d); [done|].
  destruct (split_nl t); intros [= -> _]; eauto.
Qed.

Lemma split_nl_drop_prefix w t :
  Forall (λ c, is_space c = true) w →
  ∃ before pre first after,
    split_nl (w ++ t) = before ++ (pre ++ first) :: after
    ∧ split_nl t = first :: after
    ∧ Forall (λ c, is_space c = true) pre.
Proof.
  induction 1 as [|c w Hc _ (before & pre & first & after & E1 & E2 & Hpre)].
  - destruct (split_nl_nonempty t) as (l & ls & E). by exists [], [], l, ls.
  - cbn. destruct (is_nl c).
    + exists ([] :: before), pre, first, after. by rewrite E1.
    + rewrite E1. destruct before as [|b0 bs]; cbn.
      * exists [], (c :: pre), first, after. split; [done|]. split; [done|by constructor].
      * by exists ((c :: b0) :: bs), pre, first, after.
Qed.

Lemma split_nl_drop_suffix u w :
  ∃ init lastl post after,
    split_nl u = init ++ [lastl]
    ∧ split_nl (u ++ w) = init ++ (lastl ++ post) :: after.
Proof.
  induction u as [|c u (init & lastl & post & after & E1 & E2)].
  - destruct (split_nl_nonempty w) as (l & ls & E). by exists [], [], l, ls.
  - cbn. destruct (is_nl c).
    + exists ([] :: init), lastl, post, after. by rewrite E1, E2.
    + rewrite E1, E2. destruct init as [|i0 more]; cbn.
      * by exists [], (c :: lastl), post, after.
      * by exists ((c :: i0) :: more), lastl, post, after.
Qed.

Lemma lstrip_app_space pre s :
  Forall (λ c, is_space c = true) pre → lstrip (pre ++ s) = lstrip s.
Proof. induction 1 as [|c pre Hc _ IH]; [done|]. cbn. by rewrite Hc. Qed.

Lemma lines_lstrip (P : list ascii → Prop) s :
  Forall (λ l, P l ∧ P (lstrip l)) (split_nl s) → Forall P (split_nl (lstrip s)).
Proof.
  intros Hs. destruct (drop_while_split is_space s) as (w & E & Hw).
  fold (lstrip s) in E.
  destruct (split_nl_drop_prefix w (lstrip s) Hw)
    as (before & pre & first & after & E1 & E2 & Hpre).
  rewrite <- E in E1. rewrite E1 in Hs. rewrite E2.
  apply Forall_app in Hs as [_ Hs]. apply Forall_cons in Hs as [[_ Hf] Hafter].
  constructor.
  - rewrite lstrip_app_space in Hf by done.
    replace (lstrip first) with first in Hf; [done|].
    symmetry. apply drop_while_fixed. destruct first as [|c f]; [done|].
    apply split_nl_head in E2 as (t' & Et). by apply lstrip_head in Et.
  - eapply Forall_impl; [exact Hafter|]. by intros l [? _].
Qed.

Lemma lines_rstrip s :
  Forall (λ l, is_heading l = false) (split_nl s) →
  Forall (λ l, is_heading l = false) (split_nl (rstrip s)).
Proof.
  intros Hs. destruct (rstrip_prefix s) as (w & E & _).
  destruct (split_nl_drop_suffix (rstrip s) w) as (init & lastl & post & after & E1 & E2).
  pose proof (split_nl_lines_no_newline s) as Hnl.
  rewrite <- E in E2. rewrite E2 in Hs, Hnl. rewrite E1.
  apply Forall_app in Hs as [Hinit Hs]. apply Forall_cons in Hs as [Hl _].
  apply Forall_app in Hnl as [_ Hnl]. apply Forall_cons in Hnl as [Hnl _].
  apply Forall_app. split; [done|]. constructor; [|constructor].
  destruct (is_heading lastl) eqn:Eh; [|done].
  by rewrite (is_heading_extend lastl post Hnl Eh) in Hl.
Qed.

Lemma split_nl_join lines :
  lines ≠ [] → Forall no_newline lines → split_nl (join_nl lines) = lines.
Proof.
  intros Hne Hnl. induction Hnl as [|l lines Hl Hls IH]; [done|].
  destruct lines as [|l' lines].
  - cbn. by apply split_nl_no_newline.
  - change (join_nl (l :: l' :: lines)) with (l ++ nl :: join_nl (l' :: lines)).
    rewrite split_nl_app, IH by done. by rewrite split_nl_no_newline.
Qed.


Lemma content_plain lines :
  Forall no_newline lines → Forall stays_plain lines →
  forallb (λ line, negb (is_heading line)) (split_nl (strip (join_nl lines))) = true.
Proof.
  intros Hnl Hp. apply forallb_forall. intros l Hl%list_elem_of_In. revert l Hl.
  apply Forall_forall.
  assert (H : Forall (λ l, is_heading l = false) (split_nl (strip (join_nl lines)))).
  { unfold strip. apply lines_rstrip, lines_lstrip.
    destruct lines as [|l0 lines]; [by repeat constructor|].
    by rewrite split_nl_join. }
  eapply Forall_impl; [exact H|]. by intros l ->.
Qed.

Lemma close_section_plain cur lines :
  truthy cur.2 = true → Forall no_newline lines → Forall stays_plain lines →
  plain_section (payload (close_section cur lines)) = true.
Proof.
  intros Hcur Hnl Hp. unfold plain_section, payload, close_section. cbn.
  by rewrite Hcur, content_plain.
Qed.

Lemma scan_line_plain st line :
  scan_plain_ok st → no_newline line → plain_input_line line = true →
  scan_plain_ok (scan_line st line).
Proof.
  intros (Hsec & Hcur & Hnl & Hp) Hline Hplain.
  unfold scan_line, plain_input_line in *.
  destruct (header_match line) as [[k g]|] eqn:E.
  - destruct (current_section st) as [cur|]; cbn.
    + split; [|by repeat split]. apply Forall_app. split; [done|].
      constructor; [|constructor]. by apply close_section_plain.
    + by repeat split.
  - destruct (current_section st) as [cur|] eqn:Ec; cbn.
    + split; [done|]. split; [done|].
      split; apply Forall_app; (split; [done|]); constructor; try done.
      split; [unfold is_heading; by rewrite E|]. by apply negb_true_iff.
    + split; [done|]. split; [by rewrite Ec|]. by split.
Qed.

Lemma fold_scan_plain lines : ∀ st,
  scan_plain_ok st → Forall no_newline lines →
  forallb plain_input_line lines = true →
  scan_plain_ok (fold_left scan_line lines st).
Proof.
  induction lines as [|line lines IH]; intros st Hst Hnl Hp; [done|].
  apply Forall_cons in Hnl as [Hl Hnl]. cbn in Hp.
  apply andb_true_iff in Hp as [Hpl Hp]. cbn.
  apply IH; [by apply scan_line_plain | done | done].
Qed.

Lemma scan_plain text :
  forallb plain_input_line (split_nl text) = true →
  Forall (λ s, plain_section (payload s) = true) (scan text).
Proof.
  intros Hp. unfold scan.
  destruct (fold_scan_plain (split_nl text) (mkScan [] None [])) as (Hsec & Hcur & Hnl & Hst).
  { by repeat split. }
  { apply split_nl_lines_no_newline. }
  { done. }
  unfold scan_finish. destruct (current_section _) as [cur|]; [|done].
  apply Forall_app. split; [done|]. constructor; [|constructor].
  by apply close_section_plain.
Qed.

Lemma parse_plain text trees :
  parse_markdown_sections text = Some trees →
  forallb plain_input_line (split_nl text) = true →
  forallb plain_section (flat_map preorder trees) = true.
Proof.
  intros Hparse Hp. destruct (parse_spec text) as (trees' & Hp' & Epre).
  rewrite Hparse in Hp'. injection Hp' as <-. rewrite Epre.
  apply forallb_forall. intros p (s & <- & Hin)%in_map_iff.
  pose proof (scan_plain text Hp) as Hs. rewrite Forall_forall in Hs.
  by apply Hs, list_elem_of_In.
Qed.

(** *** The round trip *)

(** C2, amended.  When every section of the parsed tree has a title that
    is not empty and no line of its content is a heading line, parsing the
    rendered tree returns a tree with the same pre-order sequence of
    (level, title) pairs. *)
Theorem roundtrip_headings (text : str) (trees : list Tree) :
  parse_markdown_sections text = Some trees →
  forallb plain_section (flat_map preorder trees) = true →
  ∃ trees', parse_markdown_sections (standardize_output trees) = Some trees'
    ∧ headings trees' = headings trees.
Proof.
  intros Hp Hplain. destruct (headings_parse _ _ Hp) as [_ Hsc].
  destruct (parse_spec (standardize_output trees)) as (trees' & Hp' & _).
  exists trees'. split; [done|].
  destruct (headings_parse _ _ Hp') as [-> _].
  apply standardize_headings. apply Forall_forall. intros p Hin.
  rewrite Forall_forall in Hsc. split; [by apply Hsc|].
  rewrite forallb_forall in Hplain. by apply Hplain, list_elem_of_In.
Qed.

(** A condition on the input alone that is enough: every heading line has a
    title that is not blank, and no other line is a heading line once its
    leading whitespace is removed. *)
Lemma roundtrip_plain_input (text : str) (trees : list Tree) :
  parse_markdown_sections text = Some trees →
  forallb plain_input_line (split_nl text) = true →
  ∃ trees', parse_markdown_sections (standardize_output trees) = Some trees'
    ∧ headings trees' = headings trees.
Proof.
  intros Hparse Hplain. pose proof (parse_plain text trees Hparse Hplain) as Hp.
  destruct (headings_parse _ _ Hparse) as [_ Hsc].
  destruct (parse_spec (standardize_output trees)) as (trees' & Hparse' & _).
  exists trees'. split; [done|].
  destruct (headings_parse _ _ Hparse') as [-> _].
  apply standardize_headings. rewrite forallb_forall in Hp.
  rewrite Forall_forall in Hsc |- *. intros p Hin.
  split; [by apply Hsc | by apply Hp, list_elem_of_In].
Qed.

(** *** Round trip: the claim as stated fails *)

(** C2 as stated fails: the text is ASCII, its first line is a heading line
    and its second is not, yet the rendered tree parses to two sections. *)
Lemma roundtrip_counterexample :
  Forall (λ c, (N_of_ascii c < 128)%N) indented_heading
  ∧ map is_heading (split_nl indented_heading) = [true; false]
  ∧ ∃ trees trees',
      parse_markdown_sections indented_heading = Some trees
      ∧ parse_markdown_sections (standardize_output trees) = Some trees'
      ∧ headings trees = [(1, lit "A")]
      ∧ headings trees' = [(1, lit "A"); (1, lit "B")].
Proof.
  split; [by repeat constructor|]. split; [reflexivity|].
  eexists _, _. split; [reflexivity|]. split; [vm_compute; reflexivity|].
  split; reflexivity.
Qed.

Lemma roundtrip_headings_witness :
  ∃ trees', parse_markdown_sections
      (standardize_output
         [Node 1 (lit "A") (lit "body") [Node 2 (lit "B") [] []]]) = Some trees'
    ∧ headings trees' = [(1, lit "A"); (2, lit "B")].
Proof.
  apply (roundtrip_headings (lit "# A" ++ nl :: lit "body" ++ nl :: lit "## B")
           [Node 1 (lit "A") (lit "body") [Node 2 (lit "B") [] []]]).
  - vm_compute. reflexivity.
  - vm_compute. reflexivity.
Defined.

(** ** Encoding resolver *)

Section EncodingResolverFacts.
Variable detect : bytes → detection.
Variable decode : str → bytes → option str.
Variable decode_replace : bytes → str.
Variable format_mb : Z → str.
Variable printable : message → bool.

(** The loop over the candidates: it ends at the first candidate that
    decodes the file and whose note is printed, after one strict read per
    candidate tried; it falls through when there is none. *)
Lemma try_encodings_spec file_path data detected encodings :
  match try_encodings decode printable file_path data detected encodings with
  | (Some text, tr) =>
      ∃ failed enc rest,
        encodings = failed ++ enc :: rest
        ∧ Forall (λ e, wins decode printable file_path data detected e = false)
            failed
        ∧ decode enc data = Some text
        ∧ note_printed printable file_path detected enc = true
        ∧ tr = map (λ e, OpenText file_path e false) (failed ++ [enc])
               ++ note_events file_path detected enc
  | (None, tr) =>
      Forall (λ e, wins decode printable file_path data detected e = false)
        encodings
      ∧ tr = map (λ e, OpenText file_path e false) encodings
  end.
Proof.
  induction encodings as [|e rest IH]; [by split|]. cbn [try_encodings].
  assert (Hnext : wins decode printable file_path data detected e = false →
    match
      (let '(r, tr) := try_encodings decode printable file_path data detected
                         rest in
       (r, OpenText file_path e false :: tr))
    with
    | (Some text, tr) =>
        ∃ failed enc rest0,
          e :: rest = failed ++ enc :: rest0
          ∧ Forall (λ e, wins decode printable file_path data detected e = false)
              failed
          ∧ decode enc data = Some text
          ∧ note_printed printable file_path detected enc = true
          ∧ tr = map (λ e, OpenText file_path e false) (failed ++ [enc])
                 ++ note_events file_path detected enc
    | (None, tr) =>
        Forall (λ e, wins decode printable file_path data detected e = false)
          (e :: rest)
        ∧ tr = map (λ e, OpenText file_path e false) (e :: rest)
    end).
  { intros He.
    destruct (try_encodings decode printable file_path data detected rest)
      as [[text|] tr].
    - destruct IH as (failed & enc & rest0 & -> & Hf & Hd & Hn & ->).
      exists (e :: failed), enc, rest0.
      split_and!; [done|by constructor|done|done|done].
    - destruct IH as [Hf ->]. split; [by constructor|done]. }
  unfold wins, note_printed, note_events in *.
  destruct (decode e data) as [text|] eqn:Hd; [|by apply Hnext].
  destruct (note_of file_path detected e) as [note|] eqn:Hnote.
  - destruct (printable note) eqn:Hp.
    + exists [], e, rest. rewrite Hnote, Hp. by split_and!.
    + apply Hnext. rewrite bool_decide_eq_true_2 by by eexists. done.
  - exists [], e, rest. rewrite Hnote. by split_and!.
Qed.

(** A candidate other than the detected encoding never ends the loop when
    no note can be printed. *)
Lemma refused_notes_lose file_path data detected encodings :
  detected ≠ [] → decode detected data = None →
  (∀ encoding, printable (ReadWith file_path encoding detected) = false) →
  Forall (λ e, wins decode printable file_path data (Some detected) e = false)
    encodings.
Proof.
  intros Hne Hd Hp. apply Forall_forall. intros e _. unfold wins.
  destruct (decide (e = detected)) as [->|Hneq].
  - rewrite Hd. rewrite bool_decide_eq_false_2 by apply is_Some_None. done.
  - unfold note_printed, note_of. destruct detected as [|c d]; [done|].
    cbn [truthy andb]. rewrite (bool_decide_eq_false_2 (e = c :: d)) by done.
    cbn [negb]. rewrite Hp. apply andb_false_r.
Qed.

(** C3, where the code fails it.  A file that is no PDF, a detected
    encoding that is accepted and does not decode it, and an output that
    takes neither the notes nor the warning: [read_file_content] raises
    [IOError], whatever the other candidates make of the bytes; the texts
    they decode are dropped and so is the forced decoding. *)
Theorem refused_prints_raise fs file_path data detected :
  fs file_path = Some (File data) →
  starts_with pdf_magic (take 10 data) = false →
  accepted_encoding (detect (take (Z.to_nat 10000) data)) = Some detected →
  detected ≠ [] →
  decode detected data = None →
  (∀ encoding, printable (ReadWith file_path encoding detected) = false) →
  printable (InvalidUtf8 file_path) = false →
  (read_file_content detect decode decode_replace format_mb printable fs
     file_path).1 = RaiseIOError.
Proof.
  intros Hfs Hpdf Hacc Hne Hd Hnotes Hwarn.
  unfold read_file_content. rewrite Hfs, Hpdf, Hacc.
  pose proof (try_encodings_spec file_path data (Some detected)
                (candidates (detect (take (Z.to_nat 10000) data)))) as H.
  destruct (try_encodings _ _ _ _ _ _) as [[text|] tr].
  - destruct H as (failed & enc & rest & E & _ & Hdec & Hnote & _).
    pose proof (refused_notes_lose file_path data detected [enc] Hne Hd Hnotes)
      as Hlose.
    apply Forall_inv in Hlose. unfold wins in Hlose.
    rewrite Hdec, Hnote in Hlose.
    rewrite bool_decide_eq_true_2 in Hlose by by eexists. done.
  - by rewrite Hwarn.
Qed.

Lemma starts_with_take {A} `{EqDecision A} (p s : list A) n :
  (length p ≤ n)%nat → starts_with p (take n s) = starts_with p s.
Proof.
  revert s n. induction p as [|a p IH]; intros s n Hn; [done|].
  destruct n as [|n]; [cbn in Hn; lia|]. destruct s as [|c s]; [done|].
  cbn. f_equal. apply IH. cbn in Hn. lia.
Qed.

(** C4, where the code fails it.  A file that begins with [%PDF] on an
    output that does not take the notice: the [print] before the [return]
    raises, and [read_file_content] raises [IOError] after its one binary
    read instead of returning the document. *)
Theorem pdf_notice_refused fs file_path data :
  fs file_path = Some (File data) →
  starts_with pdf_magic data = true →
  printable (PdfDetected file_path) = false →
  read_file_content detect decode decode_replace format_mb printable fs
    file_path
  = (RaiseIOError, [OpenBinary file_path]).
Proof.
  intros Hfs Hpdf Hp. unfold read_file_content. rewrite Hfs.
  rewrite starts_with_take by (cbn; lia). by rewrite Hpdf, Hp.
Qed.

End EncodingResolverFacts.

(** A file of 10000 letters [A] followed by the two bytes of a UTF-8 [e]
    with an acute accent: the detector sees the letters only and answers
    ASCII, which does not decode the file; the output is closed and takes no
    message. *)
Lemma refused_prints_raise_witness :
  let data := repeat x41%byte (Z.to_nat 10000) ++ [xc3; xa9]%byte in
  let is_ascii := forallb (λ b, (Byte.to_N b <? 128)%N) in
  let detect := λ raw : bytes,
    if is_ascii raw then Detected (Some (lit "ascii")) 1 else DetectRaises in
  let decode := λ (enc : str) (content : bytes),
    if bool_decide (enc = lit "ascii") && negb (is_ascii content) then None
    else Some (lit "text") in
  (read_file_content detect decode (λ _, lit "?") (λ _, []) (λ _, false)
     (λ _, Some (File data)) (lit "a.md")).1
  = RaiseIOError.
Proof.
  intros data is_ascii detect decode.
  apply (refused_prints_raise detect decode (λ _, lit "?") (λ _, [])
           (λ _, false) (λ _, Some (File data)) (lit "a.md") data (lit "ascii")).
  - reflexivity.
  - reflexivity.
  - vm_compute. reflexivity.
  - discriminate.
  - vm_compute. reflexivity.
  - reflexivity.
  - reflexivity.
Defined.

Lemma pdf_notice_refused_witness :
  read_file_content (λ _, Unavailable) (λ _ _, None) (λ _, []) (λ _, lit "0.00")
    (λ _, false) (λ _, Some (File [x25; x50; x44; x46; x2d]%byte))
    (lit "notes/paper.md")
  = (RaiseIOError, [OpenBinary (lit "notes/paper.md")]).
Proof.
  apply (pdf_notice_refused (λ _, Unavailable) (λ _ _, None) (λ _, [])
           (λ _, lit "0.00") (λ _, false)
           (λ _, Some (File [x25; x50; x44; x46; x2d]%byte))
           (lit "notes/paper.md") [x25; x50; x44; x46; x2d]%byte);
    reflexivity.
Defined.

(** ** Confidence gate *)

Lemma threshold_spec : Prim2SF threshold = S754_finite false 6305039478318694 (-53).
Proof. vm_compute. reflexivity. Qed.

(** On numbers, [not (c < 0.7)] is [0.7 <= c]. *)
Lemma not_below_threshold (c : float) :
  (0 <=? c)%float = true →
  (c <? threshold)%float = negb (threshold <=? c)%float.
Proof.
  rewrite !ltb_spec, !leb_spec, threshold_spec.
  change (Prim2SF 0) with (S754_zero false).
  unfold SFltb, SFleb. destruct (Prim2SF c) as [s|s| |s m e].
  - done.
  - by destruct s.
  - done.
  - destruct s; [done|]. intros _. cbn [SFcompare].
    rewrite (Z.compare_antisym e (-53)), (ZC4 6305039478318694 m).
    destruct (e ?= -53); cbn [CompOpp]; [|done..].
    by destruct (Pos.compare_cont Eq m 6305039478318694).
Qed.

(** C5.  A confidence of 0.69 drops the detected encoding, so the
    candidates are the fallback list; a confidence of 0.70 keeps it as the
    first candidate; for a confidence that is a number, acceptance is
    [0.70 <= confidence]. *)
Theorem confidence_gate (encoding : str) (c : float) :
  encoding ≠ [] → (0 <=? c)%float = true →
  accepted_encoding (Detected (Some encoding) conf_069) = None
  ∧ candidates (Detected (Some encoding) conf_069) = fallback_encodings
  ∧ accepted_encoding (Detected (Some encoding) threshold) = Some encoding
  ∧ head (candidates (Detected (Some encoding) threshold)) = Some encoding
  ∧ (accepted_encoding (Detected (Some encoding) c) = Some encoding
     ↔ (threshold <=? c)%float = true).
Proof.
  intros Hne Hc. split; [reflexivity|]. split; [vm_compute; reflexivity|].
  split; [reflexivity|]. split.
  - unfold candidates.
    change (accepted_encoding (Detected (Some encoding) threshold))
      with (Some encoding).
    unfold encodings_to_try. destruct encoding as [|a encoding]; [done|].
    cbn [truthy app unique_encodings andb].
    rewrite bool_decide_eq_false_2 by apply not_elem_of_empty. done.
  - cbn [accepted_encoding]. rewrite (not_below_threshold c Hc).
    destruct (threshold <=? c)%float; cbn; split; done.
Qed.

Lemma confidence_gate_witness :
  accepted_encoding (Detected (Some (lit "Windows-1252")) conf_069) = None
  ∧ head (candidates (Detected (Some (lit "Windows-1252")) threshold))
    = Some (lit "Windows-1252").
Proof.
  destruct (confidence_gate (lit "Windows-1252") 0.5%float) as (H1 & _ & _ & H4 & _).
  - discriminate.
  - vm_compute. reflexivity.
  - split; [exact H1 | exact H4].
Defined.

(** ** Relocation under [base_dir] *)

(** C6 as stated fails: a directory that ends in [deepcode_lab] is replaced
    by [base_dir] itself, not by a directory under [base_dir/papers]. *)
Lemma sentinel_moves_to_base_dir :
  existsb (λ suffix, ends_with suffix (lit "/home/u/deepcode_lab")) sentinel_names
  = true
  ∧ (relocate_paper_dir (Some (lit "/out")) (Some (lit "/home/u/deepcode_lab")) ∅).1
    = Some (lit "/out")
  ∧ path_join (path_join (lit "/out") (lit "papers"))
      (basename (lit "/home/u/deepcode_lab"))
    = lit "/out/papers/deepcode_lab"
  ∧ (relocate_paper_dir (Some (lit "/out")) (Some (lit "/home/u/deepcode_lab")) ∅).1
    ≠ Some (lit "/out/papers/deepcode_lab").
Proof. repeat split; try reflexivity. discriminate. Qed.

(** C6, amended.  With [base_dir] supplied, a paper directory that ends in a
    sentinel name becomes [base_dir], any other becomes
    [base_dir/papers/<name of the directory>]; the new directory exists
    afterwards and no directory is lost. *)
Theorem relocate_paper_dir_spec (base_dir paper_dir : str) (dirs : gset str) :
  base_dir ≠ [] → paper_dir ≠ [] →
  let new_dir :=
    if existsb (λ suffix, ends_with suffix paper_dir) sentinel_names
    then base_dir
    else path_join (path_join base_dir (lit "papers")) (basename paper_dir) in
  (relocate_paper_dir (Some base_dir) (Some paper_dir) dirs).1 = Some new_dir
  ∧ new_dir ∈ (relocate_paper_dir (Some base_dir) (Some paper_dir) dirs).2
  ∧ dirs ⊆ (relocate_paper_dir (Some base_dir) (Some paper_dir) dirs).2.
Proof.
  intros Hb Hp new_dir. unfold relocate_paper_dir.
  destruct base_dir as [|b0 b]; [done|]. destruct paper_dir as [|p0 p]; [done|].
  cbn [truthy andb fst snd]. fold new_dir. unfold makedirs.
  split; [done|]. split; set_solver.
Qed.

Lemma relocate_paper_dir_spec_witness :
  (relocate_paper_dir (Some (lit "/out")) (Some (lit "/lab/paper_1")) ∅).1
  = Some (lit "/out/papers/paper_1").
Proof.
  destruct (relocate_paper_dir_spec (lit "/out") (lit "/lab/paper_1") ∅) as (H & _ & _).
  - discriminate.
  - discriminate.
  - exact H.
Defined.

(** * Further properties *)

(** *** Paths *)

Lemma starts_with_app {A} `{EqDecision A} (p s : list A) :
  starts_with p (p ++ s) = true.
Proof.
  induction p as [|a p IH]; [done|]. cbn. by rewrite bool_decide_eq_true_2, IH.
Qed.

Lemma starts_with_iff {A} `{EqDecision A} (p s : list A) :
  starts_with p s = true ↔ ∃ t, s = p ++ t.
Proof.
  split.
  - revert s. induction p as [|a p IH]; intros s; [by exists s|].
    destruct s as [|c s]; [done|]. cbn.
    intros [Hac Hp]%andb_true_iff. apply bool_decide_eq_true in Hac as ->.
    destruct (IH s Hp) as [t ->]. by exists t.
  - intros [t ->]. apply starts_with_app.
Qed.

Lemma ends_with_iff suffix s :
  ends_with suffix s = true ↔ ∃ t, s = t ++ suffix.
Proof.
  unfold ends_with. rewrite starts_with_iff. split.
  - intros [t E]. exists (rev t). apply (f_equal (@rev ascii)) in E.
    by rewrite rev_involutive, rev_app_distr, rev_involutive in E.
  - intros [t ->]. exists (rev t). by rewrite rev_app_distr.
Qed.

Lemma path_join_ends a b : ends_with b (path_join a b) = true.
Proof.
  apply ends_with_iff. unfold path_join.
  destruct (starts_with _ b); [by exists []|].
  destruct (_ || _); [by exists a|]. exists (a ++ ["/"%char]).
  by rewrite <- app_assoc.
Qed.

Lemma ends_with_trans a b c :
  ends_with a b = true → ends_with b c = true → ends_with a c = true.
Proof.
  rewrite !ends_with_iff. intros [t ->] [u ->]. exists (u ++ t).
  by rewrite app_assoc.
Qed.

(** *** [find_markdown_file] *)

Lemma first_markdown_spec directory files :
  match first_markdown directory files with
  | Some p =>
      ∃ before file after,
        files = before ++ file :: after
        ∧ Forall (λ f, ends_with md_suffix f = false) before
        ∧ ends_with md_suffix file = true
        ∧ p = path_join directory file
  | None => Forall (λ f, ends_with md_suffix f = false) files
  end.
Proof.
  induction files as [|f files IH]; cbn [first_markdown]; [constructor|].
  destruct (ends_with md_suffix f) eqn:Ef.
  - by exists [], f, files.
  - destruct (first_markdown directory files) as [p|].
    + destruct IH as (before & file & after & -> & Hb & Hf & ->).
      exists (f :: before), file, after. split; [done|]. split; [by constructor|done].
    + by constructor.
Qed.

(** X1.  [find_markdown_file] answers with the first entry of the listing
    that ends in [.md], joined to the directory; the path it returns ends in
    [.md]; it answers [None] exactly when the directory does not exist or
    none of its entries ends in [.md]. *)
Theorem find_markdown_file_first listdir directory :
  match find_markdown_file listdir directory with
  | Some p =>
      ∃ before file after,
        listdir directory = Some (before ++ file :: after)
        ∧ Forall (λ f, ends_with md_suffix f = false) before
        ∧ ends_with md_suffix file = true
        ∧ p = path_join directory file
        ∧ ends_with md_suffix p = true
  | None =>
      listdir directory = None
      ∨ ∃ files, listdir directory = Some files
          ∧ Forall (λ f, ends_with md_suffix f = false) files
  end.
Proof.
  unfold find_markdown_file. destruct (listdir directory) as [files|]; [|by left].
  pose proof (first_markdown_spec directory files) as H.
  destruct (first_markdown directory files) as [p|].
  - destruct H as (before & file & after & -> & Hb & Hf & ->).
    exists before, file, after. repeat split; try done.
    eapply ends_with_trans; [exact Hf | apply path_join_ends].
  - right. by exists files.
Qed.

(** *** Directory names *)

Lemma basename_no_slash p : no_slash (basename p).
Proof.
  unfold basename, no_slash. apply Forall_rev.
  eapply Forall_impl; [apply span_fst_Forall|]. cbn. intros c Hc.
  by apply negb_true_iff.
Qed.

Lemma basename_after_slash a n :
  no_slash n → basename (a ++ "/"%char :: n) = n.
Proof.
  intros Hn. unfold basename.
  rewrite rev_app_distr. cbn [rev]. rewrite <- app_assoc. cbn [app].
  rewrite span_app; [cbn [fst]; apply rev_involutive| |done].
  apply Forall_rev. eapply Forall_impl; [exact Hn|]. cbn. by intros c ->.
Qed.

Lemma basename_plain n : no_slash n → basename n = n.
Proof.
  intros Hn. unfold basename. rewrite <- (app_nil_r (rev n)).
  rewrite span_app; [cbn [fst]; apply rev_involutive| |done].
  apply Forall_rev. eapply Forall_impl; [exact Hn|]. cbn. by intros c ->.
Qed.

(** A path is its base name, or a head, a slash and its base name. *)
Lemma path_split p :
  p = basename p ∨ ∃ a, p = a ++ "/"%char :: basename p.
Proof.
  unfold basename. destruct (span_split (λ c, negb (is_slash c)) (rev p)) as [E Hh].
  destruct (span _ (rev p)) as [n r]. cbn [fst snd] in *.
  apply (f_equal (@rev ascii)) in E. rewrite rev_involutive, rev_app_distr in E.
  destruct r as [|c r]; [left; by rewrite E|]. right. exists (rev r).
  apply negb_false_iff in Hh. unfold is_slash in Hh. apply Ascii.eqb_eq in Hh as ->.
  rewrite E. cbn [rev]. by rewrite <- app_assoc.
Qed.

Lemma starts_with_before_slash (rs rn x : list ascii) :
  no_slash rs →
  starts_with rs (rn ++ "/"%char :: x) = starts_with rs rn.
Proof.
  intros Hrs. revert rn. induction Hrs as [|a rs Ha _ IH]; intros rn; [done|].
  destruct rn as [|c rn]; cbn.
  - rewrite bool_decide_eq_false_2; [done|]. by intros ->.
  - by rewrite IH.
Qed.

Lemma ends_with_basename s p :
  no_slash s → ends_with s p = ends_with s (basename p).
Proof.
  intros Hs. destruct (path_split p) as [E | [a E]]; [by rewrite <- E|].
  rewrite E at 1. unfold ends_with. rewrite rev_app_distr. cbn [rev].
  rewrite <- app_assoc. cbn [app]. apply starts_with_before_slash.
  by apply Forall_rev.
Qed.

Lemma sentinel_names_no_slash : Forall no_slash sentinel_names.
Proof. repeat constructor. Qed.

Lemma ends_with_sentinel_basename p :
  ends_with_sentinel p = ends_with_sentinel (basename p).
Proof.
  unfold ends_with_sentinel.
  induction sentinel_names_no_slash as [|s l Hs _ IH]; [done|]. cbn.
  by rewrite IH, (ends_with_basename s p Hs).
Qed.

(** Where a directory that is no sentinel goes: under [base_dir/papers],
    spelled out. *)
Lemma papers_dir_shape b name :
  b ≠ [] → no_slash name →
  ∃ x, path_join (path_join b (lit "papers")) name = b ++ x ++ "/"%char :: name
       ∧ path_join b (lit "papers") = b ++ x.
Proof.
  intros Hb Hname.
  assert (E : ∃ x, path_join b (lit "papers") = b ++ x
                   ∧ ends_with ["/"%char] (b ++ x) = false ∧ b ++ x ≠ []).
  { unfold path_join at 1. cbn [starts_with lit list_ascii_of_string].
    rewrite bool_decide_eq_false_2 by done. cbn [andb].
    destruct b as [|b0 b]; [done|]. cbn [truthy negb orb].
    destruct (ends_with _ (b0 :: b)).
    - exists (lit "papers"). split; [done|]. split; [|done].
      unfold ends_with. rewrite rev_app_distr. reflexivity.
    - exists ("/"%char :: lit "papers"). split; [done|]. split; [|done].
      unfold ends_with. rewrite rev_app_distr. reflexivity. }
  destruct E as (x & E & Hend & Hne). exists x. split; [|done].
  rewrite E. unfold path_join.
  replace (starts_with ["/"%char] name) with false.
  2:{ destruct Hname as [|c name Hc _]; [done|]. cbn.
      rewrite bool_decide_eq_false_2; [done|]. intros <-. done. }
  rewrite Hend. destruct (b ++ x) eqn:Ebx; [done|]. cbn [truthy negb orb].
  by rewrite <- Ebx, <- app_assoc.
Qed.

(** X2.  A paper directory that is no sentinel keeps its name: the new
    directory has the same base name, and its path begins with [base_dir]. *)
Theorem relocation_keeps_name (base_dir paper_dir : str) (dirs : gset str) :
  base_dir ≠ [] → paper_dir ≠ [] → ends_with_sentinel paper_dir = false →
  ∃ new_dir,
    (relocate_paper_dir (Some base_dir) (Some paper_dir) dirs).1 = Some new_dir
    ∧ basename new_dir = basename paper_dir
    ∧ starts_with base_dir new_dir = true.
Proof.
  intros Hb Hp Hs. unfold relocate_paper_dir.
  destruct base_dir as [|b0 b]; [done|]. destruct paper_dir as [|p0 p]; [done|].
  cbn [truthy andb]. fold (ends_with_sentinel (p0 :: p)). rewrite Hs.
  destruct (papers_dir_shape (b0 :: b) (basename (p0 :: p)))
    as (x & E & _); [done | apply basename_no_slash |].
  eexists. split; [done|]. cbn [fst]. rewrite E. split.
  - rewrite app_assoc. apply basename_after_slash, basename_no_slash.
  - apply starts_with_app.
Qed.

Lemma relocation_keeps_name_witness :
  ∃ new_dir,
    (relocate_paper_dir (Some (lit "/out")) (Some (lit "/lab/paper_1")) ∅).1
    = Some new_dir
    ∧ basename new_dir = lit "paper_1"
    ∧ starts_with (lit "/out") new_dir = true.
Proof.
  apply (relocation_keeps_name (lit "/out") (lit "/lab/paper_1") ∅).
  - discriminate.
  - discriminate.
  - reflexivity.
Defined.

(** X3.  Relocating a relocated directory changes nothing: a directory that
    is no sentinel goes to the same place when the block runs again on the
    result. *)
Theorem relocation_idempotent (base_dir paper_dir : str) (dirs dirs' : gset str) :
  base_dir ≠ [] → paper_dir ≠ [] → ends_with_sentinel paper_dir = false →
  (relocate_paper_dir (Some base_dir)
     (relocate_paper_dir (Some base_dir) (Some paper_dir) dirs).1 dirs').1
  = (relocate_paper_dir (Some base_dir) (Some paper_dir) dirs).1.
Proof.
  intros Hb Hp Hs.
  destruct (papers_dir_shape base_dir (basename paper_dir))
    as (x & E & Ex); [done | apply basename_no_slash |].
  assert (E1 : (relocate_paper_dir (Some base_dir) (Some paper_dir) dirs).1
               = Some (base_dir ++ x ++ "/"%char :: basename paper_dir)).
  { unfold relocate_paper_dir.
    destruct base_dir as [|b0 b]; [done|]. destruct paper_dir as [|p0 p]; [done|].
    cbn [truthy andb]. fold (ends_with_sentinel (p0 :: p)). rewrite Hs.
    cbn [fst]. by rewrite E. }
  rewrite E1. set (n := base_dir ++ x ++ "/"%char :: basename paper_dir).
  assert (Hbn : basename n = basename paper_dir).
  { unfold n. rewrite app_assoc. apply basename_after_slash, basename_no_slash. }
  assert (Hn : truthy n = true).
  { unfold n. by destruct base_dir. }
  unfold relocate_paper_dir. destruct base_dir as [|b0 b]; [done|].
  cbn [truthy andb] in *. rewrite Hn. fold (ends_with_sentinel n).
  rewrite (ends_with_sentinel_basename n), Hbn, <- ends_with_sentinel_basename, Hs.
  cbn [fst]. by rewrite E.
Qed.

Lemma relocation_idempotent_witness :
  (relocate_paper_dir (Some (lit "/out"))
     (relocate_paper_dir (Some (lit "/out")) (Some (lit "/lab/paper_1")) ∅).1 ∅).1
  = Some (lit "/out/papers/paper_1").
Proof.
  rewrite (relocation_idempotent (lit "/out") (lit "/lab/paper_1") ∅ ∅).
  - reflexivity.
  - discriminate.
  - discriminate.
  - reflexivity.
Defined.

(** *** The candidate list *)

Lemma unique_encodings_spec encodings : ∀ seen,
  NoDup (map lower (unique_encodings seen encodings))
  ∧ Forall (λ enc, truthy enc = true ∧ lower enc ∉ seen)
      (unique_encodings seen encodings)
  ∧ (∀ enc, enc ∈ encodings → truthy enc = true →
       lower enc ∈ seen ∨ lower enc ∈ map lower (unique_encodings seen encodings))
  ∧ (length (unique_encodings seen encodings) ≤ length encodings)%nat.
Proof.
  induction encodings as [|enc rest IH]; intros seen; cbn [unique_encodings].
  - split; [constructor|]. split; [constructor|]. split; [|done].
    by intros enc Hin%elem_of_nil.
  - destruct (truthy enc) eqn:Ht; cbn [andb].
    + destruct (bool_decide (lower enc ∈ seen)) eqn:Hs; cbn [negb].
      * apply bool_decide_eq_true in Hs.
        destruct (IH seen) as (Hnd & Hall & Hcov & Hlen).
        split; [done|]. split; [done|]. split; [|cbn; lia].
        intros e [->|Hin]%elem_of_cons He; [by left | by apply Hcov].
      * apply bool_decide_eq_false in Hs.
        destruct (IH ({[lower enc]} ∪ seen)) as (Hnd & Hall & Hcov & Hlen).
        split; [|split; [|split]].
        -- cbn [map]. apply NoDup_cons. split; [|done].
           intros Hin%list_elem_of_In%in_map_iff. destruct Hin as (e & He & Hin).
           rewrite Forall_forall in Hall.
           destruct (Hall e) as [_ Hne]; [by apply list_elem_of_In|].
           apply Hne. rewrite He. set_solver.
        -- constructor; [done|]. eapply Forall_impl; [exact Hall|].
           cbn. intros e [? Hne]. split; [done|]. set_solver.
        -- intros e [->|Hin]%elem_of_cons He.
           ++ right. cbn [map]. apply elem_of_cons. by left.
           ++ destruct (Hcov e Hin He) as [Hs'|Hr].
              ** apply elem_of_union in Hs' as [Hs'|Hs']; [|by left].
                 apply elem_of_singleton in Hs'. right. cbn [map].
                 apply elem_of_cons. by left.
              ** right. cbn [map]. apply elem_of_cons. by right.
        -- cbn. lia.
    + destruct (IH seen) as (Hnd & Hall & Hcov & Hlen).
      split; [done|]. split; [done|]. split; [|cbn; lia].
      intros e [->|Hin]%elem_of_cons He; [congruence | by apply Hcov].
Qed.

(** X4.  Whatever the detector answers, no encoding is tried twice, names
    that differ only in case counting as one; no candidate is the empty name;
    every fallback encoding is among the candidates, under its own spelling
    or the detector's; and there are at most eight candidates. *)
Theorem candidates_distinct (d : detection) :
  NoDup (map lower (candidates d))
  ∧ Forall (λ enc, enc ≠ []) (candidates d)
  ∧ (∀ enc, enc ∈ fallback_encodings → lower enc ∈ map lower (candidates d))
  ∧ (length (candidates d) ≤ 8)%nat.
Proof.
  unfold candidates.
  destruct (unique_encodings_spec (encodings_to_try (accepted_encoding d)) ∅)
    as (Hnd & Hall & Hcov & Hlen).
  split; [done|]. split; [|split].
  - eapply Forall_impl; [exact Hall|]. cbn. by intros [|c e] [Ht _].
  - intros enc Hin. destruct (Hcov enc) as [Hs|Hr]; [| |set_solver|done].
    + unfold encodings_to_try. apply elem_of_app. by right.
    + revert enc Hin. apply Forall_forall. by repeat constructor.
  - etrans; [exact Hlen|]. unfold encodings_to_try. rewrite length_app.
    destruct (accepted_encoding d) as [e|]; [destruct (truthy e)|]; cbn; lia.
Qed.

(** *** One call *)

Section EncodingResolverOrder.
Variable detect : bytes → detection.
Variable decode : str → bytes → option str.
Variable decode_replace : bytes → str.
Variable format_mb : Z → str.
Variable printable : message → bool.

Lemma detection_events_no_text file_path raw :
  filter (λ e, is_text_open e = true) (detection_events detect file_path raw) = [].
Proof. unfold detection_events. by destruct (detect raw). Qed.

Lemma text_opens_are_text file_path (encodings : list str) :
  filter (λ e, is_text_open e = true)
    (map (λ e, OpenText file_path e false) encodings)
  = map (λ e, OpenText file_path e false) encodings.
Proof.
  induction encodings as [|e rest IH]; [done|]. cbn [map].
  rewrite filter_cons_True by done. by rewrite IH.
Qed.

Lemma note_events_no_text file_path detected enc :
  filter (λ e, is_text_open e = true) (note_events file_path detected enc) = [].
Proof. unfold note_events. by destruct (note_of _ _ _). Qed.

(** X5.  The first success wins, a success being a candidate that decodes
    the file and whose note, if it has one, is printed: the text returned for
    a file that is no PDF is the strict decoding under the first such
    candidate, and the text of a candidate before it is dropped when its
    note is refused; when there is none, the call returns the forced decoding
    if the warning is printed and raises [IOError] if it is not. *)
Theorem first_success_wins fs file_path data :
  fs file_path = Some (File data) →
  starts_with pdf_magic data = false →
  let detected := accepted_encoding (detect (take (Z.to_nat 10000) data)) in
  let encodings := candidates (detect (take (Z.to_nat 10000) data)) in
  let result :=
    (read_file_content detect decode decode_replace format_mb printable fs
       file_path).1 in
  (∃ failed enc rest text,
     encodings = failed ++ enc :: rest
     ∧ Forall (λ e, wins decode printable file_path data detected e = false)
         failed
     ∧ decode enc data = Some text
     ∧ note_printed printable file_path detected enc = true
     ∧ result = Return text)
  ∨ (Forall (λ e, wins decode printable file_path data detected e = false)
       encodings
     ∧ result = if printable (InvalidUtf8 file_path)
                then Return (decode_replace data) else RaiseIOError).
Proof.
  intros Hfs Hpdf detected encodings result.
  unfold result, read_file_content. rewrite Hfs.
  rewrite starts_with_take by (cbn; lia). rewrite Hpdf.
  pose proof (try_encodings_spec decode printable file_path data detected
                encodings) as H.
  fold detected encodings.
  destruct (try_encodings _ _ _ _ detected encodings) as [[text|] tr].
  - left. destruct H as (failed & enc & rest & E & Hf & He & Hn & _).
    by exists failed, enc, rest, text.
  - right. destruct H as [Hf _]. split; [done|].
    by destruct (printable (InvalidUtf8 file_path)).
Qed.

(** X6.  The reads in text mode of one call, in order: one strict read per
    candidate up to the first that decodes the file and has its note
    printed, and the read with replacement after them only when no candidate
    is one. *)
Theorem text_reads_in_order fs file_path data :
  fs file_path = Some (File data) →
  starts_with pdf_magic data = false →
  let detected := accepted_encoding (detect (take (Z.to_nat 10000) data)) in
  let encodings := candidates (detect (take (Z.to_nat 10000) data)) in
  let reads :=
    filter (λ e, is_text_open e = true)
      (read_file_content detect decode decode_replace format_mb printable fs
         file_path).2 in
  (∃ failed enc rest,
     encodings = failed ++ enc :: rest
     ∧ Forall (λ e, wins decode printable file_path data detected e = false)
         failed
     ∧ wins decode printable file_path data detected enc = true
     ∧ reads = map (λ e, OpenText file_path e false) (failed ++ [enc]))
  ∨ (Forall (λ e, wins decode printable file_path data detected e = false)
       encodings
     ∧ reads = map (λ e, OpenText file_path e false) encodings
               ++ [OpenText file_path (lit "utf-8") true]).
Proof.
  intros Hfs Hpdf detected encodings reads.
  unfold reads, read_file_content. rewrite Hfs.
  rewrite starts_with_take by (cbn; lia). rewrite Hpdf.
  pose proof (try_encodings_spec decode printable file_path data detected
                encodings) as H.
  fold detected encodings.
  destruct (try_encodings _ _ _ _ detected encodings) as [[text|] tr].
  - left. destruct H as (failed & enc & rest & E & Hf & He & Hn & ->).
    exists failed, enc, rest. split; [done|]. split; [done|]. split.
    { unfold wins. rewrite He, Hn.
      by rewrite bool_decide_eq_true_2 by by eexists. }
    cbn [snd]. rewrite filter_app, filter_cons_False by done.
    rewrite detection_events_no_text. cbn [app].
    by rewrite filter_app, text_opens_are_text, note_events_no_text, app_nil_r.
  - right. destruct H as [Hf ->]. split; [done|].
    destruct (printable (InvalidUtf8 file_path)); cbn [snd];
      rewrite !filter_app, filter_cons_False by done;
      rewrite detection_events_no_text, text_opens_are_text; cbn [app];
      rewrite filter_cons_True by done; [by rewrite filter_cons_False|done].
Qed.

(** A file is read when the output takes every message. *)
Lemma read_file_content_returns fs file_path data :
  (∀ m, printable m = true) →
  fs file_path = Some (File data) →
  ∃ text,
    (read_file_content detect decode decode_replace format_mb printable fs
       file_path).1 = Return text.
Proof.
  intros Hp Hfs. unfold read_file_content. rewrite Hfs, !Hp.
  destruct (starts_with pdf_magic (take 10 data)); [by eexists|].
  destruct (try_encodings _ _ _ _ _ _) as [[text|] tr]; by eexists.
Qed.

(** X7.  When [read_file_content] raises.  [FileNotFoundError] exactly when
    the path names nothing; [IOError] for a directory; and for a file
    exactly when a message is refused by the output: the notice, for a PDF,
    or else the warning, after every candidate has failed to decode the file
    or to have its note printed. *)
Theorem raising_calls fs file_path :
  let result :=
    (read_file_content detect decode decode_replace format_mb printable fs
       file_path).1 in
  (result = RaiseFileNotFoundError ↔ fs file_path = None)
  ∧ (fs file_path = Some Directory → result = RaiseIOError)
  ∧ (∀ data, fs file_path = Some (File data) →
       (result = RaiseIOError ↔
        if starts_with pdf_magic data
        then printable (PdfDetected file_path) = false
        else
          Forall (λ e, wins decode printable file_path data
                         (accepted_encoding
                            (detect (take (Z.to_nat 10000) data))) e = false)
            (candidates (detect (take (Z.to_nat 10000) data)))
          ∧ printable (InvalidUtf8 file_path) = false)).
Proof.
  cbn zeta. unfold read_file_content.
  destruct (fs file_path) as [[data|]|] eqn:Hfs.
  - split; [|split; [done|]].
    { rewrite starts_with_take by (cbn; lia). split; [|done].
      destruct (starts_with pdf_magic data).
      - by destruct (printable _).
      - destruct (try_encodings _ _ _ _ _ _) as [[text|] tr]; [done|].
        by destruct (printable _). }
    intros data' [= <-]. rewrite starts_with_take by (cbn; lia).
    destruct (starts_with pdf_magic data).
    { destruct (printable _); cbn [fst]; by split. }
    pose proof (try_encodings_spec decode printable file_path data
      (accepted_encoding (detect (take (Z.to_nat 10000) data)))
      (candidates (detect (take (Z.to_nat 10000) data)))) as H.
    destruct (try_encodings _ _ _ _ _ _) as [[text|] tr].
    + destruct H as (failed & enc & rest & E & _ & He & Hn & _).
      cbn [fst]. split; [done|]. intros [Hall _]. exfalso.
      rewrite E in Hall. apply Forall_app in Hall as [_ Hall].
      apply Forall_inv in Hall. unfold wins in Hall. rewrite He, Hn in Hall.
      by rewrite bool_decide_eq_true_2 in Hall by by eexists.
    + destruct H as [Hall _].
      destruct (printable (InvalidUtf8 file_path)); cbn [fst].
      * split; [done|]. by intros [_ ?].
      * by split.
  - cbn [fst]. split; [by split|]. by split.
  - cbn [fst]. split; [by split|]. split; [done|]. by intros data [=].
Qed.

End EncodingResolverOrder.

Lemma first_success_wins_witness :
  let detect := λ _ : bytes, Detected (Some (lit "ascii")) 1 in
  let decode := λ (enc : str) (_ : bytes),
    if bool_decide (enc = lit "ascii") then None else Some enc in
  let printable := λ m,
    match m with
    | ReadWith _ enc _ => bool_decide (enc = lit "latin1")
    | _ => true
    end in
  let fs := λ _ : str, Some (File [x41; xe9]%byte) in
  let detected := Some (lit "ascii") in
  let encodings := candidates (Detected (Some (lit "ascii")) 1) in
  let result :=
    (read_file_content detect decode (λ _, lit "?") (λ _, []) printable fs
       (lit "a.md")).1 in
  (∃ failed enc rest text,
     encodings = failed ++ enc :: rest
     ∧ Forall (λ e, wins decode printable (lit "a.md") [x41; xe9]%byte detected e
                    = false) failed
     ∧ decode enc [x41; xe9]%byte = Some text
     ∧ note_printed printable (lit "a.md") detected enc = true
     ∧ result = Return text)
  ∨ (Forall (λ e, wins decode printable (lit "a.md") [x41; xe9]%byte detected e
                  = false) encodings
     ∧ result = if printable (InvalidUtf8 (lit "a.md"))
                then Return (lit "?") else RaiseIOError).
Proof.
  intros detect decode printable fs detected encodings result.
  apply (first_success_wins detect decode (λ _, lit "?") (λ _, []) printable fs
           (lit "a.md") [x41; xe9]%byte).
  - reflexivity.
  - reflexivity.
Defined.

Lemma text_reads_in_order_witness :
  let decode := λ (enc : str) (_ : bytes),
    if bool_decide (enc = lit "utf-8-sig") then Some (lit "A") else None in
  let printable := λ _ : message, true in
  let fs := λ _ : str, Some (File [x41]%byte) in
  let encodings := candidates Unavailable in
  let reads :=
    filter (λ e, is_text_open e = true)
      (read_file_content (λ _, Unavailable) decode (λ _, lit "?") (λ _, [])
         printable fs (lit "a.md")).2 in
  (∃ failed enc rest,
     encodings = failed ++ enc :: rest
     ∧ Forall (λ e, wins decode printable (lit "a.md") [x41]%byte None e = false)
         failed
     ∧ wins decode printable (lit "a.md") [x41]%byte None enc = true
     ∧ reads = map (λ e, OpenText (lit "a.md") e false) (failed ++ [enc]))
  ∨ (Forall (λ e, wins decode printable (lit "a.md") [x41]%byte None e = false)
       encodings
     ∧ reads = map (λ e, OpenText (lit "a.md") e false) encodings
               ++ [OpenText (lit "a.md") (lit "utf-8") true]).
Proof.
  intros decode printable fs encodings reads.
  apply (text_reads_in_order (λ _, Unavailable) decode (λ _, lit "?") (λ _, [])
           printable fs (lit "a.md") [x41]%byte).
  - reflexivity.
  - reflexivity.
Defined.

(** *** Sections and heading lines *)

Lemma length_heading_lines lines :
  length (heading_lines lines)
  = length (filter (λ l, is_heading l = true) lines).
Proof.
  induction lines as [|l lines IH]; [done|]. rewrite heading_lines_cons.
  unfold line_heading. destruct (header_match l) as [[k g]|] eqn:E.
  - rewrite filter_cons_True by (unfold is_heading; by rewrite E).
    cbn. by rewrite IH.
  - rewrite filter_cons_False by (unfold is_heading; by rewrite E). done.
Qed.

(** X8.  The parser returns on every text.  Its tree has one section per
    heading line of the text, in the order of the lines when read in
    pre-order, with the number of [#] as level and the stripped rest of the
    line as title. *)
Theorem sections_are_heading_lines (text : str) :
  ∃ trees, parse_markdown_sections text = Some trees
    ∧ headings trees = heading_lines (split_nl text)
    ∧ length (flat_map preorder trees)
      = length (filter (λ l, is_heading l = true) (split_nl text)).
Proof.
  destruct (parse_spec text) as (trees & Hp & Epre). exists trees.
  split; [done|]. destruct (headings_parse text trees Hp) as [Eh _].
  split; [done|].
  rewrite <- length_heading_lines, <- Eh. unfold headings. by rewrite length_map.
Qed.

(** X9.  Every section of a parsed tree has a level from 1 to 6, a title
    without a newline, and a title and a content that [strip] leaves as they
    are: no whitespace at either end. *)
Theorem parsed_fields_trimmed (text : str) :
  ∃ trees, parse_markdown_sections text = Some trees
    ∧ Forall (λ p : Z * str * str,
        1 <= p.1.1 <= 6 ∧ no_newline p.1.2
        ∧ strip p.1.2 = p.1.2 ∧ strip p.2 = p.2)
        (flat_map preorder trees).
Proof.
  destruct (parse_spec text) as (trees & Hp & _). exists trees. split; [done|].
  destruct (headings_parse text trees Hp) as [_ Hs].
  eapply Forall_impl; [exact Hs|]. cbn. by intros p [(? & ? & ?) ?].
Qed.

(** *** Content of a section *)

Lemma join_split_nl s : join_nl (split_nl s) = s.
Proof.
  induction s as [|c s IH]; [done|]. cbn [split_nl].
  destruct (split_nl_nonempty s) as (l & ls & E). rewrite E in IH |- *.
  destruct (is_nl c) eqn:Hc.
  - unfold is_nl in Hc. apply Ascii.eqb_eq in Hc as ->.
    change (join_nl ([] :: l :: ls)) with (nl :: join_nl (l :: ls)).
    by rewrite IH.
  - rewrite <- IH. by destruct ls.
Qed.

Lemma fold_scan_body lines : ∀ sofar cur content,
  Forall (λ l, is_heading l = false) lines →
  fold_left scan_line lines (mkScan sofar (Some cur) content)
  = mkScan sofar (Some cur) (content ++ lines).
Proof.
  induction lines as [|l lines IH]; intros sofar cur content Hl.
  - by rewrite app_nil_r.
  - apply Forall_cons in Hl as [Hl Hls]. cbn [fold_left].
    unfold scan_line at 2. unfold is_heading in Hl.
    destruct (header_match l); [done|]. cbn.
    rewrite IH by done. by rewrite <- app_assoc.
Qed.

(** X10.  A heading line followed by text without heading lines gives one
    section, and its content is that text, stripped: nothing inside it is
    lost or changed. *)
Theorem content_is_body (line body : str) (k : nat) (g : str) :
  no_newline line → header_match line = Some (k, g) →
  Forall (λ l, is_heading l = false) (split_nl body) →
  parse_markdown_sections (line ++ nl :: body)
  = Some [Node (Z.of_nat k) (strip g) (strip body) []].
Proof.
  intros Hnl Hm Hbody. unfold parse_markdown_sections, scan.
  rewrite split_nl_app, (split_nl_no_newline line Hnl). cbn [app fold_left].
  unfold scan_line at 2. rewrite Hm. cbn.
  rewrite fold_scan_body by done. cbn [app].
  unfold scan_finish, close_section. cbn. by rewrite join_split_nl.
Qed.

Lemma content_is_body_witness :
  parse_markdown_sections (lit "## Setup " ++ nl :: lit "  run it" ++ nl :: lit " ")
  = Some [Node 2 (lit "Setup") (lit "run it") []].
Proof.
  apply (content_is_body (lit "## Setup ") (lit "  run it" ++ nl :: lit " ") 2
           (lit "Setup ")).
  - by repeat constructor.
  - reflexivity.
  - by repeat constructor.
Defined.

(** *** Texts put together *)

Lemma fold_scan_prefix lines : ∀ before sofar cur content,
  fold_left scan_line lines (mkScan (before ++ sofar) cur content)
  = let st := fold_left scan_line lines (mkScan sofar cur content) in
    mkScan (before ++ sections st) (current_section st) (current_content st).
Proof.
  induction lines as [|l lines IH]; intros before sofar cur content; [done|].
  cbn [fold_left].
  assert (E : scan_line (mkScan (before ++ sofar) cur content) l
              = let st := scan_line (mkScan sofar cur content) l in
                mkScan (before ++ sections st) (current_section st)
                  (current_content st)).
  { unfold scan_line. destruct (header_match l) as [[k g]|]; cbn.
    - destruct cur; [by rewrite <- app_assoc | done].
    - by destruct cur. }
  rewrite E. cbn zeta.
  destruct (scan_line (mkScan sofar cur content) l) as [s c cc]. apply IH.
Qed.

Lemma scan_app_heading a b :
  is_heading (hd [] (split_nl b)) = true →
  scan (a ++ nl :: b) = scan a ++ scan b.
Proof.
  intros Hb. unfold scan. rewrite split_nl_app, fold_left_app.
  destruct (split_nl_nonempty b) as (l & ls & E). rewrite E in Hb |- *.
  cbn [hd] in Hb. cbn [fold_left].
  set (st := fold_left scan_line (split_nl a) (mkScan [] None [])).
  unfold is_heading in Hb.
  destruct (header_match l) as [[k g]|] eqn:Hm; [|done].
  assert (E1 : scan_line st l
               = mkScan (scan_finish st ++ []) (Some (Z.of_nat k, strip g)) []).
  { unfold scan_line, scan_finish. rewrite Hm. by rewrite app_nil_r. }
  assert (E2 : scan_line (mkScan [] None []) l
               = mkScan [] (Some (Z.of_nat k, strip g)) []).
  { unfold scan_line. by rewrite Hm. }
  rewrite E1, E2, fold_scan_prefix. cbn zeta.
  generalize (scan_finish st). intros before.
  destruct (fold_left scan_line ls _) as [s [c|] cc]; unfold scan_finish; cbn.
  - by rewrite <- app_assoc.
  - done.
Qed.

(** X11.  Two texts put together, the second beginning with a heading line:
    the sections of the whole, in pre-order, are the sections of the first
    followed by the sections of the second, levels, titles and contents
    unchanged. *)
Theorem sections_of_concatenation (a b : str) :
  is_heading (hd [] (split_nl b)) = true →
  ∃ ta tb tab,
    parse_markdown_sections a = Some ta
    ∧ parse_markdown_sections b = Some tb
    ∧ parse_markdown_sections (a ++ nl :: b) = Some tab
    ∧ flat_map preorder tab = flat_map preorder ta ++ flat_map preorder tb.
Proof.
  intros Hb.
  destruct (parse_spec a) as (ta & Ha & Ea).
  destruct (parse_spec b) as (tb & Hpb & Eb).
  destruct (parse_spec (a ++ nl :: b)) as (tab & Hab & Eab).
  exists ta, tb, tab. repeat split; try done.
  by rewrite Eab, Ea, Eb, scan_app_heading, map_app.
Qed.

Lemma sections_of_concatenation_witness :
  ∃ ta tb tab,
    parse_markdown_sections (lit "# A") = Some ta
    ∧ parse_markdown_sections (lit "## B") = Some tb
    ∧ parse_markdown_sections (lit "# A" ++ nl :: lit "## B") = Some tab
    ∧ flat_map preorder tab = flat_map preorder ta ++ flat_map preorder tb.
Proof.
  apply (sections_of_concatenation (lit "# A") (lit "## B")). reflexivity.
Defined.

(** *** The parent rule *)

Lemma pop_stack_alter (h : heap) c p lvl st :
  pop_stack (alter (add_subsection c) p h) lvl st = pop_stack h lvl st.
Proof.
  induction st as [|top below IH]; [done|]. cbn [pop_stack].
  pose proof (level_alter h c p top) as E.
  destruct (alter _ p h !! top) as [s'|], (h !! top) as [s|]; try done.
  cbn in E |- *. injection E as ->. by rewrite IH.
Qed.

Lemma pop_stack_twice (h : heap) lvl lvl' st st' :
  lvl <= lvl' → pop_stack h lvl' st = Some st' →
  pop_stack h lvl st' = pop_stack h lvl st.
Proof.
  intros Hle. induction st as [|top below IH]; cbn [pop_stack].
  - by intros [= <-].
  - destruct (h !! top) as [s|] eqn:Hs; [|done]. cbn.
    destruct (lvl' <=? level s) eqn:H1.
    + intros Hp. rewrite (IH Hp).
      replace (lvl <=? level s) with true; [done|].
      symmetry. apply Z.leb_le. apply Z.leb_le in H1. lia.
    + intros [= <-]. cbn [pop_stack]. by rewrite Hs.
Qed.

Lemma children_of_S levels p i :
  children_of levels p (S i)
  = children_of levels p i ++ (if bool_decide (parent_of levels i = p) then [i] else []).
Proof.
  unfold children_of. rewrite seq_S, List.filter_app. cbn.
  by destruct (bool_decide _).
Qed.

Lemma parent_inv_init flat : is_flat flat → parent_inv flat 0 flat [] [].
Proof.
  intros Hflat. split; [done|]. split; [|split; [done|split]].
  - intros x. by rewrite list_lookup_fmap.
  - intros p s Hs. unfold is_flat in Hflat. rewrite Forall_lookup in Hflat.
    by rewrite (Hflat _ _ Hs).
  - intros lvl. by exists [].
Qed.

Lemma parent_inv_step flat i h result st :
  parent_inv flat i h result st → (i < length flat)%nat →
  ∃ h' result' st',
    organize_step (h, result, st) i = Some (h', result', st')
    ∧ parent_inv flat (S i) h' result' st'.
Proof.
  intros (Hlen & Hlev & Hres & Hsub & Hpop) Hi.
  destruct (lookup_lt_is_Some_2 h i) as [sec Hsec]; [lia|].
  assert (Hli : map level flat !! i = Some (level sec)).
  { rewrite <- Hlev, Hsec. done. }
  assert (Hpar : parent_of (map level flat) i
                 = nearest_shallower (map level flat) (level sec) i).
  { unfold parent_of. by rewrite Hli. }
  destruct (Hpop (level sec)) as (st' & Hst' & Hhead).
  unfold organize_step. rewrite Hsec. cbn. rewrite Hst'. cbn.
  assert (Hnext : ∀ h', (∀ lvl s, pop_stack h' lvl s = pop_stack h lvl s) →
            h' !! i = Some sec ∨ (∃ s', h' !! i = Some s' ∧ level s' = level sec) →
            ∀ lvl, ∃ s, pop_stack h' lvl (i :: st') = Some s
              ∧ head s = nearest_shallower (map level flat) lvl (S i)).
  { intros h' Hsame Hi' lvl. cbn [pop_stack nearest_shallower]. rewrite Hli.
    assert (∃ s', h' !! i = Some s' ∧ level s' = level sec) as (s' & -> & El).
    { destruct Hi' as [?|?]; [by exists sec | done]. }
    cbn. rewrite El.
    destruct (lvl <=? level sec) eqn:Hle.
    - replace (level sec <? lvl) with false
        by (symmetry; apply Z.ltb_ge; by apply Z.leb_le).
      rewrite Hsame, (pop_stack_twice h lvl (level sec) st st');
        [apply Hpop | by apply Z.leb_le | done].
    - replace (level sec <? lvl) with true
        by (symmetry; apply Z.ltb_lt; by apply Z.leb_gt).
      by exists (i :: st'). }
  destruct st' as [|top below]; cbn [head] in Hhead.
  - exists h, (result ++ [i]), [i]. split; [done|].
    split; [done|]. split; [done|]. split; [|split].
    + rewrite children_of_S, Hres, Hpar, <- Hhead.
      by rewrite bool_decide_eq_true_2.
    + intros p s Hs. rewrite children_of_S, (Hsub p s Hs), Hpar, <- Hhead.
      rewrite bool_decide_eq_false_2 by done. by rewrite app_nil_r.
    + apply Hnext; [done | by left].
  - assert (Htop : is_Some (h !! top)).
    { clear Hnext. revert Hst'. clear. revert top below.
      induction st as [|t st IH]; intros top below; cbn [pop_stack]; [done|].
      destruct (h !! t) as [s|] eqn:Hs; [|done]. cbn.
      destruct (_ <=? _); [apply IH|]. intros [= <- <-]. by eexists. }
    destruct Htop as [stop Hstop]. rewrite Hstop. cbn.
    exists (alter (add_subsection i) top h), result, (i :: top :: below).
    split; [done|].
    assert (Hne : top ≠ i).
    { intros ->. symmetry in Hhead.
      revert Hhead. clear. generalize (level sec). intros lvl.
      assert (H : ∀ j r, nearest_shallower (map level flat) lvl j = Some r → (r < j)%nat).
      { induction j as [|j IH]; intros r; cbn; [done|].
        destruct (_ !! j) as [l|]; [destruct (l <? lvl)|].
        - intros [= <-]. lia.
        - intros Hr%IH. lia.
        - intros Hr%IH. lia. }
      intros Hr%H. lia. }
    split; [by rewrite length_alter|]. split; [|split; [|split]].
    + intros x. by rewrite level_alter.
    + rewrite children_of_S, Hres, Hpar, <- Hhead.
      rewrite bool_decide_eq_false_2 by done. by rewrite app_nil_r.
    + intros p s. destruct (decide (top = p)) as [<-|Hp].
      * rewrite list_lookup_alter_eq, Hstop. intros [= <-].
        cbn [add_subsection subsections].
        rewrite children_of_S, (Hsub top stop Hstop), Hpar, <- Hhead.
        by rewrite bool_decide_eq_true_2.
      * rewrite list_lookup_alter_ne by done. intros Hs.
        rewrite children_of_S, (Hsub p s Hs), Hpar, <- Hhead.
        rewrite bool_decide_eq_false_2 by congruence. by rewrite app_nil_r.
    + apply Hnext; [intros; apply pop_stack_alter|]. left.
      by rewrite list_lookup_alter_ne.
Qed.

Lemma parent_inv_loop flat k : ∀ i h result st,
  parent_inv flat i h result st → (i + k = length flat)%nat →
  ∃ h' result' st',
    organize_loop (h, result, st) (seq i k) = Some (h', result', st')
    ∧ parent_inv flat (length flat) h' result' st'.
Proof.
  induction k as [|k IH]; intros i h result st Hinv Hk.
  - exists h, result, st. split; [done|]. by replace (length flat) with i by lia.
  - destruct (parent_inv_step _ _ _ _ _ Hinv) as (h1 & r1 & s1 & Hstep & Hinv1); [lia|].
    destruct (IH (S i) h1 r1 s1 Hinv1) as (h2 & r2 & s2 & Hloop & Hinv2); [lia|].
    exists h2, r2, s2. split; [|done].
    change (seq i (S k)) with (i :: seq (S i) k). cbn [organize_loop].
    by rewrite Hstep.
Qed.

Lemma nearest_shallower_spec levels lvl j :
  match nearest_shallower levels lvl j with
  | Some p =>
      (p < j)%nat ∧ (∃ l, levels !! p = Some l ∧ l < lvl)
      ∧ ∀ k l, (p < k < j)%nat → levels !! k = Some l → lvl <= l
  | None => ∀ k l, (k < j)%nat → levels !! k = Some l → lvl <= l
  end.
Proof.
  induction j as [|j IH]; cbn [nearest_shallower]; [intros; lia|].
  destruct (levels !! j) as [l|] eqn:Hl.
  - destruct (l <? lvl) eqn:Hlt.
    + split; [lia|]. split; [exists l; split; [done|]; by apply Z.ltb_lt|].
      intros; lia.
    + apply Z.ltb_ge in Hlt. destruct (nearest_shallower levels lvl j) as [p|].
      * destruct IH as (Hp & Hlp & Hbetween). split; [lia|]. split; [done|].
        intros k l' Hk Hl'. destruct (decide (k = j)) as [->|Hne].
        -- rewrite Hl in Hl'. by injection Hl' as <-.
        -- apply (Hbetween k); [lia|done].
      * intros k l' Hk Hl'. destruct (decide (k = j)) as [->|Hne].
        -- rewrite Hl in Hl'. by injection Hl' as <-.
        -- apply (IH k); [lia|done].
  - destruct (nearest_shallower levels lvl j) as [p|].
    + destruct IH as (Hp & Hlp & Hbetween). split; [lia|]. split; [done|].
      intros k l' Hk Hl'. destruct (decide (k = j)) as [->|Hne]; [congruence|].
      apply (Hbetween k); [lia|done].
    + intros k l' Hk Hl'. destruct (decide (k = j)) as [->|Hne]; [congruence|].
      apply (IH k); [lia|done].
Qed.

(** X12.  The parent rule.  On a flat sequence the builder makes each section
    a subsection of the nearest section before it that is strictly
    shallower, and a root when there is none: the result lists, in order,
    the sections without such a section, and the [subsections] of a section
    lists, in order, those whose nearest shallower section it is. *)
Theorem nearest_shallower_parent (flat : list section_dict) :
  is_flat flat →
  let levels := map level flat in
  ∃ h roots,
    _organize_sections flat (seq 0 (length flat)) = Some (h, roots)
    ∧ roots = children_of levels None (length flat)
    ∧ (∀ p s, h !! p = Some s →
         subsections s = children_of levels (Some p) (length flat))
    ∧ (∀ p j, parent_of levels j = Some p →
         (p < j)%nat
         ∧ (∃ lp lj, levels !! p = Some lp ∧ levels !! j = Some lj ∧ lp < lj)
         ∧ ∀ k lk lj, (p < k < j)%nat → levels !! k = Some lk →
             levels !! j = Some lj → lj <= lk).
Proof.
  intros Hflat levels.
  destruct (parent_inv_loop flat (length flat) 0 flat [] [] (parent_inv_init _ Hflat))
    as (h & result & st & Hloop & _ & _ & Hres & Hsub & _); [lia|].
  exists h, result. unfold _organize_sections. rewrite Hloop. cbn.
  split; [done|]. split; [done|]. split; [done|].
  intros p j. unfold parent_of. fold levels.
  destruct (levels !! j) as [lj|] eqn:Hj; [|done]. intros Hp.
  pose proof (nearest_shallower_spec levels lj j) as H. rewrite Hp in H.
  destruct H as (Hlt & (lp & Hlp & Hl) & Hbetween).
  split; [done|]. split; [by exists lp, lj|].
  intros k lk lj' Hk Hlk [= <-]. by apply (Hbetween k).
Qed.

Lemma nearest_shallower_parent_witness :
  ∃ h roots,
    _organize_sections
      [mkSection 2 (lit "a") [] []; mkSection 3 (lit "b") [] [];
       mkSection 3 (lit "c") [] []; mkSection 1 (lit "d") [] []]
      (seq 0 4) = Some (h, roots)
    ∧ roots = [0; 3]%nat
    ∧ (subsections <$> h !! 0%nat) = Some [1; 2]%nat.
Proof.
  destruct (nearest_shallower_parent
    [mkSection 2 (lit "a") [] []; mkSection 3 (lit "b") [] [];
     mkSection 3 (lit "c") [] []; mkSection 1 (lit "d") [] []])
    as (h & roots & Horg & Hroots & Hsub & _).
  - by repeat constructor.
  - exists h, roots. split; [exact Horg|]. split; [exact Hroots|].
    injection Horg as <- _. reflexivity.
Defined.

(** *** Nesting and levels *)

Section Relabel.
Variable g : Z * str * str → str * str.

Lemma relabel_lookup (h : heap) x :
  map (relabel_section g) h !! x = relabel_section g <$> h !! x.
Proof. apply list_lookup_fmap. Qed.

Lemma pop_stack_relabel (h : heap) lvl st :
  pop_stack (map (relabel_section g) h) lvl st = pop_stack h lvl st.
Proof.
  induction st as [|top below IH]; [done|]. cbn [pop_stack].
  rewrite relabel_lookup. destruct (h !! top) as [s|]; [|done]. cbn.
  by rewrite IH.
Qed.

Lemma alter_relabel (h : heap) c p :
  alter (add_subsection c) p (map (relabel_section g) h)
  = map (relabel_section g) (alter (add_subsection c) p h).
Proof.
  symmetry. apply (list_fmap_alter (relabel_section g)).
  apply Forall_forall. by intros [l ti co subs] _.
Qed.

Lemma organize_step_relabel st i :
  organize_step (relabel_state g st) i = relabel_state g <$> organize_step st i.
Proof.
  destruct st as [[h result] stack]. unfold relabel_state. cbn [fst snd].
  unfold organize_step. rewrite relabel_lookup.
  destruct (h !! i) as [sec|]; [|done]. cbn. rewrite pop_stack_relabel.
  destruct (pop_stack h (level sec) stack) as [[|top below]|]; [done| |done].
  cbn. rewrite relabel_lookup. destruct (h !! top); [|done]. cbn.
  by rewrite alter_relabel.
Qed.

Lemma organize_loop_relabel secs : ∀ st,
  organize_loop (relabel_state g st) secs = relabel_state g <$> organize_loop st secs.
Proof.
  induction secs as [|i secs IH]; intros st; [done|]. cbn [organize_loop].
  rewrite organize_step_relabel. destruct (organize_step st i) as [st'|]; [|done].
  cbn. apply IH.
Qed.

Lemma mapM_relabel {A B} (f : A → option B) (T : B → B) (l : list A) :
  mapM (λ x, T <$> f x) l = map T <$> mapM f l.
Proof.
  induction l as [|x l IH]; [done|]. cbn. destruct (f x) as [y|]; [|done].
  cbn. rewrite IH. by destruct (mapM f l).
Qed.

Lemma view_relabel fuel : ∀ (h : heap) r,
  view fuel (map (relabel_section g) h) r = relabel_tree g <$> view fuel h r.
Proof.
  induction fuel as [|fuel IH]; intros h r; [done|]. cbn [view].
  rewrite relabel_lookup. destruct (h !! r) as [s|]; [|reflexivity]. cbn.
  rewrite (mapM_ext _ (λ x, relabel_tree g <$> view fuel h x)) by (intros; apply IH).
  rewrite mapM_relabel. by destruct (mapM (view fuel h) (subsections s)).
Qed.

Lemma build_tree_relabel (flat : list section_dict) :
  build_tree (map (relabel_section g) flat)
  = map (relabel_tree g) <$> build_tree flat.
Proof.
  unfold build_tree, _organize_sections. rewrite length_map.
  pose proof (organize_loop_relabel (seq 0 (length flat)) (flat, [], [])) as E.
  unfold relabel_state at 1 in E. cbn [fst snd] in E. rewrite E. clear E.
  destruct (organize_loop _ _) as [[[h result] stack]|]; [|reflexivity].
  cbn. unfold forest. rewrite length_map.
  rewrite (mapM_ext _ (λ x, relabel_tree g <$> view (length h) h x))
    by (intros; apply view_relabel).
  apply mapM_relabel.
Qed.

End Relabel.

(** X13.  Nesting is decided by the levels alone: rewriting the titles and
    contents of the sections handed to the builder rewrites the titles and
    contents of its tree in the same way and changes nothing else. *)
Theorem nesting_from_levels (g : Z * str * str → str * str)
    (flat : list section_dict) :
  build_tree (map (relabel_section g) flat)
  = option_map (map (relabel_tree g)) (build_tree flat).
Proof.
  unfold build_tree, _organize_sections. rewrite length_map.
  pose proof (organize_loop_relabel g (seq 0 (length flat)) (flat, [], [])) as E.
  unfold relabel_state at 1 in E. cbn [fst snd] in E. rewrite E. clear E.
  destruct (organize_loop _ _) as [[[h result] stack]|]; [|reflexivity].
  cbn. unfold forest. rewrite length_map.
  rewrite (mapM_ext _ (λ x, relabel_tree g <$> view (length h) h x))
    by (intros; apply view_relabel).
  rewrite mapM_relabel. by destruct (mapM _ result).
Qed.

(** *** The round trip keeps the nesting *)

Lemma relabel_same_headings (f1 f2 : list section_dict) :
  Forall scanned_section f1 → Forall scanned_section f2 →
  map (λ s, (level s, title s)) f1 = map (λ s, (level s, title s)) f2 →
  map (relabel_section (λ p, (p.1.2, []))) f1
  = map (relabel_section (λ p, (p.1.2, []))) f2.
Proof.
  intros H1. revert f2. induction H1 as [|s1 f1 Hs1 _ IH]; intros f2 H2 E.
  - by destruct f2.
  - destruct H2 as [|s2 f2 Hs2 H2]; [done|]. cbn in E. injection E as El Et E.
    cbn [map]. f_equal; [|by apply IH].
    destruct Hs1 as (_ & _ & S1), Hs2 as (_ & _ & S2).
    destruct s1, s2. unfold relabel_section. cbn in *. congruence.
Qed.

(** X14.  The round trip keeps the nesting: when every section of the parsed
    tree has a title that is not empty and no line of its content is a
    heading line, the tree parsed from the rendered text is the parsed tree
    with other contents: same levels, same titles, same subsections at every
    depth. *)
Theorem roundtrip_nesting (text : str) (trees : list Tree) :
  parse_markdown_sections text = Some trees →
  forallb plain_section (flat_map preorder trees) = true →
  ∃ trees', parse_markdown_sections (standardize_output trees) = Some trees'
    ∧ map skeleton trees' = map skeleton trees.
Proof.
  intros Hp Hplain. destruct (headings_parse _ _ Hp) as [Eh Hsc].
  destruct (parse_spec (standardize_output trees)) as (trees' & Hp' & _).
  exists trees'. split; [done|].
  destruct (headings_parse _ _ Hp') as [Eh' _].
  assert (EHL : HL (standardize_output trees) = headings trees).
  { apply standardize_headings. apply Forall_forall. intros p Hin.
    rewrite Forall_forall in Hsc. split; [by apply Hsc|].
    rewrite forallb_forall in Hplain. by apply Hplain, list_elem_of_In. }
  destruct (scan_spec text) as [Hs Es].
  destruct (scan_spec (standardize_output trees)) as [Hs' Es'].
  assert (E : map (relabel_section (λ p, (p.1.2, []))) (scan (standardize_output trees))
              = map (relabel_section (λ p, (p.1.2, []))) (scan text)).
  { apply relabel_same_headings; [done|done|].
    rewrite Es, Es'. fold (HL (standardize_output trees)). by rewrite EHL, Eh. }
  apply (f_equal build_tree) in E. rewrite !build_tree_relabel in E.
  unfold parse_markdown_sections in Hp, Hp'. rewrite Hp, Hp' in E.
  by injection E.
Qed.

Lemma roundtrip_nesting_witness :
  ∃ trees', parse_markdown_sections
      (standardize_output
         [Node 1 (lit "A") (lit "body") [Node 2 (lit "B") [] []]]) = Some trees'
    ∧ map skeleton trees' = [Node 1 (lit "A") [] [Node 2 (lit "B") [] []]].
Proof.
  apply (roundtrip_nesting (lit "# A" ++ nl :: lit "body" ++ nl :: lit "## B")
           [Node 1 (lit "A") (lit "body") [Node 2 (lit "B") [] []]]).
  - vm_compute. reflexivity.
  - vm_compute. reflexivity.
Defined.

(** *** Diagnostics of one call *)

(** The first element of a list that has a property is where it is. *)
Lemma first_with_unique {A} (p : A → bool) (f1 f2 : list A) x1 x2 r1 r2 :
  f1 ++ x1 :: r1 = f2 ++ x2 :: r2 →
  Forall (λ e, p e = false) f1 → p x1 = true →
  Forall (λ e, p e = false) f2 → p x2 = true →
  f1 = f2 ∧ x1 = x2.
Proof.
  revert f2. induction f1 as [|a f1 IH]; intros f2 E H1 Hx1 H2 Hx2.
  - destruct f2 as [|b f2]; [by injection E as -> _|].
    injection E as -> _. apply Forall_cons in H2 as [H2 _]. congruence.
  - destruct f2 as [|b f2].
    + injection E as -> _. apply Forall_cons in H1 as [H1 _]. congruence.
    + injection E as -> E. apply Forall_cons in H1 as [_ H1].
      apply Forall_cons in H2 as [_ H2].
      destruct (IH f2 E H1 Hx1 H2 Hx2) as [-> ->]. done.
Qed.

Section EncodingResolverNotes.
Variable detect : bytes → detection.
Variable decode : str → bytes → option str.
Variable decode_replace : bytes → str.
Variable format_mb : Z → str.
Variable printable : message → bool.

Lemma detection_events_prints file_path raw m :
  Printed m ∉ detection_events detect file_path raw.
Proof.
  unfold detection_events. destruct (detect raw).
  - apply not_elem_of_nil.
  - by intros [?|[?|?%elem_of_nil]%elem_of_cons]%elem_of_cons.
  - by intros [?|[?|?%elem_of_nil]%elem_of_cons]%elem_of_cons.
Qed.

Lemma text_opens_print_nothing file_path (encodings : list str) m :
  Printed m ∉ map (λ e, OpenText file_path e false) encodings.
Proof.
  induction encodings as [|e rest IH]; [apply not_elem_of_nil|].
  cbn [map]. by intros [?|?]%elem_of_cons.
Qed.

Lemma candidates_head d enc :
  accepted_encoding d = Some enc → enc ≠ [] →
  ∃ rest, candidates d = enc :: rest.
Proof.
  intros Ha Hne. unfold candidates, encodings_to_try. rewrite Ha.
  destruct enc as [|c enc]; [done|]. cbn [truthy app unique_encodings andb].
  rewrite bool_decide_eq_false_2 by apply not_elem_of_empty. by eexists.
Qed.

Lemma note_of_Some file_path detected_encoding encoding m :
  note_of file_path detected_encoding encoding = Some m
  ↔ ∃ detected, detected_encoding = Some detected ∧ detected ≠ []
      ∧ encoding ≠ detected ∧ m = ReadWith file_path encoding detected.
Proof.
  unfold note_of. destruct detected_encoding as [d|].
  - destruct d as [|c d]; cbn [truthy andb].
    + split; [done|]. by intros (? & [= <-] & ? & _).
    + destruct (bool_decide (encoding = c :: d)) eqn:Hb; cbn [negb].
      * apply bool_decide_eq_true in Hb. split; [done|].
        by intros (? & [= <-] & _ & ? & _).
      * apply bool_decide_eq_false in Hb. split.
        -- intros [= <-]. by exists (c :: d).
        -- by intros (? & [= <-] & _ & _ & ->).
  - split; [done|]. by intros (? & ? & _).
Qed.

(** X15.  The two diagnostics of a read that is no PDF.  The note that the
    file was read with an encoding other than the detected one is printed
    exactly for the candidate that ends the loop, when that is not the
    accepted detected encoding; the warning about replaced characters is
    printed exactly when no candidate ends the loop and the output takes the
    warning. *)
Theorem diagnostics fs file_path data :
  fs file_path = Some (File data) →
  starts_with pdf_magic data = false →
  let d := detect (take (Z.to_nat 10000) data) in
  let trace :=
    (read_file_content detect decode decode_replace format_mb printable fs
       file_path).2 in
  (∀ enc detected,
     Printed (ReadWith file_path enc detected) ∈ trace
     ↔ accepted_encoding d = Some detected ∧ detected ≠ [] ∧ enc ≠ detected
       ∧ ∃ failed rest,
           candidates d = failed ++ enc :: rest
           ∧ Forall (λ e, wins decode printable file_path data
                            (accepted_encoding d) e = false) failed
           ∧ wins decode printable file_path data (accepted_encoding d) enc
             = true)
  ∧ (Printed (InvalidUtf8 file_path) ∈ trace
     ↔ Forall (λ e, wins decode printable file_path data
                      (accepted_encoding d) e = false) (candidates d)
       ∧ printable (InvalidUtf8 file_path) = true).
Proof.
  intros Hfs Hpdf d trace. unfold trace, read_file_content. rewrite Hfs.
  rewrite starts_with_take by (cbn; lia). rewrite Hpdf. fold d.
  pose proof (try_encodings_spec decode printable file_path data
                (accepted_encoding d) (candidates d)) as H.
  pose proof (λ m, detection_events_prints file_path
                     (take (Z.to_nat 10000) data) m) as Hdet.
  pose proof (λ l m, text_opens_print_nothing file_path l m) as Hopens.
  destruct (try_encodings _ _ _ _ _ _) as [[text|] tr].
  - destruct H as (failed & e0 & rest & E & Hf & He & Hn & ->).
    assert (Hw : wins decode printable file_path data (accepted_encoding d) e0
                 = true).
    { unfold wins. rewrite He, Hn.
      by rewrite bool_decide_eq_true_2 by by eexists. }
    cbn [snd]. split.
    + intros enc detected. rewrite !elem_of_app, elem_of_cons. split.
      * intros [[?|Hin]|[Hin|Hin]]; [done|by apply Hdet in Hin
                                     |by apply Hopens in Hin|].
        unfold note_events in Hin.
        destruct (note_of _ _ e0) as [m|] eqn:Hm; [|by apply elem_of_nil in Hin].
        apply list_elem_of_singleton in Hin. injection Hin as <-.
        apply note_of_Some in Hm as (det & Ha & Hne & Hdiff & [= -> ->]).
        split; [done|]. split; [done|]. split; [done|]. by exists failed, rest.
      * intros (Ha & Hne & Hdiff & failed' & rest' & E' & Hf' & Hw').
        rewrite E in E'.
        destruct (first_with_unique _ _ _ _ _ _ _ E' Hf Hw Hf' Hw') as [_ ->].
        right. right. unfold note_events.
        rewrite (proj2 (note_of_Some file_path (accepted_encoding d) enc
                          (ReadWith file_path enc detected)))
          by by exists detected.
        by apply list_elem_of_singleton.
    + rewrite !elem_of_app, elem_of_cons. split.
      * intros [[?|Hin]|[Hin|Hin]]; [done|by apply Hdet in Hin
                                     |by apply Hopens in Hin|].
        unfold note_events in Hin.
        destruct (note_of _ _ e0) as [m|] eqn:Hm; [|by apply elem_of_nil in Hin].
        apply list_elem_of_singleton in Hin. injection Hin as <-.
        by apply note_of_Some in Hm as (det & _ & _ & _ & [=]).
      * intros [Hall _]. rewrite E in Hall. apply Forall_app in Hall as [_ Hall].
        apply Forall_inv in Hall. congruence.
  - destruct H as [Hall ->]. split.
    + intros enc detected. split.
      * destruct (printable (InvalidUtf8 file_path)); cbn [snd];
          rewrite !elem_of_app, elem_of_cons;
          intros [[?|Hin]|[Hin|Hin]];
          try done; try (by apply Hdet in Hin); try (by apply Hopens in Hin).
        -- by apply elem_of_cons in Hin as [?|?%list_elem_of_singleton].
        -- by apply list_elem_of_singleton in Hin.
      * intros (_ & _ & _ & failed & rest & E & _ & Hw).
        rewrite E in Hall. apply Forall_app in Hall as [_ Hall].
        apply Forall_inv in Hall. congruence.
    + destruct (printable (InvalidUtf8 file_path)); cbn [snd].
      * split; [done|]. intros _. rewrite !elem_of_app. right. right.
        apply elem_of_cons. right. by apply list_elem_of_singleton.
      * split; [|by intros [_ ?]].
        rewrite !elem_of_app, elem_of_cons.
        intros [[?|Hin]|[Hin|Hin]];
          try done; try (by apply Hdet in Hin); try (by apply Hopens in Hin).
        by apply list_elem_of_singleton in Hin.
Qed.

End EncodingResolverNotes.

Lemma diagnostics_witness :
  let printable := λ _ : message, true in
  let fs := λ _ : str, Some (File [x41; xff]%byte) in
  let trace :=
    (read_file_content (λ _, Unavailable) (λ _ _, None) (λ _, lit "?")
       (λ _, []) printable fs (lit "a.md")).2 in
  Printed (InvalidUtf8 (lit "a.md")) ∈ trace
  ↔ Forall (λ e, wins (λ _ _, None) printable (lit "a.md") [x41; xff]%byte
                   None e = false) (candidates Unavailable)
    ∧ printable (InvalidUtf8 (lit "a.md")) = true.
Proof.
  intros printable fs trace.
  apply (diagnostics (λ _, Unavailable) (λ _ _, None) (λ _, lit "?") (λ _, [])
           printable fs (lit "a.md") [x41; xff]%byte).
  - reflexivity.
  - reflexivity.
Defined.

(** *** The separator line is read back as content *)

Lemma rstrip_keep s c :
  is_space c = false → rstrip (s ++ [c]) = s ++ [c].
Proof.
  intros Hc. unfold rstrip. rewrite rev_app_distr. cbn [rev app drop_while].
  rewrite Hc. cbn [rev]. by rewrite rev_involutive.
Qed.

Lemma rstrip_drop s e : is_space e = true → rstrip (s ++ [e]) = rstrip s.
Proof.
  intros He. unfold rstrip. rewrite rev_app_distr. cbn [rev app drop_while].
  by rewrite He.
Qed.

Lemma strip_block s c t d :
  is_space c = false → is_space d = false →
  strip (nl :: (c :: s) ++ t ++ [d; nl]) = (c :: s) ++ t ++ [d].
Proof.
  intros Hc Hd. unfold strip.
  assert (El : lstrip (nl :: (c :: s) ++ t ++ [d; nl]) = (c :: s) ++ t ++ [d; nl]).
  { unfold lstrip. cbn [drop_while app]. change (is_space nl) with true.
    cbn iota. by rewrite Hc. }
  rewrite El.
  replace ((c :: s) ++ t ++ [d; nl]) with ((((c :: s) ++ t) ++ [d]) ++ [nl])
    by (by rewrite <- !app_assoc).
  rewrite rstrip_drop by done. rewrite rstrip_keep by done.
  by rewrite <- app_assoc.
Qed.

Lemma separator_line_snoc : separator_line = repeat "="%char 79 ++ ["="%char].
Proof. reflexivity. Qed.

Lemma strip_with_separator co :
  strip co = co →
  strip (content_part co ++ nl :: separator_line ++ [nl])
  = content_with_separator co.
Proof.
  intros Hs. destruct co as [|c s]; [reflexivity|].
  assert (Hc : is_space c = false) by (by eapply strip_head).
  unfold content_part, content_with_separator. rewrite Hs.
  rewrite separator_line_snoc.
  replace ((nl :: (c :: s) ++ [nl]) ++ nl :: (repeat "="%char 79 ++ ["="%char]) ++ [nl])
    with (nl :: (c :: s) ++ (nl :: nl :: repeat "="%char 79) ++ ["="%char; nl]).
  2:{ rewrite <- app_comm_cons. f_equal. rewrite <- !app_assoc. f_equal.
      cbn [app]. do 2 f_equal. by rewrite <- app_assoc. }
  rewrite strip_block by done. reflexivity.
Qed.

Lemma body_lines_plain co :
  strip co = co →
  forallb (λ line, negb (is_heading line)) (split_nl co) = true →
  Forall (λ l, is_heading l = false)
    (split_nl (content_part co ++ nl :: separator_line ++ [nl])).
Proof.
  intros Hs Hp.
  assert (E : content_part co = [] ∧ co = []
              ∨ content_part co = nl :: co ++ [nl]).
  { unfold content_part. destruct co; [by left | right; by rewrite Hs]. }
  destruct E as [[-> ->] | ->].
  - by repeat constructor.
  - rewrite <- app_comm_cons.
    change (split_nl (nl :: ?y)) with ([] :: split_nl y).
    constructor; [done|]. rewrite <- app_assoc. cbn [app].
    rewrite split_nl_app. apply Forall_app. split.
    + apply Forall_forall. intros l Hl. rewrite forallb_forall in Hp.
      apply negb_true_iff, Hp. by apply list_elem_of_In.
    + by repeat constructor.
Qed.

(** X16.  Rendering is not undone by parsing: a section without subsections,
    written by the renderer and read back, comes back with the separator
    line in its content, after a blank line when it had content. *)
Theorem separator_joins_content (l : Z) (ti co : str) :
  scanned l ti → ti ≠ [] → strip co = co →
  forallb (λ line, negb (is_heading line)) (split_nl co) = true →
  parse_markdown_sections (standardize_output [Node l ti co []])
  = Some [Node l ti (content_with_separator co) []].
Proof.
  intros Hsc Hti Hs Hp. unfold standardize_output. cbn [map join_nl].
  rewrite format_unfold. unfold rule_part. cbn [flat_map app].
  unfold parse_markdown_sections, scan.
  change (split_nl (nl :: ?y)) with ([] :: split_nl y). cbn [fold_left].
  change (scan_line (mkScan [] None []) []) with (mkScan [] None []).
  rewrite split_nl_app, split_nl_no_newline.
  2:{ apply Forall_app. split.
      - apply Forall_forall. intros c Hc%list_elem_of_In%repeat_spec. by subst.
      - constructor; [done|]. by destruct Hsc as (_ & ? & _). }
  cbn [app fold_left]. unfold scan_line at 2.
  destruct Hsc as (Hl & Hnl & Hst).
  rewrite header_match_rendered; [|lia|done..]. cbn iota beta.
  cbn [current_section sections]. rewrite Hst, Z2Nat.id by lia.
  rewrite fold_scan_body by (by apply body_lines_plain).
  cbn [app]. unfold scan_finish, close_section. cbn [current_section sections
    current_content fst snd app].
  by rewrite join_split_nl, strip_with_separator.
Qed.

Lemma separator_joins_content_witness :
  parse_markdown_sections (standardize_output [Node 2 (lit "Use") (lit "run it") []])
  = Some [Node 2 (lit "Use") (lit "run it" ++ nl :: nl :: separator_line) []].
Proof.
  apply (separator_joins_content 2 (lit "Use") (lit "run it")).
  - split; [lia|]. split; [by repeat constructor | reflexivity].
  - discriminate.
  - reflexivity.
  - reflexivity.
Defined.

(** *** The matcher against what a pattern denotes *)

Lemma one_char_Some (p : ascii → bool) (s s' : str) :
  one_char p s = Some s' ↔ ∃ c, s = c :: s' ∧ p c = true.
Proof.
  destruct s as [|c r]; cbn.
  - split; [done|]. by intros (c & ? & _).
  - destruct (p c) eqn:E.
    + split; [intros [= ->]; by exists c|]. by intros (c' & [= -> ->] & _).
    + split; [done|]. intros (c' & [= -> ->] & ?). congruence.
Qed.

Section Matcher.
Context {R : Type}.

Lemma shorter_Some s (next : str → list str → option R) s' groups' x :
  shorter s next s' groups' = Some x →
  (length s' < length s)%nat ∧ next s' groups' = Some x.
Proof.
  unfold shorter. destruct (Nat.ltb_spec (length s') (length s)); [done|done].
Qed.

Lemma iterate_greedy_sound step r (k : str → list str → option R) fuel s
    groups x :
  sound_step step r →
  iterate_greedy step k fuel s groups = Some x →
  ∃ u s' gu, s = u ++ s' ∧ denotes (Star r) u gu
             ∧ k s' (groups ++ gu) = Some x.
Proof.
  intros Hstep. revert s groups.
  induction fuel as [|fuel IH]; intros s groups H; cbn in H.
  - exists [], s, []. rewrite app_nil_r. split_and!; [done|constructor|done].
  - destruct (step s groups _) as [y|] eqn:E.
    + injection H as ->.
      apply Hstep in E as (u & s1 & gu & -> & Hu & E).
      apply shorter_Some in E as [Hlen E].
      apply IH in E as (v & s2 & gv & -> & Hv & E).
      exists (u ++ v), s2, (gu ++ gv).
      rewrite <- !app_assoc. split_and!; [done| |by rewrite <- app_assoc in E].
      apply denotes_star_cons; [|done|done].
      intros ->. cbn in Hlen. lia.
    + exists [], s, []. rewrite app_nil_r. split_and!; [done|constructor|done].
Qed.

Lemma iterate_lazy_sound step r (k : str → list str → option R) fuel s
    groups x :
  sound_step step r →
  iterate_lazy step k fuel s groups = Some x →
  ∃ u s' gu, s = u ++ s' ∧ denotes (StarLazy r) u gu
             ∧ k s' (groups ++ gu) = Some x.
Proof.
  intros Hstep. revert s groups.
  induction fuel as [|fuel IH]; intros s groups H; cbn in H.
  - destruct (k s groups) as [y|] eqn:E; [|done]. injection H as ->.
    exists [], s, []. rewrite app_nil_r. split_and!; [done|constructor|done].
  - destruct (k s groups) as [y|] eqn:E.
    + injection H as ->.
      exists [], s, []. rewrite app_nil_r. split_and!; [done|constructor|done].
    + apply Hstep in H as (u & s1 & gu & -> & Hu & H).
      apply shorter_Some in H as [Hlen H].
      apply IH in H as (v & s2 & gv & -> & Hv & H).
      exists (u ++ v), s2, (gu ++ gv).
      rewrite <- !app_assoc. split_and!; [done| |by rewrite <- app_assoc in H].
      apply denotes_lazy_cons; [|done|done].
      intros ->. cbn in Hlen. lia.
Qed.

End Matcher.

Lemma run_sound {R} (r : regex) : sound_step (R:=R) (run r) r.
Proof.
  induction r as [|c|cs| | |r1 IH1 r2 IH2|r1 IH|r1 IH|r1 IH];
    intros s groups k x H; cbn in H.
  - exists [], s, []. rewrite app_nil_r. split_and!; [done|constructor|done].
  - destruct (one_char _ s) as [s'|] eqn:E; [|done].
    apply one_char_Some in E as (c' & -> & ->%Ascii.eqb_eq).
    exists [c'], s', []. rewrite app_nil_r. split_and!; [done|constructor|done].
  - destruct (one_char _ s) as [s'|] eqn:E; [|done].
    apply one_char_Some in E as (c' & -> & E).
    exists [c'], s', []. rewrite app_nil_r.
    split_and!; [done|by constructor|done].
  - destruct (one_char _ s) as [s'|] eqn:E; [|done].
    apply one_char_Some in E as (c' & -> & E).
    exists [c'], s', []. rewrite app_nil_r. split_and!; [done|constructor|done].
  - destruct (one_char _ s) as [s'|] eqn:E; [|done].
    apply one_char_Some in E as (c' & -> & E).
    exists [c'], s', []. rewrite app_nil_r.
    split_and!; [done|by constructor|done].
  - apply IH1 in H as (u & s1 & gu & -> & Hu & H).
    apply IH2 in H as (v & s2 & gv & -> & Hv & H).
    exists (u ++ v), s2, (gu ++ gv). rewrite <- !app_assoc.
    split_and!; [done|by constructor|by rewrite <- app_assoc in H].
  - by apply (iterate_greedy_sound _ r1) in H.
  - by apply (iterate_lazy_sound _ r1) in H.
  - apply IH in H as (u & s1 & gu & -> & Hu & H).
    exists u, s1, (gu ++ [u]).
    split_and!; [done|by constructor|].
    rewrite length_app, Nat.add_sub, take_app_length in H.
    by rewrite app_assoc.
Qed.

(** Whatever the pattern denotes at the start of the text, followed by
    something [k] accepts, the run finds a match: backtracking loses none. *)
Lemma iterate_greedy_complete {R}
    (step : str → list str → (str → list str → option R) → option R) r :
  (∀ u gu, denotes r u gu → ∀ s' groups k,
     is_Some (k s' (groups ++ gu)) → is_Some (step (u ++ s') groups k)) →
  ∀ u gu, denotes (Star r) u gu → ∀ fuel s' groups k,
    (length (u ++ s') ≤ fuel)%nat →
    is_Some (k s' (groups ++ gu)) →
    is_Some (iterate_greedy step k fuel (u ++ s') groups).
Proof.
  intros Hstep u gu H. remember (Star r) as r' eqn:Er.
  induction H as [| | | | | |r0|r0 u v gu gv Hne Hu _ Hv IH| | |]; try done.
  - intros fuel s' groups k _ Hk. rewrite app_nil_r in Hk. cbn [app].
    destruct fuel as [|fuel]; cbn; [done|]. by destruct (step _ _ _).
  - injection Er as ->. intros fuel s' groups k Hlen Hk.
    destruct fuel as [|fuel].
    { destruct u; [done|]. cbn in Hlen. rewrite ?length_app in Hlen. lia. }
    cbn. 
    assert (Hs : is_Some (step ((u ++ v) ++ s') groups
                            (shorter ((u ++ v) ++ s')
                               (iterate_greedy step k fuel)))).
    { rewrite <- app_assoc. apply (Hstep u gu Hu).
      unfold shorter. rewrite !length_app.
      destruct (Nat.ltb_spec (length v + length s')
                  (length u + (length v + length s'))) as [_|Hge].
      - apply IH; [done| |by rewrite <- app_assoc].
        rewrite !length_app in Hlen |- *.
        destruct u; [done|]. cbn in Hlen. rewrite ?length_app in Hlen. lia.
      - destruct u; [done|]. cbn in Hge. lia. }
    by destruct Hs as [y ->].
Qed.

Lemma iterate_lazy_complete {R}
    (step : str → list str → (str → list str → option R) → option R) r :
  (∀ u gu, denotes r u gu → ∀ s' groups k,
     is_Some (k s' (groups ++ gu)) → is_Some (step (u ++ s') groups k)) →
  ∀ u gu, denotes (StarLazy r) u gu → ∀ fuel s' groups k,
    (length (u ++ s') ≤ fuel)%nat →
    is_Some (k s' (groups ++ gu)) →
    is_Some (iterate_lazy step k fuel (u ++ s') groups).
Proof.
  intros Hstep u gu H. remember (StarLazy r) as r' eqn:Er.
  induction H as [| | | | | | | |r0|r0 u v gu gv Hne Hu _ Hv IH|]; try done.
  - intros fuel s' groups k _ Hk. rewrite app_nil_r in Hk. cbn [app].
    destruct Hk as [y Hk]. destruct fuel as [|fuel]; cbn; by rewrite Hk.
  - injection Er as ->. intros fuel s' groups k Hlen Hk.
    destruct fuel as [|fuel].
    { destruct u; [done|]. cbn in Hlen. rewrite ?length_app in Hlen. lia. }
    cbn. destruct (k ((u ++ v) ++ s') groups); [done|].
    rewrite <- app_assoc. apply (Hstep u gu Hu).
    unfold shorter. rewrite !length_app.
    destruct (Nat.ltb_spec (length v + length s')
                (length u + (length v + length s'))) as [_|Hge].
    + apply IH; [done| |by rewrite <- app_assoc].
      rewrite !length_app in Hlen |- *.
      destruct u; [done|]. cbn in Hlen. rewrite ?length_app in Hlen. lia.
    + destruct u; [done|]. cbn in Hge. lia.
Qed.

Lemma run_complete {R} (r : regex) (u : str) (gu : list str) :
  denotes r u gu → ∀ s' groups (k : str → list str → option R),
    is_Some (k s' (groups ++ gu)) → is_Some (run r (u ++ s') groups k).
Proof.
  revert u gu.
  induction r as [|c|cs| | |r1 IH1 r2 IH2|r1 IH|r1 IH|r1 IH];
    intros u gu H s' groups k Hk.
  - inversion H; subst. by rewrite app_nil_r in Hk.
  - inversion H; subst. cbn. rewrite Ascii.eqb_refl. cbn.
    by rewrite app_nil_r in Hk.
  - inversion H as [| |? ? E| | | | | | | |]; subst. cbn. rewrite E. cbn.
    by rewrite app_nil_r in Hk.
  - inversion H; subst. cbn. by rewrite app_nil_r in Hk.
  - inversion H as [| | | |? E| | | | | |]; subst. cbn. rewrite E. cbn.
    by rewrite app_nil_r in Hk.
  - inversion H as [| | | | |? ? u1 u2 g1 g2 H1 H2| | | | |]; subst.
    cbn. rewrite <- app_assoc. apply (IH1 _ _ H1).
    apply (IH2 _ _ H2). by rewrite <- app_assoc.
  - cbn. by apply (iterate_greedy_complete (run r1) r1 IH u gu H).
  - cbn. by apply (iterate_lazy_complete (run r1) r1 IH u gu H).
  - inversion H as [| | | | | | | | | |? ? g1 H1]; subst. cbn.
    apply (IH _ _ H1). rewrite length_app, Nat.add_sub, take_app_length.
    by rewrite <- app_assoc.
Qed.

Lemma match_at_sound r s s' groups :
  match_at r s = Some (s', groups) →
  ∃ u, s = u ++ s' ∧ denotes r u groups.
Proof.
  intros H. apply run_sound in H as (u & s1 & gu & -> & Hu & [= <- <-]).
  by exists u.
Qed.

Lemma match_at_complete r u s' groups :
  denotes r u groups → is_Some (match_at r (u ++ s')).
Proof. intros H. by apply (run_complete r u groups H). Qed.

(** [re.search] answers with a match at the first position that has one,
    and with nothing only when no position has one. *)
Lemma search_Some r s groups :
  search r s = Some groups →
  ∃ before u after,
    s = before ++ u ++ after ∧ denotes r u groups
    ∧ ∀ before' u' after' groups',
        s = before' ++ u' ++ after' → denotes r u' groups' →
        (length before ≤ length before')%nat.
Proof.
  induction s as [|c s IH]; cbn.
  - destruct (match_at r []) as [[s' g]|] eqn:E; [|done]. intros [= ->].
    apply match_at_sound in E as (u & E & Hu).
    exists [], u, s'. split_and!; [done|done|]. intros. cbn. lia.
  - destruct (match_at r (c :: s)) as [[s' g]|] eqn:E.
    + intros [= ->]. apply match_at_sound in E as (u & E & Hu).
      exists [], u, s'. split_and!; [done|done|]. intros. cbn. lia.
    + intros H. apply IH in H as (before & u & after & -> & Hu & Hmin).
      exists (c :: before), u, after. split_and!; [done|done|].
      intros [|c' before'] u' after' groups' E' Hu'.
      * cbn in E'. pose proof (match_at_complete r u' after' groups' Hu') as Hm.
        rewrite <- E', E in Hm. by destruct Hm.
      * injection E' as -> E'. cbn. apply le_n_S. by eapply Hmin.
Qed.

Lemma search_None r s :
  search r s = None →
  ∀ before u after groups, s = before ++ u ++ after → ¬ denotes r u groups.
Proof.
  induction s as [|c s IH]; cbn.
  - destruct (match_at r []) as [[s' g]|] eqn:E; [done|]. intros _.
    intros before u after groups E' Hu.
    destruct before; [|done]. cbn in E'.
    pose proof (match_at_complete r u after groups Hu) as Hm.
    rewrite <- E', E in Hm. by destruct Hm.
  - destruct (match_at r (c :: s)) as [[s' g]|] eqn:E; [done|]. intros H.
    intros [|c' before] u after groups E' Hu.
    + cbn in E'. pose proof (match_at_complete r u after groups Hu) as Hm.
      rewrite <- E', E in Hm. by destruct Hm.
    + injection E' as -> E'. by eapply IH.
Qed.

(** *** What the patterns of the file denote *)

Lemma denotes_chars (t u : str) (g : list str) :
  denotes (chars t) u g ↔ u = t ∧ g = [].
Proof.
  revert u g. induction t as [|c t IH]; intros u g; cbn [chars].
  - split; [by inversion 1|]. intros [-> ->]. constructor.
  - split.
    + inversion 1 as [| | | | |? ? u1 u2 g1 g2 H1 H2| | | | |]; subst.
      inversion H1; subst. by apply IH in H2 as [-> ->].
    + intros [-> ->].
      apply (denotes_cat (Chr c) (chars t) [c] t [] []); [constructor|].
      by apply IH.
Qed.

Lemma denotes_star_not_of cs (u : str) (g : list str) :
  denotes (Star (NotOf cs)) u g ↔ Forall (λ c, not_of cs c = true) u ∧ g = [].
Proof.
  split.
  - intros H. remember (Star (NotOf cs)) as r eqn:Er.
    induction H as [| | | | | | |r0 u v gu gv Hne Hu _ Hv IH| | |]; try done.
    injection Er as ->. inversion Hu; subst.
    destruct IH as [IH ->]; [done|]. split; [|done]. by constructor.
  - intros [H ->]. induction H as [|c u Hc _ IH]; [constructor|].
    apply (denotes_star_cons (NotOf cs) [c] u [] []); [done| |done].
    by constructor.
Qed.

Lemma denotes_star_space (u : str) (g : list str) :
  denotes (Star Whitespace) u g ↔ Forall (λ c, is_space c = true) u ∧ g = [].
Proof.
  split.
  - intros H. remember (Star Whitespace) as r eqn:Er.
    induction H as [| | | | | | |r0 u v gu gv Hne Hu _ Hv IH| | |]; try done.
    injection Er as ->. inversion Hu; subst.
    destruct IH as [IH ->]; [done|]. split; [|done]. by constructor.
  - intros [H ->]. induction H as [|c u Hc _ IH]; [constructor|].
    apply (denotes_star_cons Whitespace [c] u [] []); [done| |done].
    by constructor.
Qed.

Lemma denotes_lazy_any (u : str) (g : list str) :
  denotes (StarLazy AnyChar) u g ↔ g = [].
Proof.
  split.
  - intros H. remember (StarLazy AnyChar) as r eqn:Er.
    induction H as [| | | | | | | | |r0 u v gu gv Hne Hu _ Hv IH|]; try done.
    injection Er as ->. inversion Hu; subst. by rewrite IH.
  - intros ->. induction u as [|c u IH]; [constructor|].
    apply (denotes_lazy_cons AnyChar [c] u [] []); [done|constructor|done].
Qed.

Lemma not_of_backtick (c : ascii) :
  not_of [backtick] c = true ↔ c ≠ backtick.
Proof.
  unfold not_of. cbn. rewrite orb_false_r, negb_true_iff.
  apply Ascii.eqb_neq.
Qed.

Lemma denotes_md_path (u : str) (g : list str) :
  denotes md_path_pattern u g
  ↔ ∃ path, u = backtick :: path ++ [backtick] ∧ g = [path]
      ∧ (backtick ∉ path) ∧ ends_with md_suffix path = true
      ∧ (length md_suffix < length path)%nat.
Proof.
  unfold md_path_pattern, plus. split.
  - inversion 1 as [| | | | |? ? u1 u2 g1 g2 H1 H2| | | | |]; subst.
    inversion H1; subst. clear H1.
    inversion H2 as [| | | | |? ? u3 u4 g3 g4 H3 H4| | | | |]; subst.
    inversion H4; subst. clear H4.
    inversion H3 as [| | | | | | | | | |? ? g5 H5]; subst. clear H3.
    inversion H5 as [| | | | |? ? u6 u7 g6 g7 H6 H7| | | | |]; subst.
    apply (denotes_chars (lit ".md")) in H7 as [-> ->].
    inversion H6 as [| | | | |? ? u8 u9 g8 g9 H8 H9| | | | |]; subst.
    inversion H8 as [| |? c Hc| | | | | | | |]; subst.
    apply denotes_star_not_of in H9 as [H9 ->].
    exists (([c] ++ u9) ++ lit ".md"). split_and!; [done|done| | |].
    + rewrite !elem_of_app, list_elem_of_singleton.
      intros [[E|Hin]|Hin].
      * by apply not_of_backtick in Hc.
      * rewrite Forall_forall in H9. by apply H9, not_of_backtick in Hin.
      * set_solver.
    + apply ends_with_iff. by eexists.
    + rewrite length_app. cbn. lia.
  - intros (path & -> & -> & Hnot & [w ->]%ends_with_iff & Hlen).
    rewrite length_app in Hlen. destruct w as [|c w]; [cbn in Hlen; lia|].
    apply (denotes_cat (Chr backtick) _ [backtick] _ [] [_]); [constructor|].
    apply (denotes_cat (Capture _) (Chr backtick) _ [backtick] [_] []);
      [|constructor].
    apply (denotes_capture _ _ []).
    apply (denotes_cat _ (chars (lit ".md")) (c :: w) (lit ".md") [] []);
      [|by apply denotes_chars].
    apply (denotes_cat (NotOf _) (Star _) [c] w [] []).
    + constructor. apply not_of_backtick. set_solver.
    + apply denotes_star_not_of. split; [|done]. apply Forall_forall.
      intros x Hx. apply not_of_backtick. set_solver.
Qed.

(** X17.  The path taken from a text is the first path between backticks:
    [re.search] answers with the text between the first pair of neighbouring
    backticks that ends in [.md] and has a character before that, and
    finds nothing exactly when the text has no such pair. *)
Theorem first_quoted_md_path (text : str) :
  match search md_path_pattern text with
  | Some groups =>
      ∃ before path after,
        groups = [path] ∧ quoted_md_path text before path after
        ∧ ∀ before' path' after', quoted_md_path text before' path' after' →
            (length before ≤ length before')%nat
  | None => ∀ before path after, ¬ quoted_md_path text before path after
  end.
Proof.
  destruct (search md_path_pattern text) as [groups|] eqn:E.
  - apply search_Some in E as (before & u & after & -> & Hu & Hmin).
    apply denotes_md_path in Hu as (path & -> & -> & Hnot & Hend & Hlen).
    exists before, path, after. split; [done|]. split.
    + split_and!; [|done|done|done]. cbn. by rewrite <- app_assoc.
    + intros before' path' after' (E' & Hnot' & Hend' & Hlen').
      apply (Hmin before' (backtick :: path' ++ [backtick]) after' [path']).
      * rewrite E'. cbn. by rewrite <- app_assoc.
      * apply denotes_md_path. by exists path'.
  - intros before path after (E' & Hnot & Hend & Hlen).
    apply (search_None _ _ E before (backtick :: path ++ [backtick]) after [path]).
    + rewrite E'. cbn. by rewrite <- app_assoc.
    + apply denotes_md_path. by exists path.
Qed.

(** *** Where the JSON of a text comes from *)

Lemma findall_from_sound r fuel s m :
  m ∈ findall_from fuel r s →
  ∃ before u after groups,
    s = before ++ u ++ after ∧ denotes r u groups ∧ m = hd [] groups.
Proof.
  revert s. induction fuel as [|fuel IH]; intros s; cbn [findall_from];
    [by intros ?%elem_of_nil|].
  assert (Hskip : (m ∈ match s with [] => [] | _ :: t => findall_from fuel r t end) →
    ∃ before u after groups,
      s = before ++ u ++ after ∧ denotes r u groups ∧ m = hd [] groups).
  { destruct s as [|c t]; [by intros ?%elem_of_nil|].
    intros (before & u & after & groups & -> & Hu & ->)%IH.
    by exists (c :: before), u, after, groups. }
  destruct (match_at r s) as [[s' groups]|] eqn:E; [|by apply Hskip].
  destruct (length s' <? length s)%nat; [|by apply Hskip].
  apply match_at_sound in E as (u & -> & Hu).
  intros [->|Hin]%elem_of_cons.
  - by exists [], u, s', groups.
  - apply IH in Hin as (before & u' & after & groups' & -> & Hu' & ->).
    exists (u ++ before), u', after, groups'. by rewrite <- app_assoc.
Qed.

Lemma not_of_braces (c : ascii) :
  not_of [lbrace; rbrace] c = negb (is_brace c).
Proof. unfold not_of, is_brace. cbn. by rewrite orb_false_r. Qed.

Lemma flat_braces_plain inside (n s : str) :
  Forall (λ c, not_of [lbrace; rbrace] c = true) n →
  flat_braces inside (n ++ s) = flat_braces inside s.
Proof.
  induction 1 as [|c n Hc _ IH]; [done|]. cbn.
  rewrite not_of_braces in Hc. unfold is_brace in Hc.
  apply negb_true_iff, orb_false_iff in Hc as [-> ->]. exact IH.
Qed.

(** The group with its inner braces: [N], then [\{ N \} N] repeated. *)
Lemma denotes_inner_groups (u : str) (g : list str) :
  denotes (Star (Cat (Chr lbrace)
                   (Cat (Star (NotOf [lbrace; rbrace]))
                      (Cat (Chr rbrace) (Star (NotOf [lbrace; rbrace]))))))
    u g →
  g = [] ∧ ∀ s, flat_braces false (u ++ s) = flat_braces false s.
Proof.
  intros H. remember (Star _) as r eqn:Er.
  induction H as [| | | | | | |r0 u v gu gv Hne Hu _ Hv IH| | |]; try done.
  injection Er as ->. destruct IH as [-> IH]; [done|].
  inversion Hu as [| | | | |? ? u1 u2 g1 g2 H1 H2| | | | |]; subst.
  inversion H1; subst. clear H1.
  inversion H2 as [| | | | |? ? u3 u4 g3 g4 H3 H4| | | | |]; subst.
  apply denotes_star_not_of in H3 as [H3 ->].
  inversion H4 as [| | | | |? ? u5 u6 g5 g6 H5 H6| | | | |]; subst.
  inversion H5; subst. clear H5.
  apply denotes_star_not_of in H6 as [H6 ->].
  split; [done|]. intros s. rewrite <- !app_assoc. cbn.
  rewrite flat_braces_plain by done. cbn.
  rewrite flat_braces_plain by done. apply IH.
Qed.

Lemma denotes_standalone (u : str) (g : list str) :
  denotes standalone_json_pattern u g → g = [u] ∧ shallow_object u.
Proof.
  unfold standalone_json_pattern.
  inversion 1 as [| | | | | | | | | |? ? g0 H0]; subst.
  inversion H0 as [| | | | |? ? u1 u2 g1 g2 H1 H2| | | | |]; subst.
  inversion H1; subst. clear H1.
  inversion H2 as [| | | | |? ? u3 u4 g3 g4 H3 H4| | | | |]; subst.
  apply denotes_star_not_of in H3 as [H3 ->].
  inversion H4 as [| | | | |? ? u5 u6 g5 g6 H5 H6| | | | |]; subst.
  inversion H6; subst. clear H6.
  apply denotes_inner_groups in H5 as [-> H5].
  split; [done|]. exists (u3 ++ u5). split; [by rewrite <- app_assoc|].
  rewrite flat_braces_plain by done.
  specialize (H5 []). by rewrite app_nil_r in H5.
Qed.

Lemma denotes_fenced (u : str) (g : list str) :
  denotes fenced_json_pattern u g →
  ∃ ws1 inner ws2,
    u = lit "```json" ++ ws1 ++ (lbrace :: inner ++ [rbrace]) ++ ws2 ++ lit "```"
    ∧ g = [lbrace :: inner ++ [rbrace]]
    ∧ Forall (λ c, is_space c = true) ws1
    ∧ Forall (λ c, is_space c = true) ws2.
Proof.
  unfold fenced_json_pattern.
  inversion 1 as [| | | | |? ? u1 u2 g1 g2 H1 H2| | | | |]; subst.
  apply (denotes_chars (lit "```json")) in H1 as [-> ->].
  inversion H2 as [| | | | |? ? u3 u4 g3 g4 H3 H4| | | | |]; subst.
  apply denotes_star_space in H3 as [H3 ->].
  inversion H4 as [| | | | |? ? u5 u6 g5 g6 H5 H6| | | | |]; subst.
  inversion H5 as [| | | | | | | | | |? ? g7 H7]; subst. clear H5.
  inversion H7 as [| | | | |? ? u8 u9 g8 g9 H8 H9| | | | |]; subst.
  inversion H8; subst. clear H8.
  inversion H9 as [| | | | |? ? ua ub ga gb Ha Hb| | | | |]; subst.
  apply denotes_lazy_any in Ha as ->. inversion Hb; subst. clear Hb.
  inversion H6 as [| | | | |? ? uc ud gc gd Hc Hd| | | | |]; subst.
  apply denotes_star_space in Hc as [Hc ->].
  apply (denotes_chars (lit "```")) in Hd as [-> ->].
  by exists u3, ua, uc.
Qed.

Section JsonFromTextFacts.
Variable json_loads : str → loaded.

Lemma first_paper_json_Some matches v :
  first_paper_json json_loads matches = Ok (Some v) →
  ∃ m items, m ∈ matches ∧ json_loads m = Parsed v ∧ v = PDict items
             ∧ has_key items paper_path_key = true.
Proof.
  induction matches as [|m rest IH]; cbn [first_paper_json]; [done|].
  assert (Hrest : first_paper_json json_loads rest = Ok (Some v) →
    ∃ m0 items, m0 ∈ m :: rest ∧ json_loads m0 = Parsed v ∧ v = PDict items
                ∧ has_key items paper_path_key = true).
  { intros (m0 & items & Hin & ?)%IH. exists m0, items. split; [|done].
    by apply list_elem_of_further. }
  destruct (json_loads m) as [[| | | | | |items]| |] eqn:E;
    try exact Hrest; try done.
  destruct (has_key items paper_path_key) eqn:Hk; [|exact Hrest].
  intros [= <-]. exists m, items. split_and!; [|done..]. apply list_elem_of_here.
Qed.

(** X18.  What [extract_json_from_text] returns is what [json.loads] makes of
    a piece of the text that begins with an opening brace and ends with a
    closing one: either the piece stands in a fence, or its inner braces do
    not nest and the value is a dict with the key [paper_path]. *)
Theorem json_comes_from_text (text : str) (v : pyvalue) :
  extract_json_from_text json_loads text = Ok (Some v) →
  ∃ before g after,
    text = before ++ g ++ after ∧ json_loads g = Parsed v
    ∧ (fenced_object before g after
       ∨ (shallow_object g
          ∧ ∃ items, v = PDict items ∧ has_key items paper_path_key = true)).
Proof.
  unfold extract_json_from_text, findall.
  assert (Hloop : first_paper_json json_loads
                    (findall_from (S (length text)) standalone_json_pattern text)
                  = Ok (Some v) →
    ∃ before g after,
      text = before ++ g ++ after ∧ json_loads g = Parsed v
      ∧ (fenced_object before g after
         ∨ (shallow_object g
            ∧ ∃ items, v = PDict items ∧ has_key items paper_path_key = true))).
  { intros (m & items & Hin & Hj & -> & Hk)%first_paper_json_Some.
    apply findall_from_sound in Hin as (b & u & a & g & -> & Hu & ->).
    apply denotes_standalone in Hu as [-> Hu]. cbn [hd] in Hj.
    exists b, u, a. split_and!; [done|done|]. right. split; [done|].
    by exists items. }
  destruct (search fenced_json_pattern text) as [groups|] eqn:Es; [|exact Hloop].
  destruct (json_loads (hd [] groups)) as [v'| |] eqn:Ej; [|exact Hloop|done].
  intros [= ->].
  apply search_Some in Es as (before & u & after & -> & Hu & _).
  apply denotes_fenced in Hu as (ws1 & inner & ws2 & -> & -> & Hw1 & Hw2).
  cbn [hd] in Ej.
  exists (before ++ lit "```json" ++ ws1), (lbrace :: inner ++ [rbrace]),
    (ws2 ++ lit "```" ++ after).
  split; [by rewrite <- !app_assoc|]. split; [done|]. left.
  split_and!; [by exists inner|by exists before, ws1|by exists ws2, after].
Qed.

(** What [extract_json_from_text] raises is what [json.loads] raised. *)
Lemma first_paper_json_Raise matches e :
  first_paper_json json_loads matches = Raise e →
  e = RecursionError ∧ ∃ s, json_loads s = TooDeep.
Proof.
  induction matches as [|m rest IH]; cbn [first_paper_json]; [done|].
  destruct (json_loads m) as [[| | | | | |items]| |] eqn:E; try exact IH.
  - by destruct (has_key items paper_path_key).
  - intros [= <-]. split; [done|]. by exists m.
Qed.

Lemma extract_json_from_text_Raise text e :
  extract_json_from_text json_loads text = Raise e →
  e = RecursionError ∧ ∃ s, json_loads s = TooDeep.
Proof.
  unfold extract_json_from_text.
  destruct (search fenced_json_pattern text) as [groups|];
    [|apply first_paper_json_Raise].
  destruct (json_loads (hd [] groups)) as [v| |] eqn:E;
    [done|apply first_paper_json_Raise|].
  intros [= <-]. split; [done|]. by eexists.
Qed.

End JsonFromTextFacts.

(** A decoder that knows one text, inside a fence. *)
Lemma json_comes_from_text_witness :
  let q := "034"%char in
  let g := lbrace :: q :: lit "paper_path" ++ q :: lit ": " ++ q :: lit "a.md"
             ++ [q; rbrace] in
  let v := PDict [(paper_path_key, PStr (lit "a.md"))] in
  let json_loads := λ s, if bool_decide (s = g) then Parsed v else NotJson in
  let text := lit "```json" ++ nl :: g ++ nl :: lit "``` done" in
  ∃ before g' after,
    text = before ++ g' ++ after ∧ json_loads g' = Parsed v
    ∧ (fenced_object before g' after
       ∨ (shallow_object g'
          ∧ ∃ items, v = PDict items ∧ has_key items paper_path_key = true)).
Proof.
  intros q g v json_loads text.
  apply (json_comes_from_text json_loads text v). vm_compute. reflexivity.
Defined.

(** *** JSON between prose is found *)

Lemma is_brace_cases (c : ascii) :
  c = lbrace ∨ c = rbrace ∨ not_of [lbrace; rbrace] c = true.
Proof.
  rewrite not_of_braces. unfold is_brace.
  destruct (Ascii.eqb_spec c lbrace) as [->|]; [by left|].
  destruct (Ascii.eqb_spec c rbrace) as [->|]; [by right; left|].
  by right; right.
Qed.

Lemma flat_braces_cons_plain inside c s :
  not_of [lbrace; rbrace] c = true →
  flat_braces inside (c :: s) = flat_braces inside s.
Proof. intros H. by apply (flat_braces_plain inside [c] s); constructor. Qed.

(** Braces that do not nest are what the inner part of the second pattern
    matches. *)
Lemma flat_braces_denotes (body : str) :
  (flat_braces false body = true →
   ∃ n rest, body = n ++ rest
     ∧ Forall (λ c, not_of [lbrace; rbrace] c = true) n
     ∧ denotes (Star (Cat (Chr lbrace)
                        (Cat (Star (NotOf [lbrace; rbrace]))
                           (Cat (Chr rbrace) (Star (NotOf [lbrace; rbrace]))))))
         rest [])
  ∧ (flat_braces true body = true →
     ∃ n1 n2 rest, body = n1 ++ rbrace :: n2 ++ rest
       ∧ Forall (λ c, not_of [lbrace; rbrace] c = true) n1
       ∧ Forall (λ c, not_of [lbrace; rbrace] c = true) n2
       ∧ denotes (Star (Cat (Chr lbrace)
                          (Cat (Star (NotOf [lbrace; rbrace]))
                             (Cat (Chr rbrace) (Star (NotOf [lbrace; rbrace]))))))
           rest []).
Proof.
  induction body as [|c r [IHf IHt]].
  - split; [|done]. intros _. exists [], []. split_and!; [done|done|constructor].
  - destruct (is_brace_cases c) as [->|[->|Hc]].
    + split; [|done]. cbn. intros (n1 & n2 & rest & -> & H1 & H2 & Hr)%IHt.
      exists [], (([lbrace] ++ n1 ++ [rbrace] ++ n2) ++ rest).
      split_and!; [by rewrite <- !app_assoc|done|].
      apply (denotes_star_cons _ _ rest [] []); [done| |done].
      apply (denotes_cat (Chr lbrace) _ [lbrace] _ [] []); [constructor|].
      apply (denotes_cat (Star _) _ n1 _ [] []);
        [by apply denotes_star_not_of|].
      apply (denotes_cat (Chr rbrace) _ [rbrace] _ [] []); [constructor|].
      by apply denotes_star_not_of.
    + split; [done|]. cbn. intros (n & rest & -> & Hn & Hr)%IHf.
      by exists [], n, rest.
    + split; rewrite flat_braces_cons_plain by done.
      * intros (n & rest & -> & Hn & Hr)%IHf.
        exists (c :: n), rest. split_and!; [done|by constructor|done].
      * intros (n1 & n2 & rest & -> & H1 & H2 & Hr)%IHt.
        exists (c :: n1), n2, rest. split_and!; [done|by constructor|done..].
Qed.

Lemma shallow_object_denotes (g : str) :
  shallow_object g → denotes standalone_json_pattern g [g].
Proof.
  intros (body & -> & H).
  apply (proj1 (flat_braces_denotes body)) in H as (n & rest & -> & Hn & Hr).
  apply (denotes_capture _ _ []).
  apply (denotes_cat (Chr lbrace) _ [lbrace] _ [] []); [constructor|].
  rewrite <- app_assoc.
  apply (denotes_cat (Star _) _ n _ [] []); [by apply denotes_star_not_of|].
  apply (denotes_cat (Star _) (Chr rbrace) rest [rbrace] [] []);
    [done|constructor].
Qed.

(** A text in braces without nested inner braces ends at its first closing
    brace outside inner braces: no such text is the beginning of another. *)
Lemma flat_braces_prefix_free inside (b1 b2 x y : str) :
  flat_braces inside b1 = true → flat_braces inside b2 = true →
  b1 ++ rbrace :: x = b2 ++ rbrace :: y → b1 = b2.
Proof.
  revert inside b2. induction b1 as [|c b1 IH]; intros inside b2 H1 H2 E.
  - destruct b2 as [|c b2]; [done|]. injection E as <- E.
    cbn in H1, H2. destruct inside; [done|]. done.
  - destruct b2 as [|c' b2].
    + injection E as -> E. cbn in H1, H2. by destruct inside.
    + injection E as <- E. f_equal.
      destruct (is_brace_cases c) as [->|[->|Hc]].
      * cbn in H1, H2. apply andb_true_iff in H1 as [_ H1], H2 as [_ H2].
        by apply (IH true).
      * cbn in H1, H2. apply andb_true_iff in H1 as [_ H1], H2 as [_ H2].
        by apply (IH false).
      * rewrite flat_braces_cons_plain in H1, H2 by done. by apply (IH inside).
Qed.

Lemma shallow_object_prefix_free (u g x y : str) :
  shallow_object u → shallow_object g → u ++ x = g ++ y → u = g ∧ x = y.
Proof.
  intros (bu & -> & Hu) (bg & -> & Hg) E. cbn in E. injection E as E.
  rewrite <- !app_assoc in E. cbn in E.
  pose proof (flat_braces_prefix_free false bu bg x y Hu Hg E) as ->.
  split; [done|]. apply app_inv_head in E. by injection E.
Qed.

Lemma match_at_shallow_object (g after : str) :
  shallow_object g →
  match_at standalone_json_pattern (g ++ after) = Some (after, [g]).
Proof.
  intros Hg.
  destruct (match_at_complete standalone_json_pattern g after [g]
              (shallow_object_denotes g Hg)) as [[s' groups] E].
  rewrite E. apply match_at_sound in E as (u & E & Hu).
  apply denotes_standalone in Hu as [-> Hu].
  by destruct (shallow_object_prefix_free u g s' after Hu Hg) as [-> ->].
Qed.

Lemma match_at_no_brace (c : ascii) (s : str) :
  c ≠ lbrace → match_at standalone_json_pattern (c :: s) = None.
Proof.
  intros Hc. unfold match_at, standalone_json_pattern.
  cbn [run one_char]. rewrite (proj2 (Ascii.eqb_neq lbrace c)) by congruence.
  done.
Qed.

Lemma findall_skip (before s : str) (fuel : nat) :
  Forall (λ c, c ≠ lbrace) before →
  findall_from (length before + fuel) standalone_json_pattern (before ++ s)
  = findall_from fuel standalone_json_pattern s.
Proof.
  induction 1 as [|c before Hc _ IH]; [done|].
  cbn [length Nat.add app findall_from]. by rewrite match_at_no_brace.
Qed.

Lemma fenced_needs_backtick (text : str) :
  backtick ∉ text → search fenced_json_pattern text = None.
Proof.
  intros Hno. destruct (search _ text) as [groups|] eqn:E; [|done].
  apply search_Some in E as (before & u & after & -> & Hu & _).
  apply denotes_fenced in Hu as (ws1 & inner & ws2 & -> & _).
  exfalso. apply Hno. rewrite !elem_of_app. right. left. left.
  apply list_elem_of_here.
Qed.

Section JsonInProse.
Variable json_loads : str → loaded.

(** X19.  JSON between prose is found: in a text without backticks that has
    no opening brace before it, a text in braces whose inner braces do not
    nest and that parses to a dict with the key [paper_path] is what
    [extract_json_from_text] returns, whatever follows it. *)
Theorem json_found_in_prose (before g after : str)
    (items : list (str * pyvalue)) :
  backtick ∉ before ++ g ++ after →
  Forall (λ c, c ≠ lbrace) before →
  shallow_object g →
  json_loads g = Parsed (PDict items) →
  has_key items paper_path_key = true →
  extract_json_from_text json_loads (before ++ g ++ after)
  = Ok (Some (PDict items)).
Proof.
  intros Hno Hbefore Hg Hj Hk. unfold extract_json_from_text, findall.
  rewrite fenced_needs_backtick by done.
  rewrite length_app.
  replace (S (length before + length (g ++ after)))
    with (length before + S (length (g ++ after)))%nat by lia.
  rewrite findall_skip by done. cbn [findall_from].
  rewrite match_at_shallow_object by done.
  destruct Hg as (body & -> & _).
  rewrite length_app.
  destruct (Nat.ltb_spec (length after)
              (length (lbrace :: body ++ [rbrace]) + length after)) as [_|Hge];
    [|cbn in Hge; lia].
  cbn [hd first_paper_json]. by rewrite Hj, Hk.
Qed.

End JsonInProse.

(** A decoder that knows one text, for the example. *)
Lemma json_found_in_prose_witness :
  let q := "034"%char in
  let g := lbrace :: q :: lit "paper_path" ++ q :: lit ": " ++ q :: lit "a.md"
             ++ [q; rbrace] in
  let items := [(paper_path_key, PStr (lit "a.md"))] in
  let json_loads :=
    λ s, if bool_decide (s = g) then Parsed (PDict items) else NotJson in
  extract_json_from_text json_loads (lit "saved as " ++ g ++ lit " today")
  = Ok (Some (PDict items)).
Proof.
  intros q g items json_loads.
  apply (json_found_in_prose json_loads (lit "saved as ") g (lit " today") items).
  - vm_compute. set_solver.
  - by repeat constructor.
  - exists (q :: lit "paper_path" ++ q :: lit ": " ++ q :: lit "a.md" ++ [q]).
    split; reflexivity.
  - reflexivity.
  - reflexivity.
Defined.



(** *** Absolute paths *)

Lemma isabs_cons (p : str) : isabs p = true ↔ ∃ r, p = slash :: r.
Proof.
  unfold isabs. destruct p as [|c r]; cbn; [split; [done|by intros [? ?]]|].
  rewrite andb_true_r, bool_decide_eq_true. split.
  - intros <-. by exists r.
  - by intros [r' [= -> _]].
Qed.

(** Stripping from the right keeps the first character when some character
    is not stripped. *)
Lemma rstrip_by_keeps_head (p : ascii → bool) (c : ascii) (r : str) :
  Exists (λ x, p x = false) (c :: r) →
  ∃ r', rev (drop_while p (rev (c :: r))) = c :: r'.
Proof.
  intros Hex.
  destruct (drop_while_split p (rev (c :: r))) as (w & E & Hw).
  apply (f_equal (@rev ascii)) in E. rewrite rev_involutive, rev_app_distr in E.
  destruct (rev (drop_while p (rev (c :: r)))) as [|c' r'] eqn:Et.
  - cbn in E. apply Exists_exists in Hex as (x & Hin & Hx).
    rewrite E in Hin. apply Forall_rev in Hw.
    rewrite Forall_forall in Hw. rewrite (Hw x Hin) in Hx. done.
  - injection E as -> _. by exists r'.
Qed.

Lemma forallb_false_Exists (p : ascii → bool) (s : str) :
  forallb p s = false → Exists (λ x, p x = false) s.
Proof.
  induction s as [|c s IH]; cbn; [done|].
  destruct (p c) eqn:Hc; [|intros _; by apply Exists_cons_hd].
  intros H. by apply Exists_cons_tl, IH.
Qed.

Lemma dirname_isabs (p : str) : isabs p = true → isabs (dirname p) = true.
Proof.
  intros [r ->]%isabs_cons. unfold dirname.
  destruct (rstrip_by_keeps_head (λ c, negb (is_slash c)) slash r) as [r' E].
  { by apply Exists_cons_hd. }
  rewrite E. cbn [truthy andb].
  destruct (forallb is_slash (slash :: r')) eqn:Hall; cbn [negb].
  - apply isabs_cons. by eexists.
  - destruct (rstrip_by_keeps_head is_slash slash r') as [r'' E'].
    { by apply forallb_false_Exists. }
    rewrite E'. apply isabs_cons. by eexists.
Qed.

Lemma normpath_isabs (p : str) : isabs p = true → isabs (normpath p) = true.
Proof.
  intros Hp. pose proof Hp as [r ->]%isabs_cons. unfold normpath.
  cbn [truthy negb]. unfold isabs in Hp. rewrite Hp.
  destruct (_ && _); cbn [replicate app truthy]; apply isabs_cons; by eexists.
Qed.

Section FileInputFacts.
Variable cwd : str.
Variable json_loads : str → loaded.
Variable fs : gset str → str → option entry.
Variable listdir : gset str → str → list str.
Variable exists_fd : Z → option bool.
Variable read_fd : Z → option str.
Variable detect : bytes → detection.
Variable decode : str → bytes → option str.
Variable decode_replace : bytes → str.
Variable format_mb : Z → str.
Variable printable : message → bool.

Lemma abspath_isabs (p : str) :
  isabs cwd = true → isabs (abspath cwd p) = true.
Proof.
  intros Hcwd. unfold abspath. apply normpath_isabs.
  destruct (isabs p) eqn:Hp; [done|].
  apply isabs_cons in Hcwd as [r ->]. unfold path_join.
  unfold isabs, slash in Hp. rewrite Hp.
  destruct (_ || _); apply isabs_cons; by eexists.
Qed.

Lemma paper_dir_of_spec (info_dict : pyvalue) :
  isabs cwd = true →
  match paper_dir_of cwd info_dict with
  | Ok paper_dir => isabs paper_dir = true
  | Raise e => e = ValueError NoPaperPath ∨ e = AttributeError ∨ e = TypeError
  end.
Proof.
  intros Hcwd. unfold paper_dir_of, get.
  destruct info_dict as [| | | | | |items]; cbn [mbind result_bind]; auto.
  destruct (negb (truth _)); [auto|].
  destruct (default PNone _) as [| | | |s| |];
    cbn [dirname_of mbind result_bind]; auto.
  destruct (isabs (dirname s)) eqn:E; [done|]. by apply abspath_isabs.
Qed.

Lemma info_dict_of_Raise (s : str) e :
  info_dict_of json_loads s = Raise e →
  e = ValueError (NeitherPathNorJson s)
  ∨ (e = RecursionError ∧ ∃ t, json_loads t = TooDeep).
Proof.
  unfold info_dict_of. destruct (json_loads s) as [v| |] eqn:E; [done| |].
  - destruct (extract_json_from_text json_loads s) as [[v|]|e'] eqn:Ej;
      cbn [mbind result_bind].
    + destruct (truth v); [done|]. intros [= <-]. by left.
    + intros [= <-]. by left.
    + intros [= <-]. right. by apply extract_json_from_text_Raise in Ej.
  - intros [= <-]. right. split; [done|]. by exists s.
Qed.

Lemma extract_file_path_spec dirs (file_info : pyvalue) :
  isabs cwd = true →
  match extract_file_path cwd json_loads fs dirs file_info with
  | Ok paper_dir => isabs paper_dir = true
  | Raise e =>
      e = ValueError NoPaperPath ∨ e = ValueError InvalidInputFormat
      ∨ (∃ s, file_info = PStr s ∧ e = ValueError (NeitherPathNorJson s))
      ∨ (e = RecursionError ∧ ∃ t, json_loads t = TooDeep)
  end.
Proof.
  intros Hcwd.
  assert (Hdict : ∀ v,
    match invalid_format (paper_dir_of cwd v) with
    | Ok paper_dir => isabs paper_dir = true
    | Raise e =>
        e = ValueError NoPaperPath ∨ e = ValueError InvalidInputFormat
        ∨ (∃ s, file_info = PStr s ∧ e = ValueError (NeitherPathNorJson s))
        ∨ (e = RecursionError ∧ ∃ t, json_loads t = TooDeep)
    end).
  { intros v. pose proof (paper_dir_of_spec v Hcwd) as H.
    destruct (paper_dir_of cwd v) as [p|e]; [done|].
    destruct H as [->|[->| ->]]; cbn; auto. }
  unfold extract_file_path.
  destruct file_info as [| | | |s| |]; try apply Hdict.
  destruct (has_document_suffix s).
  { cbn. by apply dirname_isabs, abspath_isabs. }
  destruct (fs dirs s) as [[data|]|].
  { cbn. by apply dirname_isabs, abspath_isabs. }
  { cbn. by apply abspath_isabs. }
  destruct (info_dict_of json_loads s) as [v|e] eqn:Ei;
    cbn [mbind result_bind]; [apply Hdict|].
  apply info_dict_of_Raise in Ei as [->|[-> Ht]]; cbn [invalid_format].
  - right. right. left. by exists s.
  - by right; right; right.
Qed.

(** X20.  With a working directory that is absolute, [extract_file_path]
    returns an absolute path, raises [ValueError], or lets through what
    [json.loads] raised that is no [JSONDecodeError], whatever it is given:
    the [None] its signature allows is never returned. *)
Theorem extract_file_path_absolute dirs (file_info : pyvalue) :
  isabs cwd = true →
  (∃ paper_dir,
     extract_file_path cwd json_loads fs dirs file_info = Ok paper_dir
     ∧ isabs paper_dir = true ∧ paper_dir ≠ [])
  ∨ (∃ why, extract_file_path cwd json_loads fs dirs file_info
            = Raise (ValueError why))
  ∨ (extract_file_path cwd json_loads fs dirs file_info = Raise RecursionError
     ∧ ∃ s, json_loads s = TooDeep).
Proof.
  intros Hcwd. pose proof (extract_file_path_spec dirs file_info Hcwd) as H.
  destruct (extract_file_path _ _ _ _ _) as [p|e].
  - left. exists p. split_and!; [done|done|].
    apply isabs_cons in H as [r ->]. done.
  - right. destruct H as [->|[->|[(s & _ & ->)|[-> Ht]]]];
      [left; by eexists..|by right].
Qed.

(** *** The directory is always determined *)

Lemma finds_directory_bind {A B} (m : result A) (f : A → result B) :
  finds_directory m → (∀ a, finds_directory (f a)) →
  finds_directory (m ≫= f).
Proof.
  unfold finds_directory. intros Hm Hf. destruct m as [a|e]; cbn; [apply Hf|].
  intros [= ->]. by apply Hm.
Qed.

Lemma finds_directory_get v key : finds_directory (get v key).
Proof. by destruct v. Qed.

Lemma finds_directory_dirname_of v : finds_directory (dirname_of v).
Proof. by destruct v. Qed.

Lemma finds_directory_contains_key v key : finds_directory (contains_key v key).
Proof. by destruct v. Qed.

Lemma finds_directory_from_option {A} (o : option A) :
  finds_directory (from_option Ok (Raise OtherError) o).
Proof. by destruct o. Qed.

Lemma finds_directory_path_exists dirs v :
  finds_directory (path_exists fs exists_fd dirs v).
Proof. destruct v; try done; apply finds_directory_from_option. Qed.

Lemma finds_directory_markdown dirs directory :
  finds_directory (markdown_or_raise fs listdir dirs directory).
Proof. unfold markdown_or_raise. by destruct (find_markdown _ _ _ _). Qed.

Lemma finds_directory_resolve dirs paper_dir file_path :
  finds_directory
    (resolve_missing fs listdir exists_fd dirs paper_dir file_path).
Proof.
  unfold resolve_missing. destruct (truth file_path); [|done].
  apply finds_directory_bind; [apply finds_directory_path_exists|].
  intros [|]; [done|].
  apply finds_directory_bind; [apply finds_directory_dirname_of|].
  intros d. destruct (fs dirs d) as [[?|]|]; try done.
  apply finds_directory_bind; [apply finds_directory_markdown|done].
Qed.

Lemma finds_directory_extract_json text :
  finds_directory (extract_json_from_text json_loads text).
Proof.
  intros H. by apply extract_json_from_text_Raise in H as [? _].
Qed.

Lemma finds_directory_text dirs paper_dir file_input :
  finds_directory
    (file_path_of_text json_loads fs listdir exists_fd dirs paper_dir
       file_input).
Proof.
  unfold file_path_of_text.
  destruct (json_loads file_input) as [[| | | | | |items]| |]; try done.
  { destruct (has_key _ _); [|done].
    apply finds_directory_bind; [apply finds_directory_get|].
    intros v. apply finds_directory_resolve. }
  apply finds_directory_bind; [apply finds_directory_extract_json|].
  intros extracted_json. apply finds_directory_bind.
  { destruct extracted_json as [v|]; [|done].
    destruct (truth v); [apply finds_directory_contains_key|done]. }
  intros [|].
  { apply finds_directory_bind; [apply finds_directory_get|].
    intros v. apply finds_directory_resolve. }
  destruct (has_document_suffix _).
  - destruct (fs dirs file_input); [done|].
    apply finds_directory_bind; [apply finds_directory_markdown|done].
  - destruct (fs dirs file_input) as [[?|]|]; try done.
    apply finds_directory_bind; [apply finds_directory_markdown|done].
Qed.

Lemma finds_directory_read dirs file_path :
  finds_directory
    (read_content fs read_fd detect decode decode_replace format_mb printable
       dirs file_path).
Proof.
  destruct file_path; try done; cbn; try apply finds_directory_from_option.
  by destruct (read_file_content _ _ _ _ _ _ _).1.
Qed.

Lemma finds_directory_locate dirs paper_dir file_input :
  finds_directory
    (locate_and_read json_loads fs listdir exists_fd read_fd detect decode
       decode_replace format_mb printable dirs paper_dir file_input).
Proof.
  unfold locate_and_read. apply finds_directory_bind.
  { destruct file_input; try apply finds_directory_text;
      (apply finds_directory_bind; [apply finds_directory_get|]);
      intros v; apply finds_directory_resolve. }
  intros [d p]. destruct (truth p); cbn [negb]; [|done].
  apply finds_directory_bind; [apply finds_directory_read|done].
Qed.

Lemma relocate_truthy (base_dir : option str) (p : str) dirs :
  p ≠ [] →
  ∃ p', (relocate_paper_dir base_dir (Some p) dirs).1 = Some p' ∧ p' ≠ [].
Proof.
  intros Hp. unfold relocate_paper_dir.
  destruct base_dir as [b|]; [|by exists p].
  destruct (truthy b && truthy p) eqn:Ht; [|by exists p].
  apply andb_true_iff in Ht as [Hb _]. cbn [fst]. eexists. split; [done|].
  destruct (existsb _ _); [by destruct b|].
  unfold path_join at 1. destruct (starts_with _ (basename p)) eqn:Hs.
  - destruct (basename p); [done|done].
  - destruct (_ || _).
    + unfold path_join. cbn. destruct b; [done|]. by destruct (_ || _).
    + by destruct (path_join b (lit "papers")).
Qed.

(** X21.  The directory is always determined: whatever [process_file_input]
    is given, it does not raise "Could not determine paper directory path";
    the test before that message never succeeds. *)
Theorem directory_always_determined (file_input : pyvalue)
    (base_dir : option str) (dirs : gset str) :
  isabs cwd = true →
  finds_directory
    (process_file_input cwd json_loads fs listdir exists_fd read_fd detect
       decode decode_replace format_mb printable file_input base_dir dirs).1.
Proof.
  intros Hcwd. unfold process_file_input.
  pose proof (extract_file_path_spec dirs (quoted_path_first file_input) Hcwd)
    as H.
  destruct (extract_file_path _ _ _ _ _) as [p|e].
  - apply isabs_cons in H as [r ->].
    destruct (relocate_truthy base_dir (slash :: r) dirs) as (p' & E & Hp');
      [done|].
    destruct (relocate_paper_dir _ _ _) as [o dirs']. cbn [fst] in E. subst o.
    destruct p' as [|c p']; [done|]. cbn [truthy fst].
    apply finds_directory_locate.
  - cbn [fst]. destruct H as [->|[->|[(s & _ & ->)|[-> _]]]]; done.
Qed.

End FileInputFacts.

Lemma directory_always_determined_witness :
  finds_directory
    (process_file_input (lit "/work") (λ _, NotJson) (λ _ _, None) (λ _ _, [])
       (λ _, None) (λ _, None) (λ _, Unavailable) (λ _ _, None) (λ _, [])
       (λ _, []) (λ _, true) (PStr (lit "paper.md")) (Some (lit "/out")) ∅).1.
Proof.
  apply directory_always_determined. reflexivity.
Defined.

Lemma extract_file_path_absolute_witness :
  (∃ paper_dir,
     extract_file_path (lit "/work") (λ _, NotJson) (λ _ _, None) ∅
       (PStr (lit "notes/paper.md")) = Ok paper_dir
     ∧ isabs paper_dir = true ∧ paper_dir ≠ [])
  ∨ (∃ why, extract_file_path (lit "/work") (λ _, NotJson) (λ _ _, None) ∅
              (PStr (lit "notes/paper.md")) = Raise (ValueError why))
  ∨ (extract_file_path (lit "/work") (λ _, NotJson) (λ _ _, None) ∅
       (PStr (lit "notes/paper.md")) = Raise RecursionError
     ∧ ∃ s, (λ _ : str, NotJson) s = TooDeep).
Proof.
  apply extract_file_path_absolute. reflexivity.
Defined.

(** *** What a successful call has read *)

Lemma bind_Ok {A B} (m : result A) (f : A → result B) (b : B) :
  m ≫= f = Ok b → ∃ a, m = Ok a ∧ f a = Ok b.
Proof. destruct m as [a|e]; cbn; [by exists a|done]. Qed.

Section ProcessedFacts.
Variable cwd : str.
Variable json_loads : str → loaded.
Variable fs : gset str → str → option entry.
Variable listdir : gset str → str → list str.
Variable exists_fd : Z → option bool.
Variable read_fd : Z → option str.
Variable detect : bytes → detection.
Variable decode : str → bytes → option str.
Variable decode_replace : bytes → str.
Variable format_mb : Z → str.
Variable printable : message → bool.

Lemma process_file_input_Ok file_input base_dir dirs r :
  (process_file_input cwd json_loads fs listdir exists_fd read_fd detect
     decode decode_replace format_mb printable file_input base_dir dirs).1 = Ok r →
  ∃ found new_dir,
    extract_file_path cwd json_loads fs dirs (quoted_path_first file_input)
    = Ok found
    ∧ (relocate_paper_dir base_dir (Some found) dirs).1 = Some new_dir
    ∧ (process_file_input cwd json_loads fs listdir exists_fd read_fd detect
         decode decode_replace format_mb printable file_input base_dir dirs).2
      = (relocate_paper_dir base_dir (Some found) dirs).2
    ∧ locate_and_read json_loads fs listdir exists_fd read_fd detect decode
        decode_replace format_mb printable
        (relocate_paper_dir base_dir (Some found) dirs).2 new_dir
        (quoted_path_first file_input) = Ok r.
Proof.
  unfold process_file_input.
  destruct (extract_file_path _ _ _ _ _) as [found|e]; [|done].
  destruct (relocate_paper_dir _ _ _) as [[new_dir|] dirs'] eqn:E; [|done].
  destruct (truthy new_dir); [|done]. cbn [fst snd]. intros H.
  exists found, new_dir. by rewrite E.
Qed.

Lemma read_content_Ok dirs file_path text :
  read_content fs read_fd detect decode decode_replace format_mb printable dirs
    file_path = Ok text →
  match file_path with
  | PStr p =>
      ∃ data, fs dirs p = Some (File data)
        ∧ (read_file_content detect decode decode_replace format_mb
             printable (fs dirs) p).1 = Return text
  | PInt n => read_fd n = Some text
  | PBool b => read_fd (if b then 1 else 0) = Some text
  | _ => False
  end.
Proof.
  destruct file_path as [|b|n| |p| |]; cbn [read_content]; try done.
  - by destruct (read_fd _) as [t|]; intros [= ->].
  - by destruct (read_fd _) as [t|]; intros [= ->].
  - destruct (read_file_content _ _ _ _ _ _ _).1 as [t| |] eqn:E; try done.
    intros [= ->]. pose proof E as E'. unfold read_file_content in E'.
    destruct (fs dirs p) as [[data|]|] eqn:Ef; [|done|done].
    by exists data.
Qed.

Lemma locate_and_read_Ok dirs paper_dir file_input r :
  locate_and_read json_loads fs listdir exists_fd read_fd detect decode
    decode_replace format_mb printable dirs paper_dir file_input = Ok r →
  ∃ text,
    truth (res_file_path r) = true
    ∧ read_content fs read_fd detect decode decode_replace format_mb printable
        dirs (res_file_path r) = Ok text
    ∧ parse_markdown_sections text = Some (res_sections r)
    ∧ res_standardized_text r = standardize_output (res_sections r)
    ∧ match file_input with
      | PStr s =>
          file_path_of_text json_loads fs listdir exists_fd dirs paper_dir s
      | _ =>
          file_path ← get file_input paper_path_key;
          resolve_missing fs listdir exists_fd dirs paper_dir file_path
      end = Ok (res_paper_dir r, res_file_path r).
Proof.
  unfold locate_and_read. intros ([d p] & E & H)%bind_Ok.
  destruct (truth p) eqn:Hp; cbn [negb] in H; [|done].
  apply bind_Ok in H as (content & Hread & [= <-]). cbn.
  destruct (parse_spec content) as (trees & Eparse & _).
  exists content. rewrite Eparse. by split_and!.
Qed.

(** X22.  What a successful call has read.  When [process_file_input]
    returns, the path it reports names a regular file of the file system
    as the call leaves it; [sections] is that file's text, read by
    [read_file_content] and parsed, its headings those of the text, in
    order; and [standardized_text] is the rendering of [sections]. *)
Theorem processed_file_is_read (file_input : pyvalue) (base_dir : option str)
    (dirs : gset str) (r : processed) :
  (process_file_input cwd json_loads fs listdir exists_fd read_fd detect
     decode decode_replace format_mb printable file_input base_dir dirs).1 = Ok r →
  let dirs' :=
    (process_file_input cwd json_loads fs listdir exists_fd read_fd detect
       decode decode_replace format_mb printable file_input base_dir dirs).2 in
  ∃ text,
    parse_markdown_sections text = Some (res_sections r)
    ∧ headings (res_sections r) = heading_lines (split_nl text)
    ∧ res_standardized_text r = standardize_output (res_sections r)
    ∧ match res_file_path r with
      | PStr p =>
          ∃ data, fs dirs' p = Some (File data)
            ∧ (read_file_content detect decode decode_replace format_mb
                 printable (fs dirs') p).1 = Return text
      | PInt n => read_fd n = Some text
      | PBool b => b = true ∧ read_fd 1 = Some text
      | _ => False
      end.
Proof.
  intros H dirs'.
  apply process_file_input_Ok in H as (found & new_dir & _ & _ & Ed & H).
  subst dirs'. rewrite Ed. clear Ed.
  apply locate_and_read_Ok in H as (text & Ht & Hread & Hparse & Hstd & _).
  exists text. split; [done|]. split; [by apply headings_parse|].
  split; [done|]. apply read_content_Ok in Hread.
  destruct (res_file_path r) as [|b| | | | |]; try done.
  cbn in Ht. by subst b.
Qed.

(** *** The directory a successful call reports *)

(** What the block that looks for a missing file leaves, for a call that
    goes on to read the file it reports. *)
Lemma resolve_missing_Ok dirs paper_dir file_path d p text :
  resolve_missing fs listdir exists_fd dirs paper_dir file_path = Ok (d, p) →
  read_content fs read_fd detect decode decode_replace format_mb printable dirs
    p = Ok text →
  match file_path with
  | PStr paper_path =>
      match fs dirs paper_path with
      | Some _ => d = paper_dir ∧ p = PStr paper_path
      | None =>
          paper_path = [] ∧ d = paper_dir ∧ p = PStr paper_path
          ∨ d = dirname paper_path
            ∧ fs dirs (dirname paper_path) = Some Directory
            ∧ ∃ markdown,
                find_markdown fs listdir dirs (dirname paper_path)
                = Some markdown
                ∧ p = PStr markdown
      end
  | _ => d = paper_dir
  end.
Proof.
  unfold resolve_missing. intros H Hread.
  destruct (truth file_path) eqn:Ht.
  - apply bind_Ok in H as ([|] & Hex & H).
    + injection H as <- <-. destruct file_path as [| | | |s| |]; try done.
      cbn in Hex. injection Hex as Hex. apply bool_decide_eq_true in Hex.
      by destruct Hex as [x ->].
    + apply bind_Ok in H as (d' & Hd & H).
      destruct file_path as [| | | |s| |]; try done.
      injection Hd as <-. cbn in Hex. injection Hex as Hex.
      apply bool_decide_eq_false in Hex.
      destruct (fs dirs s) as [x|] eqn:Hs; [exfalso; by apply Hex|].
      right. destruct (fs dirs (dirname s)) as [[?|]|] eqn:Hdir.
      * injection H as <- <-. apply read_content_Ok in Hread as (? & ? & _).
        congruence.
      * apply bind_Ok in H as (v & Hv & [= <- <-]).
        unfold markdown_or_raise in Hv.
        destruct (find_markdown _ _ _ _) as [markdown|] eqn:Hm; [|done].
        injection Hv as <-. split; [done|]. split; [done|]. by exists markdown.
      * injection H as <- <-. apply read_content_Ok in Hread as (? & ? & _).
        congruence.
  - injection H as <- <-. destruct file_path as [| | | |s| |]; try done.
    destruct s; [|done]. destruct (fs dirs []); [done|]. by left.
Qed.

(** X23.  The directory a successful call reports.  When the input names a
    [paper_path], a string, that does not exist once the directory for the
    paper has been made, the call reports the directory of that missing
    path, which is a directory, wherever it is, and as file its first
    markdown file; in every other case it reports the directory it made for
    the paper, under [base_dir] when that is given, and when the input names
    a [paper_path] that exists, that path as the file. *)
Theorem reported_paper_dir (file_input : pyvalue) (base_dir : option str)
    (dirs : gset str) (r : processed) :
  (process_file_input cwd json_loads fs listdir exists_fd read_fd detect
     decode decode_replace format_mb printable file_input base_dir dirs).1 = Ok r →
  ∃ found new_dir,
    extract_file_path cwd json_loads fs dirs (quoted_path_first file_input)
    = Ok found
    ∧ (relocate_paper_dir base_dir (Some found) dirs).1 = Some new_dir
    ∧ match named_paper_path json_loads (quoted_path_first file_input) with
      | Some (PStr paper_path) =>
          match fs (relocate_paper_dir base_dir (Some found) dirs).2
                  paper_path with
          | Some _ =>
              res_paper_dir r = new_dir ∧ res_file_path r = PStr paper_path
          | None =>
              res_paper_dir r = dirname paper_path
              ∧ fs (relocate_paper_dir base_dir (Some found) dirs).2
                  (dirname paper_path) = Some Directory
              ∧ ∃ markdown,
                  find_markdown fs listdir
                    (relocate_paper_dir base_dir (Some found) dirs).2
                    (dirname paper_path) = Some markdown
                  ∧ res_file_path r = PStr markdown
          end
      | _ => res_paper_dir r = new_dir
      end.
Proof.
  intros H.
  apply process_file_input_Ok in H as (found & new_dir & Hf & Hn & _ & H).
  exists found, new_dir. split; [done|]. split; [done|].
  apply locate_and_read_Ok in H as (text & Ht & Hread & _ & _ & H).
  set (dirs' := (relocate_paper_dir base_dir (Some found) dirs).2) in *.
  (* what the missing-file block gives for the value [v] it is handed *)
  assert (Hres : ∀ v,
    resolve_missing fs listdir exists_fd dirs' new_dir v
    = Ok (res_paper_dir r, res_file_path r) →
    match v with
    | PStr paper_path =>
        match fs dirs' paper_path with
        | Some _ =>
            res_paper_dir r = new_dir ∧ res_file_path r = PStr paper_path
        | None =>
            res_paper_dir r = dirname paper_path
            ∧ fs dirs' (dirname paper_path) = Some Directory
            ∧ ∃ markdown,
                find_markdown fs listdir dirs' (dirname paper_path)
                = Some markdown
                ∧ res_file_path r = PStr markdown
        end
    | _ => res_paper_dir r = new_dir
    end).
  { intros v Hv.
    pose proof (resolve_missing_Ok _ _ _ _ _ _ Hv Hread) as Hcase.
    destruct v as [| | | |s| |]; try done.
    destruct (fs dirs' s); [done|].
    destruct Hcase as [(-> & _ & Hp)|?]; [|done].
    rewrite Hp in Ht. done. }
  assert (Hget : ∀ items,
    (file_path ← get (PDict items) paper_path_key;
     resolve_missing fs listdir exists_fd dirs' new_dir file_path)
    = Ok (res_paper_dir r, res_file_path r) →
    match dict_get items paper_path_key with
    | Some (PStr paper_path) =>
        match fs dirs' paper_path with
        | Some _ =>
            res_paper_dir r = new_dir ∧ res_file_path r = PStr paper_path
        | None =>
            res_paper_dir r = dirname paper_path
            ∧ fs dirs' (dirname paper_path) = Some Directory
            ∧ ∃ markdown,
                find_markdown fs listdir dirs' (dirname paper_path)
                = Some markdown
                ∧ res_file_path r = PStr markdown
        end
    | _ => res_paper_dir r = new_dir
    end).
  { intros items Hv. unfold get in Hv. cbn [mbind result_bind] in Hv.
    apply Hres in Hv. by destruct (dict_get items paper_path_key) as [v|]. }
  destruct (quoted_path_first file_input) as [| | | |s|l|items];
    cbn [named_paper_path]; try (by apply bind_Ok in H as (v & [=] & _)).
  - (* a text *)
    unfold file_path_of_text in H.
    destruct (json_loads s) as [[| | | | | |items]| |]; try done.
    { destruct (has_key items paper_path_key); [|done]. by apply Hget. }
    apply bind_Ok in H as (extracted & Hex & H). rewrite Hex.
    apply bind_Ok in H as ([|] & Hhas & H).
    + destruct extracted as [[| | | | | |items]|];
        try (by apply bind_Ok in H as (v & [=] & _)).
      by apply Hget.
    + assert (Hdir : res_paper_dir r = new_dir).
      { destruct (has_document_suffix s).
        - destruct (fs dirs' s); [by injection H as <- _|].
          by apply bind_Ok in H as (v & _ & [= <- _]).
        - destruct (fs dirs' s) as [[?|]|]; [by injection H as <- _| |done].
          by apply bind_Ok in H as (v & _ & [= <- _]). }
      destruct extracted as [[| | | | | |items]|]; try done.
      destruct (truth (PDict items)) eqn:Htr.
      * cbn [contains_key] in Hhas. injection Hhas as Hhas.
        unfold has_key in Hhas. apply bool_decide_eq_false in Hhas.
        destruct (dict_get items paper_path_key) as [v|]; [|done].
        exfalso. by apply Hhas.
      * by destruct items.
  - (* a dict *)
    by apply Hget.
Qed.

End ProcessedFacts.

(** A working directory that holds [paper.md], whose text is one
    heading. *)
Lemma processed_file_is_read_witness :
  let fs := λ (_ : gset str) p,
    if bool_decide (p = lit "paper.md") then Some (File []) else None in
  let decode := λ (_ : str) (_ : bytes), Some (lit "# T") in
  let printable := λ _ : message, true in
  let r := mkProcessed (lit "/work") (PStr (lit "paper.md"))
             [Node 1 (lit "T") [] []]
             (standardize_output [Node 1 (lit "T") [] []]) in
  ∃ text,
    parse_markdown_sections text = Some (res_sections r)
    ∧ headings (res_sections r) = heading_lines (split_nl text)
    ∧ res_standardized_text r = standardize_output (res_sections r)
    ∧ ∃ data, fs ∅ (lit "paper.md") = Some (File data)
        ∧ (read_file_content (λ _, Unavailable) decode (λ _, []) (λ _, [])
             printable (fs ∅) (lit "paper.md")).1 = Return text.
Proof.
  intros fs decode printable r.
  apply (processed_file_is_read (lit "/work") (λ _, NotJson) fs (λ _ _, [])
           (λ _, None) (λ _, None) (λ _, Unavailable) decode (λ _, [])
           (λ _, []) printable (PStr (lit "paper.md")) None ∅ r).
  vm_compute. reflexivity.
Defined.

(** A paper that is missing from [/data/p1], which holds [notes.md]: the
    call for [/out] reports [/data/p1] and [notes.md]. *)
Lemma reported_paper_dir_witness :
  let fs := λ (_ : gset str) p,
    if bool_decide (p = lit "/data/p1") then Some Directory
    else if bool_decide (p = lit "/data/p1/notes.md") then Some (File [])
    else None in
  let listdir := λ (_ : gset str) (_ : str), [lit "notes.md"] in
  let json_loads := λ _ : str, NotJson in
  let file_input := PDict [(paper_path_key, PStr (lit "/data/p1/paper.md"))] in
  let r := mkProcessed (lit "/data/p1") (PStr (lit "/data/p1/notes.md"))
             [Node 1 (lit "T") [] []]
             (standardize_output [Node 1 (lit "T") [] []]) in
  ∃ found new_dir,
    extract_file_path (lit "/work") json_loads fs ∅
      (quoted_path_first file_input) = Ok found
    ∧ (relocate_paper_dir (Some (lit "/out")) (Some found) ∅).1 = Some new_dir
    ∧ match named_paper_path json_loads (quoted_path_first file_input) with
      | Some (PStr paper_path) =>
          match fs (relocate_paper_dir (Some (lit "/out")) (Some found) ∅).2
                  paper_path with
          | Some _ =>
              res_paper_dir r = new_dir ∧ res_file_path r = PStr paper_path
          | None =>
              res_paper_dir r = dirname paper_path
              ∧ fs (relocate_paper_dir (Some (lit "/out")) (Some found) ∅).2
                  (dirname paper_path) = Some Directory
              ∧ ∃ markdown,
                  find_markdown fs listdir
                    (relocate_paper_dir (Some (lit "/out")) (Some found) ∅).2
                    (dirname paper_path) = Some markdown
                  ∧ res_file_path r = PStr markdown
          end
      | _ => res_paper_dir r = new_dir
      end.
Proof.
  intros fs listdir json_loads file_input r.
  apply (reported_paper_dir (lit "/work") json_loads fs listdir
           (λ _, None) (λ _, None) (λ _, Unavailable)
           (λ _ _, Some (lit "# T")) (λ _, []) (λ _, []) (λ _, true)
           file_input (Some (lit "/out")) ∅ r).
  vm_compute. reflexivity.
Defined.

(** *** Siblings never get deeper *)

Lemma never_increases_snoc (l : list Z) (x : Z) :
  never_increases (l ++ [x])
  = never_increases l && match last l with Some y => x <=? y | None => true end.
Proof.
  induction l as [|a l IH]; [done|].
  destruct l as [|b l]; [cbn; by rewrite andb_true_r|].
  change (never_increases ((a :: b :: l) ++ [x]))
    with ((b <=? a) && never_increases ((b :: l) ++ [x])).
  rewrite IH. change (never_increases (a :: b :: l))
    with ((b <=? a) && never_increases (b :: l)).
  change (last (a :: b :: l)) with (last (b :: l)). by rewrite andb_assoc.
Qed.

Lemma last_map {A B} (f : A → B) (l : list A) :
  last (map f l) = f <$> last l.
Proof.
  induction l as [|a l IH]; [done|]. destruct l as [|b l]; [done|].
  exact IH.
Qed.

Lemma parent_of_Some_lt levels j p :
  parent_of levels j = Some p → (p < j)%nat ∧ is_Some (levels !! j).
Proof.
  unfold parent_of. destruct (levels !! j) as [lj|] eqn:Hj; [|done].
  intros Hp. pose proof (nearest_shallower_spec levels lj j) as H.
  rewrite Hp in H. by destruct H as (? & _).
Qed.

(** Two sections with the same parent: the later one is not deeper. *)
Lemma same_parent_levels levels p j1 j2 :
  (j1 < j2 < length levels)%nat →
  parent_of levels j1 = p → parent_of levels j2 = p →
  level_at levels j2 <= level_at levels j1.
Proof.
  intros [H12 H2] H1p H2p. unfold level_at.
  destruct (lookup_lt_is_Some_2 levels j2 H2) as [l2 Hl2].
  destruct (lookup_lt_is_Some_2 levels j1) as [l1 Hl1]; [lia|].
  rewrite Hl1, Hl2. cbn. unfold parent_of in H2p. rewrite Hl2 in H2p.
  pose proof (nearest_shallower_spec levels l2 j2) as H. rewrite H2p in H.
  destruct p as [q|].
  - destruct H as (_ & _ & Hbetween). apply (Hbetween j1); [|done].
    apply parent_of_Some_lt in H1p as [? _]. lia.
  - by apply (H j1).
Qed.

Lemma children_levels levels p n :
  (n ≤ length levels)%nat →
  never_increases (map (level_at levels) (children_of levels p n)) = true
  ∧ Forall (λ j, (j < n)%nat ∧ parent_of levels j = p) (children_of levels p n).
Proof.
  induction n as [|n IH]; intros Hn; [by split|].
  destruct IH as [IH1 IH2]; [lia|]. rewrite children_of_S.
  assert (IH2' : Forall (λ j, (j < S n)%nat ∧ parent_of levels j = p)
                   (children_of levels p n)).
  { eapply Forall_impl; [exact IH2|]. intros j [? ?]. split; [lia|done]. }
  destruct (bool_decide (parent_of levels n = p)) eqn:Hp;
    [|rewrite app_nil_r; by split].
  apply bool_decide_eq_true in Hp. split.
  - rewrite map_app. cbn [map]. rewrite never_increases_snoc, IH1. cbn [andb].
    destruct (last (map _ _)) as [y|] eqn:Hy; [|done].
    rewrite last_map in Hy.
    destruct (last (children_of levels p n)) as [j1|] eqn:Hj1; [|done].
    injection Hy as <-. apply Z.leb_le.
    apply last_Some in Hj1 as [l' Hj1]. rewrite Hj1 in IH2.
    apply Forall_app in IH2 as [_ [[Hlt Hp1] _]%Forall_cons].
    apply (same_parent_levels levels p); [lia|done|done].
  - apply Forall_app. split; [done|]. by repeat constructor.
Qed.

Lemma siblings_to_tree (h : list section_dict) (levels : list Z) (n : nat)
    (t : atree) :
  (∀ x, level <$> h !! x = levels !! x) →
  (∀ p s, h !! p = Some s → subsections s = children_of levels (Some p) n) →
  (n ≤ length levels)%nat →
  repr h t → siblings_ordered (to_tree h t) = true.
Proof.
  intros Hlev Hsub Hn. induction t as [r kids IH] using atree_ind.
  rewrite repr_unfold. intros [(s & Hs & Hkids) Hk].
  rewrite (to_tree_unfold _ _ _ _ Hs). cbn [siblings_ordered].
  apply andb_true_iff. split.
  - rewrite map_map.
    rewrite (map_ext_Forall _ (λ k, level_at levels (aroot k))).
    + rewrite <- (map_map aroot (level_at levels)), <- Hkids, (Hsub r s Hs).
      by apply children_levels.
    + eapply Forall_impl; [exact Hk|]. intros [r' kids'] Hr'.
      apply repr_unfold in Hr' as [(s' & Hs' & _) _].
      rewrite (tree_level_to_tree h _ s') by done.
      unfold level_at. cbn [aroot]. by rewrite <- Hlev, Hs'.
  - apply forallb_forall. intros t' Hin.
    apply in_map_iff in Hin as (k & <- & Hin).
    rewrite Forall_forall in IH, Hk.
    apply IH; [by apply list_elem_of_In|by apply Hk, list_elem_of_In].
Qed.

(** X24.  Siblings never get deeper.  In the tree the builder makes of a
    flat sequence, the levels of the roots never increase from one root to
    the next, and neither do the levels of the subsections of one section,
    at every depth: a section that is deeper than the one before it is
    never its sibling. *)
Theorem siblings_never_deeper (flat : list section_dict) :
  is_flat flat →
  ∃ trees, build_tree flat = Some trees
    ∧ never_increases (map tree_level trees) = true
    ∧ forallb siblings_ordered trees = true.
Proof.
  intros Hflat.
  destruct (organize_flat flat Hflat)
    as (h & closed & Horg & Hcl & Hrefs & Hlen & _ & _).
  destruct (parent_inv_loop flat (length flat) 0 flat [] []
              (parent_inv_init flat Hflat) eq_refl)
    as (h' & result & st & Hloop & (_ & Hlev & Hres & Hsub & _)).
  unfold _organize_sections in Horg. rewrite Hloop in Horg. cbn in Horg.
  injection Horg as -> Hroots.
  exists (map (to_tree h) closed). split.
  { unfold build_tree, _organize_sections. rewrite Hloop. cbn. rewrite Hroots.
    apply forest_repr; [done|]. rewrite Hrefs, length_seq. lia. }
  assert (Hn : (length flat ≤ length (map level flat))%nat)
    by (rewrite length_map; lia).
  split.
  - rewrite map_map.
    rewrite (map_ext_Forall _ (λ k, level_at (map level flat) (aroot k))).
    + rewrite <- (map_map aroot (level_at _)), <- Hroots, Hres.
      by apply children_levels.
    + eapply Forall_impl; [exact Hcl|]. intros [r' kids'] Hr'.
      apply repr_unfold in Hr' as [(s' & Hs' & _) _].
      rewrite (tree_level_to_tree h _ s') by done.
      unfold level_at. cbn [aroot]. by rewrite <- Hlev, Hs'.
  - apply forallb_forall. intros t Hin.
    apply in_map_iff in Hin as (a & <- & Hin).
    apply (siblings_to_tree h (map level flat) (length flat)); [done..|].
    rewrite Forall_forall in Hcl. by apply Hcl, list_elem_of_In.
Qed.

Lemma siblings_never_deeper_witness :
  ∃ trees,
    build_tree [mkSection 1 (lit "a") [] []; mkSection 3 (lit "b") [] [];
                mkSection 2 (lit "c") [] []; mkSection 1 (lit "d") [] []]
    = Some trees
    ∧ never_increases (map tree_level trees) = true
    ∧ forallb siblings_ordered trees = true.
Proof.
  apply siblings_never_deeper. by repeat constructor.
Defined.

(** *** A paper that exists is processed *)

Lemma normpath_nonempty (p : str) : normpath p ≠ [].
Proof.
  unfold normpath. destruct (negb (truthy p)); [done|].
  destruct (truthy (_ ++ _)) eqn:E; [|done]. by destruct (_ ++ _).
Qed.

Section ExistingPaper.
Variable cwd : str.
Variable json_loads : str → loaded.
Variable fs : gset str → str → option entry.
Variable listdir : gset str → str → list str.
Variable exists_fd : Z → option bool.
Variable read_fd : Z → option str.
Variable detect : bytes → detection.
Variable decode : str → bytes → option str.
Variable decode_replace : bytes → str.
Variable format_mb : Z → str.
Variable printable : message → bool.

(** X25.  A paper that exists is processed.  Given a dict whose [paper_path]
    is a string that names a regular file once the directory for the paper
    has been made, and an output that takes every message,
    [process_file_input] returns: it reports that file and the directory it
    made, and the sections of the file's text. *)
Theorem existing_paper_is_processed (items : list (str * pyvalue))
    (paper_path : str) (data : bytes) (base_dir : option str)
    (dirs : gset str) :
  (∀ m, printable m = true) →
  dict_get items paper_path_key = Some (PStr paper_path) →
  paper_path ≠ [] →
  let found :=
    if isabs (dirname paper_path) then dirname paper_path
    else abspath cwd (dirname paper_path) in
  let dirs' := (relocate_paper_dir base_dir (Some found) dirs).2 in
  fs dirs' paper_path = Some (File data) →
  ∃ r text,
    process_file_input cwd json_loads fs listdir exists_fd read_fd detect
      decode decode_replace format_mb printable (PDict items) base_dir dirs
    = (Ok r, dirs')
    ∧ Some (res_paper_dir r) = (relocate_paper_dir base_dir (Some found) dirs).1
    ∧ res_file_path r = PStr paper_path
    ∧ (read_file_content detect decode decode_replace format_mb printable
         (fs dirs') paper_path).1 = Return text
    ∧ parse_markdown_sections text = Some (res_sections r)
    ∧ res_standardized_text r = standardize_output (res_sections r).
Proof.
  intros Hprint Hget Hne found dirs' Hfile.
  assert (Hfound : found ≠ []).
  { subst found. destruct (isabs (dirname paper_path)) eqn:E.
    - apply isabs_cons in E as [r ->]. done.
    - apply normpath_nonempty. }
  destruct (relocate_truthy base_dir found dirs Hfound) as (new_dir & En & Hn).
  destruct (read_file_content_returns detect decode decode_replace format_mb
              printable (fs dirs') paper_path data Hprint Hfile)
    as [text Htext].
  destruct (parse_spec text) as (trees & Hparse & _).
  exists (mkProcessed new_dir (PStr paper_path) trees (standardize_output trees)),
    text.
  split; [|by rewrite En].
  assert (Hg : get (PDict items) paper_path_key = Ok (PStr paper_path)).
  { unfold get. by rewrite Hget. }
  assert (Ht : truth (PStr paper_path) = true) by by destruct paper_path.
  assert (He : extract_file_path cwd json_loads fs dirs (PDict items)
               = Ok found).
  { unfold extract_file_path, paper_dir_of. rewrite Hg.
    cbn [mbind result_bind]. by rewrite Ht. }
  assert (Hl : locate_and_read json_loads fs listdir exists_fd read_fd detect
                 decode decode_replace format_mb printable dirs' new_dir
                 (PDict items)
               = Ok (mkProcessed new_dir (PStr paper_path) trees
                       (standardize_output trees))).
  { unfold locate_and_read. rewrite Hg. cbn [mbind result_bind].
    unfold resolve_missing. rewrite Ht. cbn [path_exists mbind result_bind].
    rewrite Hfile, bool_decide_eq_true_2 by by eexists.
    cbn [mbind result_bind]. rewrite Ht. cbn [negb read_content].
    rewrite Htext.
    cbn [mbind result_bind]. by rewrite Hparse. }
  unfold process_file_input. cbn [quoted_path_first]. rewrite He.
  subst dirs'.
  destruct (relocate_paper_dir base_dir (Some found) dirs) as [o d] eqn:Er.
  cbn [fst snd] in *. subst o.
  destruct new_dir as [|c' n]; [done|]. cbn [truthy]. by rewrite Hl.
Qed.

End ExistingPaper.

(** A paper in [/data/p1], processed for [/out]. *)
Lemma existing_paper_is_processed_witness :
  let fs := λ (_ : gset str) p,
    if bool_decide (p = lit "/data/p1/paper.md") then Some (File []) else None in
  let decode := λ (_ : str) (_ : bytes), Some (lit "# T") in
  let printable := λ _ : message, true in
  let dirs' :=
    (relocate_paper_dir (Some (lit "/out")) (Some (lit "/data/p1")) ∅).2 in
  ∃ r text,
    process_file_input (lit "/work") (λ _, NotJson) fs (λ _ _, []) (λ _, None)
      (λ _, None) (λ _, Unavailable) decode (λ _, []) (λ _, []) printable
      (PDict [(paper_path_key, PStr (lit "/data/p1/paper.md"))])
      (Some (lit "/out")) ∅
    = (Ok r, dirs')
    ∧ Some (res_paper_dir r)
      = (relocate_paper_dir (Some (lit "/out")) (Some (lit "/data/p1")) ∅).1
    ∧ res_file_path r = PStr (lit "/data/p1/paper.md")
    ∧ (read_file_content (λ _, Unavailable) decode (λ _, []) (λ _, [])
         printable (fs dirs') (lit "/data/p1/paper.md")).1 = Return text
    ∧ parse_markdown_sections text = Some (res_sections r)
    ∧ res_standardized_text r = standardize_output (res_sections r).
Proof.
  intros fs decode printable dirs'.
  apply (existing_paper_is_processed (lit "/work") (λ _, NotJson) fs
           (λ _ _, []) (λ _, None) (λ _, None) (λ _, Unavailable) decode
           (λ _, []) (λ _, []) printable
           [(paper_path_key, PStr (lit "/data/p1/paper.md"))]
           (lit "/data/p1/paper.md") [] (Some (lit "/out")) ∅).
  - reflexivity.
  - reflexivity.
  - discriminate.
  - reflexivity.
Defined.

(** *** The document returned for a PDF *)

Lemma string_of_uint_no_newline d :
  no_newline (lit (NilEmpty.string_of_uint d)).
Proof.
  induction d; cbn; [constructor|..]; by constructor.
Qed.

Lemma decimal_no_newline k : no_newline (decimal k).
Proof. apply string_of_uint_no_newline. Qed.

Lemma group3_cons a b c d more :
  group3 (a :: b :: c :: d :: more) = a :: b :: c :: ","%char :: group3 (d :: more).
Proof. reflexivity. Qed.

Lemma group3_no_newline s : no_newline s → no_newline (group3 s).
Proof.
  remember (length s) as n eqn:Hn. revert s Hn.
  induction n as [n IH] using lt_wf_ind. intros s -> H.
  destruct s as [|a [|b [|c [|d more]]]]; try done.
  rewrite group3_cons.
  apply Forall_cons in H as [Ha H]. apply Forall_cons in H as [Hb H].
  apply Forall_cons in H as [Hc H].
  do 4 (constructor; [done|]).
  eapply IH; [|done..]. cbn. lia.
Qed.

Lemma format_commas_no_newline n : no_newline (format_commas n).
Proof.
  unfold format_commas. apply Forall_rev, group3_no_newline, Forall_rev.
  apply string_of_uint_no_newline.
Qed.

Lemma mb_figure_no_newline n : no_newline (mb_figure n).
Proof.
  unfold mb_figure. cbn zeta. apply Forall_app. split; [apply decimal_no_newline|].
  constructor; [done|]. apply Forall_app. split; apply decimal_no_newline.
Qed.


Lemma scan_step_heading line k g sofar cur content rest :
  header_match line = Some (k, g) →
  fold_left scan_line (line :: rest) (mkScan sofar cur content)
  = fold_left scan_line rest
      (mkScan
         match cur with
         | Some c => sofar ++ [close_section c content]
         | None => sofar
         end (Some (Z.of_nat k, strip g)) []).
Proof. intros H. cbn [fold_left]. unfold scan_line at 2. by rewrite H. Qed.

Lemma scan_step_body line sofar c content rest :
  header_match line = None →
  fold_left scan_line (line :: rest) (mkScan sofar (Some c) content)
  = fold_left scan_line rest (mkScan sofar (Some c) (content ++ [line])).
Proof. intros H. cbn [fold_left]. unfold scan_line at 2. by rewrite H. Qed.

Lemma header_match_no_hash c s : is_hash c = false → header_match (c :: s) = None.
Proof. intros H. unfold header_match. cbn [span]. by rewrite H. Qed.

(** The lines under the first heading, between two empty lines. *)
Lemma strip_head_block (a s : str) :
  strip (join_nl [[]; lit "**File**: " ++ a; lit "**Size**: " ++ s;
                  lit "**Type**: PDF Document"; []])
  = join_nl [lit "**File**: " ++ a; lit "**Size**: " ++ s;
             lit "**Type**: PDF Document"].
Proof.
  pose proof (strip_block (lit "*File**: ") "*"%char
    (a ++ nl :: (lit "**Size**: " ++ s) ++ nl :: lit "**Type**: PDF Documen")
    "t"%char eq_refl eq_refl) as E.
  cbn [join_nl lit list_ascii_of_string app] in E |- *.
  repeat (rewrite <- app_assoc in E; cbn [app] in E).
  repeat (rewrite <- app_assoc; cbn [app]). exact E.
Qed.

Lemma pdf_document_scan (a s : str) :
  no_newline a → no_newline s →
  scan
    (join_nl
       [lit "# PDF Document Detected";
        [];
        lit "**File**: " ++ a;
        lit "**Size**: " ++ s;
        lit "**Type**: PDF Document";
        [];
        lit "## Issue";
        lit "This file is a PDF document that was incorrectly saved with a .md extension.";
        [];
        lit "## Solutions";
        lit "1. **Rename the file**: Change the extension from .md to .pdf";
        lit "2. **Use a PDF reader**: Open the file with a PDF viewer";
        lit "3. **Convert to text**: Use a PDF-to-text converter";
        [];
        lit "## For DeepCode Processing";
        lit "To process this PDF with DeepCode:";
        lit "1. Rename the file to have a .pdf extension";
        lit "2. Upload it again - DeepCode will automatically extract and convert the content";
        [];
        lit "---";
        lit "*Auto-detected by DeepCode Encoding System*";
        lit "*Respecting your local development privacy preferences*";
        []])
  = [mkSection 1 (lit "PDF Document Detected")
       (join_nl [lit "**File**: " ++ a; lit "**Size**: " ++ s;
                 lit "**Type**: PDF Document"]) [];
     mkSection 2 (lit "Issue")
       (lit "This file is a PDF document that was incorrectly saved with a .md extension.")
       [];
     mkSection 2 (lit "Solutions")
       (join_nl
          [lit "1. **Rename the file**: Change the extension from .md to .pdf";
           lit "2. **Use a PDF reader**: Open the file with a PDF viewer";
           lit "3. **Convert to text**: Use a PDF-to-text converter"]) [];
     mkSection 2 (lit "For DeepCode Processing")
       (join_nl
          [lit "To process this PDF with DeepCode:";
           lit "1. Rename the file to have a .pdf extension";
           lit "2. Upload it again - DeepCode will automatically extract and convert the content";
           [];
           lit "---";
           lit "*Auto-detected by DeepCode Encoding System*";
           lit "*Respecting your local development privacy preferences*"]) []].
Proof.
  intros Ha Hs. unfold scan. rewrite split_nl_join; [|done|].
  2:{ repeat first
        [ apply Forall_nil_2
        | apply Forall_cons_2
        | apply Forall_app_2
        | exact Ha
        | exact Hs
        | reflexivity ]. }
  rewrite (scan_step_heading _ 1 (lit "PDF Document Detected")) by reflexivity.
  rewrite (scan_step_body []) by reflexivity.
  rewrite (scan_step_body (_ ++ a)) by (by apply header_match_no_hash).
  rewrite (scan_step_body (_ ++ s)) by (by apply header_match_no_hash).
  do 2 rewrite scan_step_body by reflexivity.
  rewrite (scan_step_heading _ 2 (lit "Issue")) by reflexivity.
  do 2 rewrite scan_step_body by reflexivity.
  rewrite (scan_step_heading _ 2 (lit "Solutions")) by reflexivity.
  do 4 rewrite scan_step_body by reflexivity.
  rewrite (scan_step_heading _ 2 (lit "For DeepCode Processing")) by reflexivity.
  do 8 rewrite scan_step_body by reflexivity.
  cbn [fold_left scan_finish current_section sections current_content app].
  unfold close_section. cbn [fst snd].
  rewrite strip_head_block.
  repeat f_equal; by vm_compute.
Qed.

(** X26.  A PDF under another suffix, when the output takes the notice.  The
    call opens the file once, in binary mode, prints the notice, detects and
    decodes nothing, and returns a document that the section parser reads as
    one top section, which names the file and gives its size in bytes and in
    megabytes, over three subsections: the issue, the three solutions, and
    the two steps for processing the file.  The name of the file is taken
    to hold no newline and its size to be one [os.path.getsize] can report,
    below [2 ^ 63]. *)
Theorem pdf_document_parsed
    (detect : bytes → detection) (decode : str → bytes → option str)
    (decode_replace : bytes → str) (printable : message → bool)
    (fs : str → option entry) (file_path : str) (data : bytes) :
  fs file_path = Some (File data) →
  starts_with pdf_magic data = true →
  printable (PdfDetected file_path) = true →
  no_newline (basename file_path) →
  let file_size := Z.of_nat (length data) in
  file_size < 2 ^ 63 →
  read_file_content detect decode decode_replace mb_figure printable fs file_path
  = (Return (pdf_document mb_figure file_path file_size),
     [OpenBinary file_path; Printed (PdfDetected file_path)])
  ∧ parse_markdown_sections (pdf_document mb_figure file_path file_size)
    = Some (pdf_sections file_path file_size).
Proof.
  intros Hfs Hpdf Hp Hname file_size _. split.
  - unfold read_file_content. rewrite Hfs.
    by rewrite starts_with_take, Hpdf, Hp by (cbn; lia).
  - unfold parse_markdown_sections, pdf_document, pdf_sections.
    pose proof (format_commas_no_newline file_size) as Hc.
    pose proof (mb_figure_no_newline file_size) as Hm.
    assert (Hs : no_newline
                   (format_commas file_size ++ lit " bytes ("
                    ++ mb_figure file_size ++ lit " MB)")).
    { apply Forall_app. split; [done|]. apply Forall_app. split.
      - by repeat constructor.
      - apply Forall_app. split; [done|]. by repeat constructor. }
    rewrite (pdf_document_scan (basename file_path) _ Hname Hs).
    generalize (format_commas file_size ++ lit " bytes ("
                ++ mb_figure file_size ++ lit " MB)").
    generalize (basename file_path). intros a s. by vm_compute.
Qed.

Lemma pdf_document_parsed_witness :
  let fs := λ _ : str, Some (File [x25; x50; x44; x46; x2d; x31; x2e; x34]%byte) in
  read_file_content (λ _, Unavailable) (λ _ _, None) (λ _, []) mb_figure
    (λ _, true) fs (lit "papers/1/paper.md")
  = (Return (pdf_document mb_figure (lit "papers/1/paper.md") 8),
     [OpenBinary (lit "papers/1/paper.md");
      Printed (PdfDetected (lit "papers/1/paper.md"))])
  ∧ parse_markdown_sections (pdf_document mb_figure (lit "papers/1/paper.md") 8)
    = Some (pdf_sections (lit "papers/1/paper.md") 8).
Proof.
  intros fs.
  apply (pdf_document_parsed (λ _, Unavailable) (λ _ _, None) (λ _, [])
           (λ _, true) fs (lit "papers/1/paper.md")
           [x25; x50; x44; x46; x2d; x31; x2e; x34]%byte).
  - reflexivity.
  - reflexivity.
  - reflexivity.
  - by repeat constructor.
  - reflexivity.
Defined.

(** *** The megabyte figure *)

Lemma round_half_even_nearest n d :
  0 < d → Z.abs (n - round_half_even n d * d) * 2 ≤ d.
Proof.
  intros Hd. unfold round_half_even.
  pose proof (Z.div_mod n d ltac:(lia)) as E.
  pose proof (Z.mod_pos_bound n d Hd) as Hr.
  destruct (Z.ltb_spec (2 * (n mod d)) d); [lia|].
  destruct (Z.ltb_spec d (2 * (n mod d))); [lia|].
  destruct (Z.even (n / d)); lia.
Qed.

Lemma round_half_even_nonneg n d : 0 ≤ n → 0 < d → 0 ≤ round_half_even n d.
Proof.
  intros Hn Hd. unfold round_half_even.
  pose proof (Z.div_pos n d Hn Hd).
  repeat case_match; lia.
Qed.

Lemma decimal_digit k : 0 ≤ k ≤ 9 → decimal k = [digit k].
Proof.
  intros Hk.
  assert (H : k = 0 ∨ k = 1 ∨ k = 2 ∨ k = 3 ∨ k = 4 ∨ k = 5 ∨ k = 6 ∨ k = 7
              ∨ k = 8 ∨ k = 9) by lia.
  repeat destruct H as [->|H]; try reflexivity. by subst.
Qed.

(** X27.  The figure of a size below [2 ^ 53] bytes is the number of
    hundredths of a megabyte of [2 ^ 20] bytes nearest to it, no other
    number of hundredths being nearer, written as the whole megabytes in
    decimal, a point and two digits. *)
Theorem mb_figure_nearest (n : Z) :
  0 ≤ n < 2 ^ 53 →
  let h := mb_hundredths n in
  0 ≤ h
  ∧ (∀ k, Z.abs (100 * n - h * 2 ^ 20) ≤ Z.abs (100 * n - k * 2 ^ 20))
  ∧ mb_figure n
    = decimal (h / 100) ++ ["."%char; digit (h mod 100 / 10); digit (h mod 10)].
Proof.
  intros Hn h.
  assert (Eb : to_binary64 n = n).
  { unfold to_binary64. destruct (Z.leb_spec (Z.log2 n - 52) 0) as [|Hl]; [done|].
    exfalso. destruct (Z.eq_dec n 0) as [->|Hn0]; [by cbn in Hl|].
    assert (Z.log2 n < 53) by (apply Z.log2_lt_pow2; lia). lia. }
  assert (Eh : h = round_half_even (n * 100) (2 ^ 20)).
  { unfold h, mb_hundredths. by rewrite Eb. }
  pose proof (round_half_even_nearest (n * 100) (2 ^ 20) ltac:(lia)) as Hnear.
  rewrite <- Eh in Hnear.
  assert (Hh : 0 ≤ h) by (rewrite Eh; apply round_half_even_nonneg; lia).
  split; [done|]. split; [intros k; lia|].
  unfold mb_figure. fold h. cbn zeta.
  rewrite (decimal_digit (h mod 100 / 10)), (decimal_digit (h mod 10)); [done|..].
  - pose proof (Z.mod_pos_bound h 10 ltac:(lia)). lia.
  - pose proof (Z.mod_pos_bound h 100 ltac:(lia)).
    split; [apply Z.div_pos; lia|].
    apply Z.lt_succ_r, Z.div_lt_upper_bound; lia.
Qed.

(** A file of a megabyte and a half. *)
Lemma mb_figure_nearest_witness :
  let h := mb_hundredths 1572864 in
  0 ≤ h
  ∧ (∀ k, Z.abs (100 * 1572864 - h * 2 ^ 20) ≤ Z.abs (100 * 1572864 - k * 2 ^ 20))
  ∧ mb_figure 1572864
    = decimal (h / 100) ++ ["."%char; digit (h mod 100 / 10); digit (h mod 10)].
Proof. apply (mb_figure_nearest 1572864). lia. Defined.

(** *** A call on an output that takes every message *)

(** X28.  On an output that takes every message, [read_file_content] returns
    a text for every content of an existing file and raises nothing.  For a
    content that is no PDF the text is the strict decoding under the first
    candidate that decodes it; when no candidate does, it is the decoding as
    UTF-8 with replacement, read after the detection and one strict read per
    candidate, and followed by the warning. *)
Theorem text_for_every_content
    (detect : bytes → detection) (decode : str → bytes → option str)
    (decode_replace : bytes → str) (format_mb : Z → str)
    (printable : message → bool)
    (fs : str → option entry) (file_path : str) (data : bytes) :
  (∀ m, printable m = true) →
  fs file_path = Some (File data) →
  let encodings := candidates (detect (take (Z.to_nat 10000) data)) in
  let call :=
    read_file_content detect decode decode_replace format_mb printable fs
      file_path in
  ∃ text,
    call.1 = Return text
    ∧ (starts_with pdf_magic data = false →
       (∃ failed enc rest,
          encodings = failed ++ enc :: rest
          ∧ Forall (λ e, decode e data = None) failed
          ∧ decode enc data = Some text)
       ∨ (Forall (λ e, decode e data = None) encodings
          ∧ text = decode_replace data
          ∧ call.2
            = OpenBinary file_path
                :: detection_events detect file_path
                     (take (Z.to_nat 10000) data)
                ++ map (λ e, OpenText file_path e false) encodings
                ++ [OpenText file_path (lit "utf-8") true;
                    Printed (InvalidUtf8 file_path)])).
Proof.
  intros Hp Hfs encodings call.
  assert (Hw : ∀ detected l,
    Forall (λ e, wins decode printable file_path data detected e = false) l →
    Forall (λ e, decode e data = None) l).
  { intros detected l Hl. eapply Forall_impl; [exact Hl|]. cbn beta.
    intros e. unfold wins, note_printed.
    replace (match note_of file_path detected e with
             | Some note => printable note | None => true end) with true
      by (by destruct (note_of _ _ _)).
    rewrite andb_true_r. intros He%bool_decide_eq_false.
    destruct (decode e data); [|done]. exfalso. apply He. by eexists. }
  unfold call, read_file_content. rewrite Hfs, !Hp.
  rewrite starts_with_take by (cbn; lia).
  destruct (starts_with pdf_magic data); [by eexists|].
  pose proof (try_encodings_spec decode printable file_path data
    (accepted_encoding (detect (take (Z.to_nat 10000) data))) encodings) as H.
  fold encodings.
  destruct (try_encodings _ _ _ _ _ encodings) as [[text|] tr].
  - destruct H as (failed & enc & rest & E & Hf & He & _).
    exists text. split; [done|]. intros _. left.
    exists failed, enc, rest. split; [done|]. split; [|done]. by eapply Hw.
  - destruct H as [Hf ->]. eexists. split; [done|]. intros _. right.
    split; [by eapply Hw|]. by split.
Qed.

Lemma text_for_every_content_witness :
  let fs := λ _ : str, Some (File [xff; xfe; xfd]%byte) in
  let encodings := candidates Unavailable in
  let call :=
    read_file_content (λ _, Unavailable) (λ _ _, None) (λ _, lit "???")
      (λ _, []) (λ _, true) fs (lit "a.md") in
  ∃ text,
    call.1 = Return text
    ∧ (starts_with pdf_magic [xff; xfe; xfd]%byte = false →
       (∃ failed enc rest,
          encodings = failed ++ enc :: rest
          ∧ Forall (λ e, (λ (_ : str) (_ : bytes), @None str) e
                           [xff; xfe; xfd]%byte = None) failed
          ∧ (λ (_ : str) (_ : bytes), @None str) enc [xff; xfe; xfd]%byte
            = Some text)
       ∨ (Forall (λ e, (λ (_ : str) (_ : bytes), @None str) e
                         [xff; xfe; xfd]%byte = None) encodings
          ∧ text = lit "???"
          ∧ call.2
            = OpenBinary (lit "a.md")
                :: detection_events (λ _, Unavailable) (lit "a.md")
                     (take (Z.to_nat 10000) [xff; xfe; xfd]%byte)
                ++ map (λ e, OpenText (lit "a.md") e false) encodings
                ++ [OpenText (lit "a.md") (lit "utf-8") true;
                    Printed (InvalidUtf8 (lit "a.md"))])).
Proof.
  intros fs encodings call.
  apply (text_for_every_content (λ _, Unavailable) (λ _ _, None)
           (λ _, lit "???") (λ _, []) (λ _, true) fs (lit "a.md")
           [xff; xfe; xfd]%byte).
  - reflexivity.
  - reflexivity.
Defined.
